(** * Smart image preloader: a shallow embedding of [dist/preload_images.js]

    The file follows the class [ImagePreloader]: first the page (the DOM
    queries the code performs), then URL discovery and the visibility
    split, then the preloader object with its event handlers, and at the
    end the properties of the pipeline. *)

From Stdlib Require Import ZArith Lia.
From stdpp Require Import base option list gmap strings.

Local Open Scope string_scope.
Local Open Scope nat_scope.
Local Open Scope list_scope.

(** ** JavaScript strings *)

Abbreviation url := string (only parsing).

(** [if (s)] on a string: every string but the empty one is truthy. *)
Definition truthy (s : string) : bool := negb (String.eqb s "").

(** [s.includes(pat)]: [pat] occurs in [s] at some position, compared
    code unit by code unit (so case matters). *)
Fixpoint includes (s pat : string) : bool :=
  String.prefix pat s
  || match s with
     | EmptyString => false
     | String _ s' => includes s' pat
     end.

(** ** JavaScript [Set] of strings

    A [Set] iterates in insertion order, so it is kept as the list of its
    members in the order they were first added. *)

Definition set_has (s : list string) (u : string) : bool := bool_decide (u ∈ s).

Definition set_add (s : list string) (u : string) : list string :=
  if set_has s u then s else s ++ [u].

(** [new Set(urls)] adds the elements one after the other. *)
Definition new_Set (urls : list string) : list string := foldl set_add [] urls.

(** ** The page *)

(** [getBoundingClientRect()]; the coordinates are only ever compared. *)
Record rect := { top : Z; left : Z; bottom : Z; right : Z }.

(** An [<img>] element: its [src] property (the resolved URL, empty when
    the element has no source) and its box. *)
Record img_element := { img_src : string; img_rect : rect }.

(** An [<a>] element: the [href] attribute as written in the markup, which
    is what an attribute selector reads, and the [href] property, which is
    the URL the attribute resolves to against the page. *)
Record a_element := { a_attr : option string; a_href : string }.

Record document := {
  doc_images : list img_element;      (* querySelectorAll('img') *)
  doc_anchors : list a_element;       (* every <a>, in document order *)
  innerHeight : Z;
  innerWidth : Z
}.

Definition extensions : list string := [".jpg"; ".jpeg"; ".png"; ".webp"].

(** The selector [a[href*=".jpg"], a[href*=".jpeg"], a[href*=".png"],
    a[href*=".webp"]]: the attribute is present and its value contains one
    of the four strings. *)
Definition selector_matches (a : a_element) : bool :=
  match a_attr a with
  | Some v => existsb (includes v) extensions
  | None => false
  end.

Definition href_has_extension (a : a_element) : bool :=
  includes (a_href a) ".jpg" || includes (a_href a) ".jpeg"
  || includes (a_href a) ".png" || includes (a_href a) ".webp".

(** ** URL discovery *)

Definition image_sources (d : document) : list string :=
  filter (fun s => truthy s = true) (img_src <$> doc_images d).

Definition link_targets (d : document) : list string :=
  a_href <$>
    filter (fun a => (truthy (a_href a) && href_has_extension a) = true)
      (filter (fun a => selector_matches a = true) (doc_anchors d)).

Definition getAllImageUrls (d : document) : list string :=
  new_Set (image_sources d ++ link_targets d).

(** ** Visibility *)

Definition isElementInViewport (d : document) (el : img_element) : bool :=
  let r := img_rect el in
  (top r <? innerHeight d)%Z && (left r <? innerWidth d)%Z
  && (0 <? bottom r)%Z && (0 <? right r)%Z.

Definition getVisibleImageUrls (d : document) : list string :=
  img_src <$>
    filter (fun el => (truthy (img_src el) && isElementInViewport d el) = true)
      (doc_images d).

(** [arr.includes(u)] on an array of strings. *)
Definition array_includes (arr : list string) (u : string) : bool :=
  bool_decide (u ∈ arr).

(** The three arrays [startPreloading] computes before it starts to load:
    [visibleImages], [offScreenImages] and the queue. *)
Definition offScreenImages (d : document) : list string :=
  filter (fun u => negb (array_includes (getVisibleImageUrls d) u) = true)
    (getAllImageUrls d).

Definition build_queue (d : document) : list string :=
  getVisibleImageUrls d ++ offScreenImages d.

(** ** The browser around the preloader *)

Abbreviation blob := (list Byte.byte) (only parsing).

(** What [fetch(url)] settles with: a rejection, or a response with its
    status ([response.ok] is the 2xx range). *)
Inductive fetch_result :=
| FetchRejected (msg : string)
| Response (status : N).

Definition response_ok (status : N) : bool :=
  (200 <=? status)%N && (status <=? 299)%N.

(** What [response.blob()] settles with. *)
Inductive body_result :=
| BodyRejected (msg : string)
| Body (b : blob).

(** How the database answers lines 57-59, which run in one synchronous
    stretch once the blob is there: [db.transaction] or [objectStore]
    throws; [store.put] is called and throws; [store.put] returns a
    request that fails later (or whose transaction aborts), which the code
    does not listen to; or the entry is written. *)
Inductive store_answer :=
| TransactionThrows (msg : string)
| PutThrows (msg : string)
| PutFails
| PutSucceeds.

(** The errors raised inside the [try] block of [cacheImage]. *)
Inductive failure :=
| FetchFailed (msg : string)
| HttpError (status : N)               (* new Error(`HTTP ${response.status}`) *)
| BodyFailed (msg : string)
| StoreFailed (msg : string).          (* thrown by lines 57-59 *)

Inductive console_line :=
| IndexedDBUnavailable                 (* 'IndexedDB not available, will use memory cache only' *)
| FailedToCache (u : url) (f : failure) (* `Failed to cache image ${url}:` *)
| BatchPreloadError.                   (* 'Batch preload error:' *)

(** What the preloader asks of the browser, in the order it asks. *)
Inductive effect :=
| ImageRequest (u : url)               (* img.src = url *)
| FetchRequest (u : url)               (* fetch(url) *)
| StorePut (u : url) (b : blob)        (* store.put(blob, url) *)
| ConsoleLog (l : console_line).

Inductive promise_state :=
| Pending
| Fulfilled (at_time : N)
| Rejected.

(** Where an activation of [cacheImage] is suspended. *)
Inductive cache_phase :=
| CacheIdle
| AwaitResponse                        (* await fetch(url) *)
| AwaitBody                            (* await response.blob() *)
| CacheDone.

(** One [new Promise] of [preloadImage], with the [Image] and the timer it
    created. There is at most one per URL because of [preloadedUrls]. *)
Record load := {
  started : N;                         (* the time of the call *)
  outcome : promise_state;
  img_fired : bool;                    (* the Image has had its load or error event *)
  timer_fired : bool;                  (* the 30 s timer has run *)
  caching : cache_phase
}.

(** The value [preloadImage] returns: [Promise.resolve()] or the promise
    of the load it started. *)
Inductive promise :=
| AlreadyResolved
| LoadPromise (u : url).

(** A pending call of [loadNextImages]. *)
Inductive callback :=
| IdleCallback (timeout : N)           (* requestIdleCallback(..., { timeout }) *)
| TimeoutCallback (due : N).           (* setTimeout(..., 100) *)

Record preloader := {
  (* the browser *)
  now : N;                             (* clock, in ms *)
  hasIdle : bool;                      (* 'requestIdleCallback' in window *)
  idb : gmap string blob;              (* the object store 'imageCache' *)
  trace : list effect;
  (* the fields of ImagePreloader *)
  db : bool;                           (* this.db is not null *)
  preloadedUrls : list string;
  preloadingQueue : list string;
  isPreloading : bool;
  (* the suspended computations *)
  loads : gmap string load;
  awaiting : option (list promise);    (* await Promise.all(...) in loadNextImages *)
  callbacks : list callback
}.

Definition set_now (x : N) (w : preloader) : preloader :=
  {| now := x; hasIdle := hasIdle w; idb := idb w; trace := trace w; db := db w;
     preloadedUrls := preloadedUrls w; preloadingQueue := preloadingQueue w;
     isPreloading := isPreloading w; loads := loads w; awaiting := awaiting w;
     callbacks := callbacks w |}.

Definition set_idb (x : gmap string blob) (w : preloader) : preloader :=
  {| now := now w; hasIdle := hasIdle w; idb := x; trace := trace w; db := db w;
     preloadedUrls := preloadedUrls w; preloadingQueue := preloadingQueue w;
     isPreloading := isPreloading w; loads := loads w; awaiting := awaiting w;
     callbacks := callbacks w |}.

Definition set_trace (x : list effect) (w : preloader) : preloader :=
  {| now := now w; hasIdle := hasIdle w; idb := idb w; trace := x; db := db w;
     preloadedUrls := preloadedUrls w; preloadingQueue := preloadingQueue w;
     isPreloading := isPreloading w; loads := loads w; awaiting := awaiting w;
     callbacks := callbacks w |}.

Definition set_db (x : bool) (w : preloader) : preloader :=
  {| now := now w; hasIdle := hasIdle w; idb := idb w; trace := trace w; db := x;
     preloadedUrls := preloadedUrls w; preloadingQueue := preloadingQueue w;
     isPreloading := isPreloading w; loads := loads w; awaiting := awaiting w;
     callbacks := callbacks w |}.

Definition set_preloadedUrls (x : list string) (w : preloader) : preloader :=
  {| now := now w; hasIdle := hasIdle w; idb := idb w; trace := trace w; db := db w;
     preloadedUrls := x; preloadingQueue := preloadingQueue w;
     isPreloading := isPreloading w; loads := loads w; awaiting := awaiting w;
     callbacks := callbacks w |}.

Definition set_preloadingQueue (x : list string) (w : preloader) : preloader :=
  {| now := now w; hasIdle := hasIdle w; idb := idb w; trace := trace w; db := db w;
     preloadedUrls := preloadedUrls w; preloadingQueue := x;
     isPreloading := isPreloading w; loads := loads w; awaiting := awaiting w;
     callbacks := callbacks w |}.

Definition set_isPreloading (x : bool) (w : preloader) : preloader :=
  {| now := now w; hasIdle := hasIdle w; idb := idb w; trace := trace w; db := db w;
     preloadedUrls := preloadedUrls w; preloadingQueue := preloadingQueue w;
     isPreloading := x; loads := loads w; awaiting := awaiting w;
     callbacks := callbacks w |}.

Definition set_loads (x : gmap string load) (w : preloader) : preloader :=
  {| now := now w; hasIdle := hasIdle w; idb := idb w; trace := trace w; db := db w;
     preloadedUrls := preloadedUrls w; preloadingQueue := preloadingQueue w;
     isPreloading := isPreloading w; loads := x; awaiting := awaiting w;
     callbacks := callbacks w |}.

Definition set_awaiting (x : option (list promise)) (w : preloader) : preloader :=
  {| now := now w; hasIdle := hasIdle w; idb := idb w; trace := trace w; db := db w;
     preloadedUrls := preloadedUrls w; preloadingQueue := preloadingQueue w;
     isPreloading := isPreloading w; loads := loads w; awaiting := x;
     callbacks := callbacks w |}.

Definition set_callbacks (x : list callback) (w : preloader) : preloader :=
  {| now := now w; hasIdle := hasIdle w; idb := idb w; trace := trace w; db := db w;
     preloadedUrls := preloadedUrls w; preloadingQueue := preloadingQueue w;
     isPreloading := isPreloading w; loads := loads w; awaiting := awaiting w;
     callbacks := x |}.

Definition emit (e : effect) (w : preloader) : preloader :=
  set_trace (trace w ++ [e]) w.

Definition set_outcome (x : promise_state) (l : load) : load :=
  {| started := started l; outcome := x; img_fired := img_fired l;
     timer_fired := timer_fired l; caching := caching l |}.

Definition set_img_fired (l : load) : load :=
  {| started := started l; outcome := outcome l; img_fired := true;
     timer_fired := timer_fired l; caching := caching l |}.

Definition set_timer_fired (l : load) : load :=
  {| started := started l; outcome := outcome l; img_fired := img_fired l;
     timer_fired := true; caching := caching l |}.

Definition set_caching (x : cache_phase) (l : load) : load :=
  {| started := started l; outcome := outcome l; img_fired := img_fired l;
     timer_fired := timer_fired l; caching := x |}.

Definition new_load (t : N) : load :=
  {| started := t; outcome := Pending; img_fired := false;
     timer_fired := false; caching := CacheIdle |}.

Definition timeout_ms : N := 30000.
Definition batchSize : nat := 4.

(** The record of the load of [u] is changed by [f]. *)
Definition update_load (u : url) (f : load → load) (w : preloader) : preloader :=
  set_loads (alter f u (loads w)) w.

(** ** Promises *)

Definition promise_state_of (w : preloader) (p : promise) : promise_state :=
  match p with
  | AlreadyResolved => Fulfilled (now w)
  | LoadPromise u =>
      match loads w !! u with
      | Some l => outcome l
      | None => Pending
      end
  end.

Definition is_pending (s : promise_state) : bool :=
  match s with Pending => true | _ => false end.

Definition is_rejected (s : promise_state) : bool :=
  match s with Rejected => true | _ => false end.

(** [Promise.all]: rejected as soon as one member is, fulfilled once all
    members are, pending otherwise. *)
Inductive all_state := AllPending | AllFulfilled | AllRejected.

Definition promise_all (w : preloader) (ps : list promise) : all_state :=
  if existsb (fun p => is_rejected (promise_state_of w p)) ps then AllRejected
  else if existsb (fun p => is_pending (promise_state_of w p)) ps then AllPending
  else AllFulfilled.

(** ** [loadNextImages], after its [await] (lines 123-133) *)

Definition finishBatch (w : preloader) : preloader :=
  let w1 := set_isPreloading false w in
  if 0 <? length (preloadingQueue w1) then
    if hasIdle w1 then set_callbacks (callbacks w1 ++ [IdleCallback 1000%N]) w1
    else set_callbacks (callbacks w1 ++ [TimeoutCallback (now w1 + 100)%N]) w1
  else w1.

(** The suspended [loadNextImages] is resumed once [Promise.all] has
    settled; a rejection would be caught and reported, and the function
    would go on all the same. *)
Definition resumeBatch (w : preloader) : preloader :=
  match awaiting w with
  | None => w
  | Some ps =>
      match promise_all w ps with
      | AllPending => w
      | AllFulfilled => finishBatch (set_awaiting None w)
      | AllRejected =>
          finishBatch (emit (ConsoleLog BatchPreloadError) (set_awaiting None w))
      end
  end.

(** [resolve()] of the promise of [u]: only a pending promise changes. *)
Definition resolve (u : url) (w : preloader) : preloader :=
  match loads w !! u with
  | Some l =>
      match outcome l with
      | Pending => resumeBatch (update_load u (set_outcome (Fulfilled (now w))) w)
      | _ => w
      end
  | None => w
  end.

(** ** [cacheImage] *)

(** How a stretch of an [async] function ends: at an [await], by
    returning, or by throwing. *)
Inductive stretch :=
| Suspend (p : cache_phase)
| Return
| Throw (f : failure).

(** The [try] block, cut at its two awaits. *)
Definition try_fetch (u : url) (w : preloader) : stretch * preloader :=
  (Suspend AwaitResponse, emit (FetchRequest u) w).

Definition try_response (r : fetch_result) (w : preloader) : stretch * preloader :=
  match r with
  | FetchRejected msg => (Throw (FetchFailed msg), w)
  | Response status =>
      if response_ok status then (Suspend AwaitBody, w)
      else (Throw (HttpError status), w)
  end.

(** Lines 57-59.  The object store is a finite map and [store.put(blob,
    url)] an upsert; an entry that is written is there at once. *)
Definition try_put (u : url) (b : blob) (s : store_answer) (w : preloader)
  : stretch * preloader :=
  match s with
  | TransactionThrows msg => (Throw (StoreFailed msg), w)
  | PutThrows msg => (Throw (StoreFailed msg), emit (StorePut u b) w)
  | PutFails => (Return, emit (StorePut u b) w)
  | PutSucceeds =>
      (Return, emit (StorePut u b) (set_idb (<[u := b]> (idb w)) w))
  end.

Definition try_body (u : url) (r : body_result) (s : store_answer)
    (w : preloader) : stretch * preloader :=
  match r with
  | BodyRejected msg => (Throw (BodyFailed msg), w)
  | Body b => try_put u b s w
  end.

(** The [catch] block. *)
Definition catch_log (u : url) (r : stretch * preloader) : stretch * preloader :=
  match r with
  | (Throw f, w) => (Return, emit (ConsoleLog (FailedToCache u f)) w)
  | _ => r
  end.

Definition cacheImage (u : url) (w : preloader) : stretch * preloader :=
  if negb (db w) then (Return, w)
  else catch_log u (try_fetch u w).

Definition cacheImage_response (u : url) (r : fetch_result) (w : preloader)
  : stretch * preloader :=
  catch_log u (try_response r w).

Definition cacheImage_body (u : url) (r : body_result) (s : store_answer)
    (w : preloader) : stretch * preloader :=
  catch_log u (try_body u r s w).

Definition set_phase (u : url) (p : cache_phase) (w : preloader) : preloader :=
  update_load u (set_caching p) w.

(** The handler [async () => { await this.cacheImage(url); resolve(); }]:
    it goes on to [resolve()] when [cacheImage] has returned, and would
    stop short of it had [cacheImage] thrown. *)
Definition then_resolve (u : url) (r : stretch * preloader) : preloader :=
  match r with
  | (Suspend p, w) => set_phase u p w
  | (Return, w) => resolve u (set_phase u CacheDone w)
  | (Throw _, w) => set_phase u CacheDone w
  end.

Definition onload (u : url) (w : preloader) : preloader :=
  then_resolve u (cacheImage u w).

Definition onerror (u : url) (w : preloader) : preloader :=
  then_resolve u (cacheImage u w).

(** ** [preloadImage]

    A call for a new URL adds it to [preloadedUrls] and creates the
    promise, the [Image] (whose request starts with [img.src = url]) and
    the timer, all before it returns. *)

Definition preloadImage (u : url) (w : preloader) : promise * preloader :=
  if set_has (preloadedUrls w) u then (AlreadyResolved, w)
  else
    let w1 := set_preloadedUrls (set_add (preloadedUrls w) u) w in
    let w2 := set_loads (<[u := new_load (now w1)]> (loads w1)) w1 in
    (LoadPromise u, emit (ImageRequest u) w2).

(** [batch.map(url => this.preloadImage(url))] *)
Fixpoint map_preloadImage (batch : list url) (w : preloader)
  : list promise * preloader :=
  match batch with
  | [] => ([], w)
  | u :: rest =>
      let '(p, w1) := preloadImage u w in
      let '(ps, w2) := map_preloadImage rest w1 in
      (p :: ps, w2)
  end.

(** ** [loadNextImages] and [startPreloading] *)

Definition loadNextImages (w : preloader) : preloader :=
  if isPreloading w || (length (preloadingQueue w) =? 0) then w
  else
    let w1 := set_isPreloading true w in
    let batch := take batchSize (preloadingQueue w1) in
    let w2 := set_preloadingQueue (drop batchSize (preloadingQueue w1)) w1 in
    let '(ps, w3) := map_preloadImage batch w2 in
    resumeBatch (set_awaiting (Some ps) w3).

Definition startPreloading (d : document) (w : preloader) : preloader :=
  loadNextImages (set_preloadingQueue (build_queue d) w).

(** The object after the constructor has run its assignments. *)
Definition constructed (idle : bool) (t0 : N) (store : gmap string blob)
  : preloader :=
  {| now := t0; hasIdle := idle; idb := store; trace := []; db := false;
     preloadedUrls := []; preloadingQueue := []; isPreloading := false;
     loads := ∅; awaiting := None; callbacks := [] |}.

(** [init], from the moment [initIndexedDB()] has settled: [opened] tells
    whether it resolved (and set [this.db]) or rejected. *)
Definition init (d : document) (opened : bool) (w : preloader) : preloader :=
  let w1 := if opened then set_db true w
            else emit (ConsoleLog IndexedDBUnavailable) w in
  startPreloading d w1.

(** ** The event loop *)

Inductive event :=
| Advance (ms : N)                     (* the clock moves on; due timers run *)
| ImageLoaded (u : url)                (* load event of the Image of u *)
| ImageFailed (u : url)                (* error event of the Image of u *)
| FetchSettled (u : url) (r : fetch_result)
| BodySettled (u : url) (r : body_result) (s : store_answer)
                                       (* the blob promise settles; s is what
                                          the database answers to the write *)
| CallbackRun (i : nat).               (* the i-th pending callback runs *)

(** The 30 s timer of [u] runs, the clock reading its due time: timers
    are taken to run exactly when they are due. *)
Definition fire_timer (u : url) (w : preloader) : preloader :=
  match loads w !! u with
  | Some l =>
      if timer_fired l then w
      else
        resolve u
          (update_load u set_timer_fired (set_now (started l + timeout_ms)%N w))
  | None => w
  end.

Definition timer_due (target : N) (u : url) (w : preloader) : bool :=
  match loads w !! u with
  | Some l => negb (timer_fired l) && (started l + timeout_ms <=? target)%N
  | None => false
  end.

(** Timers that come due while the clock moves run in the order they
    were set. *)
Definition advance (ms : N) (w : preloader) : preloader :=
  let target := (now w + ms)%N in
  set_now target
    (foldl (fun w' u => if timer_due target u w' then fire_timer u w' else w')
       w (preloadedUrls w)).

(** An [Image] delivers one event, load or error. *)
Definition image_event (handler : url -> preloader -> preloader) (u : url)
    (w : preloader) : preloader :=
  match loads w !! u with
  | Some l =>
      if img_fired l then w
      else handler u (update_load u set_img_fired w)
  | None => w
  end.

Definition phase_of (w : preloader) (u : url) : cache_phase :=
  match loads w !! u with
  | Some l => caching l
  | None => CacheIdle
  end.

Definition callback_ready (t : N) (cb : callback) : bool :=
  match cb with
  | IdleCallback _ => true
  | TimeoutCallback due => (due <=? t)%N
  end.

(** An event that cannot happen in the state at hand leaves it as it is. *)
Definition step (e : event) (w : preloader) : preloader :=
  match e with
  | Advance ms => advance ms w
  | ImageLoaded u => image_event onload u w
  | ImageFailed u => image_event onerror u w
  | FetchSettled u r =>
      match phase_of w u with
      | AwaitResponse => then_resolve u (cacheImage_response u r w)
      | _ => w
      end
  | BodySettled u r s =>
      match phase_of w u with
      | AwaitBody => then_resolve u (cacheImage_body u r s w)
      | _ => w
      end
  | CallbackRun i =>
      match callbacks w !! i with
      | Some cb =>
          if callback_ready (now w) cb
          then loadNextImages (set_callbacks (delete i (callbacks w)) w)
          else w
      | None => w
      end
  end.

Definition run (es : list event) (w : preloader) : preloader :=
  foldl (fun w' e => step e w') w es.

(** A page load: the constructor, [init], then what the browser delivers. *)
Definition page_load (idle : bool) (t0 : N) (store : gmap string blob)
    (d : document) (opened : bool) (es : list event) : preloader :=
  run es (init d opened (constructed idle t0 store)).

(** The number of [store.put] calls for [u]. *)
Definition is_put (u : url) (e : effect) : bool :=
  match e with
  | StorePut v _ => String.eqb u v
  | _ => false
  end.

Definition puts_of (u : url) (w : preloader) : nat :=
  length (filter (fun e => is_put u e = true) (trace w)).

(** The loads that have been started and have not settled. *)
Definition in_flight (w : preloader) : list string :=
  filter (fun u => is_pending (promise_state_of w (LoadPromise u)) = true)
    (preloadedUrls w).

(** The page of the end-to-end scenario: an image in the viewport, one
    below it, and a link to a third image. *)
Definition scenario : document :=
  {| doc_images :=
       [ {| img_src := "a.jpg";
            img_rect := {| top := 10; left := 10; bottom := 110; right := 210 |} |};
         {| img_src := "b.png";
            img_rect := {| top := 2000; left := 10; bottom := 2100; right := 210 |} |} ];
     doc_anchors := [ {| a_attr := Some "c.webp"; a_href := "c.webp" |} ];
     innerHeight := 800; innerWidth := 1200 |}.

(** [pat] occurs in [s]. *)
Definition occurs_in (pat s : string) : Prop :=
  ∃ a b, s = a +:+ pat +:+ b.

Definition has_extension (s : string) : Prop :=
  ∃ e, e ∈ extensions ∧ occurs_in e s.

(** How often [u] occurs in [l]. *)
Definition occurrences (u : string) (l : list string) : nat :=
  length (filter (λ x, x = u) l).

Definition fragment_link_page : document :=
  {| doc_images := [];
     doc_anchors :=
       [ {| a_attr := Some "#top";
            a_href := "https://example.org/view?img=a.jpg#top" |} ];
     innerHeight := 800; innerWidth := 1200 |}.

Definition box (t l b r : Z) : rect := {| top := t; left := l; bottom := b; right := r |}.

Definition twin_page : document :=
  {| doc_images :=
       [ {| img_src := "a.jpg"; img_rect := box 10 10 110 210 |};
         {| img_src := "a.jpg"; img_rect := box 120 10 220 210 |} ];
     doc_anchors := [];
     innerHeight := 800; innerWidth := 1200 |}.


Definition visible_elements (d : document) : list img_element :=
  filter (fun el => (truthy (img_src el) && isElementInViewport d el) = true)
    (doc_images d).

(** ** What holds of a preloader at every moment of a page load *)

(** A promise settles at most 30 s after its load started, and while it
    is pending its timer has yet to run. *)
Definition settled_in_time (l : load) : Prop :=
  match outcome l with
  | Pending => timer_fired l = false
  | Fulfilled t => (started l ≤ t ∧ t ≤ started l + timeout_ms)%N
  | Rejected => False
  end.

Record orderly (w : preloader) : Prop := {
  o_nodup : NoDup (preloadedUrls w);
  o_dom : ∀ u, u ∈ preloadedUrls w ↔ is_Some (loads w !! u);
  o_loads : ∀ u l, loads w !! u = Some l → settled_in_time l;
  o_pending : ∀ u l, loads w !! u = Some l → outcome l = Pending →
      ∃ ps, awaiting w = Some ps ∧ LoadPromise u ∈ ps;
  o_awaiting : ∀ ps, awaiting w = Some ps →
      isPreloading w = true ∧ length ps ≤ batchSize
      ∧ ∀ u, LoadPromise u ∈ ps → is_Some (loads w !! u);
  o_idle : awaiting w = None → isPreloading w = false;
  o_no_batch_error : ConsoleLog BatchPreloadError ∉ trace w
}.

(** A suspended [loadNextImages] still has something to wait for. *)
Definition waiting (w : preloader) : Prop :=
  ∀ ps, awaiting w = Some ps → promise_all w ps = AllPending.

(** The clock has not passed a timer that has yet to run. *)
Definition timely (w : preloader) : Prop :=
  ∀ u l, loads w !! u = Some l →
    (started l ≤ now w)%N
    ∧ (timer_fired l = false → (now w < started l + timeout_ms)%N).

(** One load may become another in the course of an event: the promise
    stays as it is (the timer may run once it has settled), or it is
    fulfilled in time. *)
Definition evolves (l l' : load) : Prop :=
  started l' = started l
  ∧ ((outcome l' = outcome l
      ∧ (timer_fired l' = timer_fired l ∨ outcome l ≠ Pending))
     ∨ (outcome l = Pending
        ∧ ∃ t, outcome l' = Fulfilled t
               ∧ (started l ≤ t ∧ t ≤ started l + timeout_ms)%N)).

(** What [resolve()] does to the record of a load at time [t]. *)
Definition settle (t : N) (l : load) : load :=
  match outcome l with
  | Pending => set_outcome (Fulfilled t) l
  | _ => l
  end.

Definition loads_evolve (m m' : gmap string load) : Prop :=
  ∀ u, option_Forall2 evolves (m !! u) (m' !! u).

(** [w1] is [w] but for what does not concern promises or the clock:
    the trace (nothing reported from the batch level), the store, and the
    image and caching fields of the loads. *)
Record cosmetic (w w1 : preloader) : Prop := {
  cos_now : now w1 = now w;
  cos_urls : preloadedUrls w1 = preloadedUrls w;
  cos_awaiting : awaiting w1 = awaiting w;
  cos_isPreloading : isPreloading w1 = isPreloading w;
  cos_trace : ConsoleLog BatchPreloadError ∈ trace w1 →
              ConsoleLog BatchPreloadError ∈ trace w;
  cos_loads : ∀ v, option_Forall2
      (λ l l1, started l1 = started l ∧ outcome l1 = outcome l
               ∧ timer_fired l1 = timer_fired l)
      (loads w !! v) (loads w1 !! v)
}.

Definition sound (w : preloader) : Prop :=
  orderly w ∧ waiting w ∧ timely w.

(** What the caller of [cacheImage] does to the record of the load when a
    stretch of [cacheImage] ends at time [t]. *)
Definition finish (st : stretch) (t : N) (l : load) : load :=
  match st with
  | Suspend p => set_caching p l
  | Return => settle t (set_caching CacheDone l)
  | Throw _ => set_caching CacheDone l
  end.

Definition count_puts (u : url) (tr : list effect) : nat :=
  length (filter (fun e => is_put u e = true) tr).

(** What holds of the caching side at every moment of a page load. *)
Record cached (w : preloader) : Prop := {
  ca_idle : ∀ u l, loads w !! u = Some l → img_fired l = false →
      caching l = CacheIdle;
  ca_puts : ∀ u, puts_of u w ≤ 1;
  ca_put_done : ∀ u, 0 < puts_of u w →
      phase_of w u = CacheDone
      ∧ is_pending (promise_state_of w (LoadPromise u)) = false;
  ca_no_db : db w = false →
      (∀ u, phase_of w u = CacheIdle ∨ phase_of w u = CacheDone)
      ∧ (∀ u, FetchRequest u ∉ trace w)
      ∧ (∀ u b, StorePut u b ∉ trace w)
}.

Definition healthy (w : preloader) : Prop := sound w ∧ cached w.

(** The callback [loadNextImages] leaves behind when the queue is not
    empty after a batch. *)
Definition rescheduled (idle : bool) (t : N) (queue : list string)
  : list callback :=
  match queue with
  | [] => []
  | _ :: _ => [if idle then IdleCallback 1000%N else TimeoutCallback (t + 100)%N]
  end.

(** The error a settled fetch raises in [cacheImage], if any. *)
Definition failed_response (r : fetch_result) : option failure :=
  match r with
  | FetchRejected msg => Some (FetchFailed msg)
  | Response status =>
      if response_ok status then None else Some (HttpError status)
  end.

(** A page with six images in the viewport: two batches. *)
Definition gallery_page : document :=
  {| doc_images :=
       (fun s => {| img_src := s; img_rect := box 10 10 110 210 |})
         <$> ["1.jpg"; "2.jpg"; "3.jpg"; "4.jpg"; "5.jpg"; "6.jpg"];
     doc_anchors := [];
     innerHeight := 800; innerWidth := 1200 |}.

(** The first [k] URLs of the queue have been handed to [preloadImage],
    the rest is still queued. *)
Definition drained (d : document) (k : nat) (w : preloader) : Prop :=
  preloadingQueue w = drop k (build_queue d)
  ∧ preloadedUrls w = new_Set (take k (build_queue d)).

(** A pending callback is of the kind the page allows and, if it is a
    timeout, due by [bound]. *)
Definition callback_ok (idle : bool) (bound : N) (cb : callback) : Prop :=
  match cb with
  | IdleCallback t => idle = true ∧ t = 1000%N
  | TimeoutCallback due => idle = false ∧ (due ≤ bound)%N
  end.

(** While [loadNextImages] is suspended no callback is pending; otherwise
    one is pending exactly when the queue is not empty. *)
Definition scheduled (bound : N) (w : preloader) : Prop :=
  match awaiting w with
  | Some _ => callbacks w = []
  | None =>
      (callbacks w = [] ∧ preloadingQueue w = [])
      ∨ (∃ cb, callbacks w = [cb] ∧ preloadingQueue w ≠ []
               ∧ callback_ok (hasIdle w) bound cb)
  end.

Definition robust (w : preloader) : Prop :=
  healthy w ∧ scheduled (now w + 100)%N w.

(** A schedule on which nothing answers: the clock moves on past every
    timer and the pending callback runs. *)
Definition round : list event := [Advance 30100; CallbackRun 0].

Fixpoint rounds (n : nat) : list event :=
  match n with
  | 0 => []
  | S n' => round ++ rounds n'
  end.

(** The URLs [preloadedUrls] gains in the course of an event. *)
Definition claimed_by (e : event) (w : preloader) : list string :=
  drop (length (preloadedUrls w)) (preloadedUrls (step e w)).

(** What lines 57-61 of [cacheImage] ask of the browser. *)
Definition put_effects (u : url) (b : blob) (s : store_answer) : list effect :=
  match s with
  | TransactionThrows msg => [ConsoleLog (FailedToCache u (StoreFailed msg))]
  | PutThrows msg =>
      [StorePut u b; ConsoleLog (FailedToCache u (StoreFailed msg))]
  | PutFails | PutSucceeds => [StorePut u b]
  end.

(** What an event makes the preloader ask of the browser, as long as no
    batch has failed. *)
Definition emitted (e : event) (w : preloader) : list effect :=
  match e with
  | Advance _ => []
  | ImageLoaded u | ImageFailed u =>
      match loads w !! u with
      | Some l => if img_fired l || negb (db w) then [] else [FetchRequest u]
      | None => []
      end
  | FetchSettled u r =>
      match phase_of w u, failed_response r with
      | AwaitResponse, Some f => [ConsoleLog (FailedToCache u f)]
      | _, _ => []
      end
  | BodySettled u r s =>
      match phase_of w u, r with
      | AwaitBody, Body b => put_effects u b s
      | AwaitBody, BodyRejected msg =>
          [ConsoleLog (FailedToCache u (BodyFailed msg))]
      | _, _ => []
      end
  | CallbackRun _ => ImageRequest <$> claimed_by e w
  end.

Definition is_request (u : url) (e : effect) : bool :=
  match e with
  | ImageRequest v => String.eqb u v
  | _ => false
  end.

Definition is_fetch (u : url) (e : effect) : bool :=
  match e with
  | FetchRequest v => String.eqb u v
  | _ => false
  end.

Definition count (p : effect → bool) (tr : list effect) : nat :=
  length (filter (fun e => p e = true) tr).

(** The number of times [img.src = u] and [fetch(u)] have run. *)
Definition requests_of (u : url) (w : preloader) : nat :=
  count (is_request u) (trace w).

Definition fetches_of (u : url) (w : preloader) : nat :=
  count (is_fetch u) (trace w).

Definition phase_rank (p : cache_phase) : nat :=
  match p with
  | CacheIdle => 0
  | AwaitResponse => 1
  | AwaitBody => 2
  | CacheDone => 3
  end.

(** The record of a load only moves forward: a fulfilled promise stays
    fulfilled at the same time, an event that has been delivered stays
    delivered, and [cacheImage] does not go back to an earlier await. *)
Definition progress (l l' : load) : Prop :=
  started l' = started l
  ∧ (∀ t, outcome l = Fulfilled t → outcome l' = Fulfilled t)
  ∧ (img_fired l = true → img_fired l' = true)
  ∧ (timer_fired l = true → timer_fired l' = true)
  ∧ phase_rank (caching l) ≤ phase_rank (caching l').

(** [e] is the load or error event of the [Image] of [v]. *)
Definition on_image (v : url) (e : event) : bool :=
  match e with
  | ImageLoaded u | ImageFailed u => String.eqb u v
  | _ => false
  end.

(** Every claimed URL has been requested once, and [fetch] has run once
    for every URL whose [Image] has had its event while the store was
    open. *)
Record frugal (w : preloader) : Prop := {
  fr_requests : ∀ u,
    requests_of u w = if decide (u ∈ preloadedUrls w) then 1 else 0;
  fr_fetches : ∀ u,
    fetches_of u w
    = match loads w !! u with
      | Some l => if img_fired l && db w then 1 else 0
      | None => 0
      end
}.

(** A page without any image to preload: an [img] without [src] and a
    link to another page. *)
Definition plain_page : document :=
  {| doc_images := [ {| img_src := ""; img_rect := box 10 10 110 210 |} ];
     doc_anchors := [ {| a_attr := Some "about.html"; a_href := "about.html" |} ];
     innerHeight := 800; innerWidth := 1200 |}.

(** Nothing has been started and nothing is pending. *)
Definition at_rest (w : preloader) : Prop :=
  preloadedUrls w = [] ∧ preloadingQueue w = [] ∧ loads w = ∅
  ∧ callbacks w = [] ∧ isPreloading w = false.

(** Every promise that has settled did so by [B]. *)
Definition settled_by (B : N) (w : preloader) : Prop :=
  ∀ u l t, loads w !! u = Some l → outcome l = Fulfilled t → (t ≤ B)%N.

(** While [loadNextImages] is suspended no callback is pending. *)
Definition hushed (w : preloader) : Prop :=
  ∀ ps, awaiting w = Some ps → callbacks w = [].

(** What the fallback [setTimeout(..., 100)] keeps up: a pending timeout
    callback is due at least 100 ms after every promise settled so far,
    and a load started later than another one started at least 100 ms
    after that one's promise settled. *)
Record paced (w : preloader) : Prop := {
  pa_callbacks : ∀ u l t due,
    loads w !! u = Some l → outcome l = Fulfilled t →
    TimeoutCallback due ∈ callbacks w → (t + 100 ≤ due)%N;
  pa_batches : ∀ u v lu lv,
    loads w !! u = Some lu → loads w !! v = Some lv →
    (started lu < started lv)%N →
    ∃ t, outcome lu = Fulfilled t ∧ (t + 100 ≤ started lv)%N
}.

Definition request_of (e : effect) : option string :=
  match e with
  | ImageRequest u => Some u
  | _ => None
  end.

(** The URLs of the image requests made so far, in the order they were
    made. *)
Definition requested (w : preloader) : list string :=
  omap request_of (trace w).

(** ** [initIndexedDB]: the upgrade handler

    A database under upgrade is its object stores by name.
    [db.createObjectStore(name)] throws a ConstraintError when a store of
    that name exists, and creates an empty store otherwise. *)

Definition storeName : string := "imageCache".

Definition objectStoreNames_contains
    (db : gmap string (gmap string (list Byte.byte))) (name : string) : bool :=
  bool_decide (is_Some (db !! name)).

Definition createObjectStore (name : string)
    (db : gmap string (gmap string (list Byte.byte)))
  : option (gmap string (gmap string (list Byte.byte))) :=
  if objectStoreNames_contains db name then None
  else Some (<[name := ∅]> db).

(** [request.onupgradeneeded]: [None] stands for an exception. *)
Definition onupgradeneeded (db : gmap string (gmap string (list Byte.byte)))
  : option (gmap string (gmap string (list Byte.byte))) :=
  if negb (objectStoreNames_contains db storeName)
  then createObjectStore storeName db
  else Some db.

(** The number of [store.put] calls that lines 57-59 make. *)
Definition puts_made (s : store_answer) : nat :=
  match s with
  | TransactionThrows _ => 0
  | _ => 1
  end.

(** What the store holds after lines 57-59. *)
Definition written (u : url) (b : blob) (s : store_answer)
    (m : gmap string blob) : gmap string blob :=
  match s with
  | PutSucceeds => <[u := b]> m
  | _ => m
  end.

(** * Properties *)

(** ** Strings *)

Section Strings.

Lemma append_cons (c : Ascii.ascii) (a b : string) :
  String c a +:+ b = String c (a +:+ b).
Proof. reflexivity. Qed.

Lemma prefix_spec (p s : string) :
  String.prefix p s = true ↔ ∃ b, s = p +:+ b.
Proof.
  revert s. induction p as [|c p IH]; intros s; simpl.
  - destruct s; split; eauto.
  - destruct s as [|c' s]; simpl.
    + split; [discriminate | intros [b Hb]; rewrite append_cons in Hb; discriminate].
    + destruct (Ascii.ascii_dec c c') as [->|Hne].
      * rewrite IH. split; intros [b Hb]; exists b;
          rewrite append_cons in *; congruence.
      * split; [discriminate | intros [b Hb]; rewrite append_cons in Hb; congruence].
Qed.

Lemma includes_spec (s pat : string) :
  includes s pat = true ↔ occurs_in pat s.
Proof.
  unfold occurs_in. induction s as [|c s IH].
  - cbn [includes]. rewrite orb_false_r, prefix_spec. split.
    + intros [b Hb]. exists "", b. exact Hb.
    + intros ([|x a] & b & Hb); [eauto | rewrite append_cons in Hb; discriminate].
  - cbn [includes]. rewrite orb_true_iff, prefix_spec, IH. split.
    + intros [[b Hb] | (a & b & Hab)].
      * exists "", b. exact Hb.
      * exists (String c a), b. rewrite append_cons. congruence.
    + intros ([|x a] & b & Hb).
      * left. eauto.
      * right. exists a, b. rewrite append_cons in Hb. congruence.
Qed.

Lemma truthy_spec (s : string) : truthy s = true ↔ s ≠ "".
Proof.
  unfold truthy. rewrite negb_true_iff. split.
  - intros H ->. discriminate.
  - intros H. apply String.eqb_neq. exact H.
Qed.

Lemma occurs_in_nonempty (e s : string) :
  e ∈ extensions → occurs_in e s → s ≠ "".
Proof.
  intros He (a & b & ->) Hs.
  destruct a as [|? a]; [|rewrite append_cons in Hs; discriminate].
  unfold extensions in He.
  repeat (apply elem_of_cons in He as [-> | He]; [discriminate|]).
  by apply elem_of_nil in He.
Qed.

Lemma existsb_extensions (v : string) :
  existsb (includes v) extensions = true ↔ has_extension v.
Proof.
  unfold has_extension. rewrite existsb_exists. split.
  - intros (e & He & Hin). exists e. split; [by apply list_elem_of_In|].
    by apply includes_spec.
  - intros (e & He & Hin). exists e. split; [by apply list_elem_of_In|].
    by apply includes_spec.
Qed.

Lemma href_has_extension_spec (a : a_element) :
  href_has_extension a = true ↔ has_extension (a_href a).
Proof.
  rewrite <- existsb_extensions. unfold href_has_extension. simpl.
  rewrite orb_false_r, !orb_assoc. reflexivity.
Qed.

End Strings.

(** ** Sets in insertion order *)

Section InsertionOrder.

Lemma set_has_spec (s : list string) (u : string) :
  set_has s u = true ↔ u ∈ s.
Proof. unfold set_has. apply bool_decide_eq_true. Qed.

Lemma set_add_elem (s : list string) (u x : string) :
  x ∈ set_add s u ↔ x ∈ s ∨ x = u.
Proof.
  unfold set_add. destruct (set_has s u) eqn:E.
  - apply set_has_spec in E. split; [auto | intros [?| ->]; auto].
  - rewrite elem_of_app, list_elem_of_singleton. reflexivity.
Qed.

Lemma set_add_NoDup (s : list string) (u : string) :
  NoDup s → NoDup (set_add s u).
Proof.
  intros Hs. unfold set_add. destruct (set_has s u) eqn:E; [done|].
  apply NoDup_app. split_and!; [done | | apply NoDup_singleton].
  intros x Hx ->%list_elem_of_singleton.
  apply set_has_spec in Hx. congruence.
Qed.

Lemma foldl_set_add_elem (l acc : list string) (x : string) :
  x ∈ foldl set_add acc l ↔ x ∈ acc ∨ x ∈ l.
Proof.
  revert acc. induction l as [|y l IH]; intros acc; simpl.
  - split; [auto | intros [?|?%elem_of_nil]; done].
  - rewrite IH, set_add_elem, elem_of_cons. tauto.
Qed.

Lemma foldl_set_add_NoDup (l acc : list string) :
  NoDup acc → NoDup (foldl set_add acc l).
Proof.
  revert acc. induction l as [|y l IH]; intros acc Hacc; simpl; [done|].
  apply IH, set_add_NoDup, Hacc.
Qed.

(** Adding never moves what is already there. *)
Lemma foldl_set_add_grows (l acc : list string) :
  ∃ r, foldl set_add acc l = acc ++ r ∧ ∀ x, x ∈ r → x ∉ acc.
Proof.
  revert acc. induction l as [|y l IH]; intros acc; simpl.
  - exists []. rewrite app_nil_r. split; [done|]. by intros x ?%elem_of_nil.
  - destruct (IH (set_add acc y)) as (r & Hr & Hfresh).
    unfold set_add in *. destruct (set_has acc y) eqn:E.
    + exists r. split; [done | exact Hfresh].
    + exists (y :: r). rewrite Hr, <- app_assoc. split; [done|].
      intros x [->|Hx]%elem_of_cons.
      * intros Hy%set_has_spec. congruence.
      * specialize (Hfresh x Hx). intros Hacc. apply Hfresh.
        apply elem_of_app. by left.
Qed.

Lemma new_Set_elem (l : list string) (x : string) : x ∈ new_Set l ↔ x ∈ l.
Proof.
unfold new_Set. rewrite foldl_set_add_elem.
split; [intros [?%elem_of_nil|?]; done | auto].
Qed.

Lemma new_Set_NoDup (l : list string) : NoDup (new_Set l).
Proof. apply foldl_set_add_NoDup, NoDup_nil_2. Qed.

Lemma new_Set_first_seen (p q : list string) :
  ∃ r, new_Set (p ++ q) = new_Set p ++ r ∧ ∀ x, x ∈ r → x ∉ p.
Proof.
  unfold new_Set. rewrite foldl_app.
  destruct (foldl_set_add_grows q (foldl set_add [] p)) as (r & Hr & Hfresh).
  exists r. split; [done|].
  intros x Hx Hp. apply (Hfresh x Hx). apply new_Set_elem, Hp.
Qed.


Lemma occurrences_NoDup (u : string) (l : list string) :
  NoDup l → occurrences u l = if decide (u ∈ l) then 1 else 0.
Proof.
  unfold occurrences. induction 1 as [|x l Hx Hl IH].
  - rewrite decide_False by apply not_elem_of_nil. done.
  - rewrite filter_cons. destruct (decide (x = u)) as [->|Hne]; simpl.
    + rewrite IH. rewrite decide_False by done.
      rewrite decide_True by left. done.
    + rewrite IH. destruct (decide (u ∈ l)) as [Hin|Hin].
      * rewrite decide_True by (by right). done.
      * rewrite decide_False; [done|]. intros [->|?]%elem_of_cons; done.
Qed.

Lemma occurrences_app (u : string) (l k : list string) :
  occurrences u (l ++ k) = occurrences u l + occurrences u k.
Proof. unfold occurrences. by rewrite filter_app, length_app. Qed.

Lemma occurrences_pos (u : string) (l : list string) :
  0 < occurrences u l ↔ u ∈ l.
Proof.
  unfold occurrences. induction l as [|x l IH].
  - simpl. split; [lia | by intros ?%elem_of_nil].
  - rewrite filter_cons. destruct (decide (x = u)) as [->|Hne]; simpl.
    + split; [intros; left | lia].
    + rewrite IH. split; [by right|].
      intros [->|?]%elem_of_cons; done.
Qed.

End InsertionOrder.

(** ** Discovery and the queue *)

Section Discovery.
Variable d : document.

Lemma image_sources_elem (u : string) :
  u ∈ image_sources d ↔ u ≠ "" ∧ ∃ el, el ∈ doc_images d ∧ img_src el = u.
Proof.
  unfold image_sources. rewrite list_elem_of_filter, truthy_spec, list_elem_of_fmap.
  split; intros [Hu (el & H1 & H2)]; (split; [done|]); exists el; done.
Qed.

Lemma link_targets_elem (u : string) :
  u ∈ link_targets d ↔
  ∃ a v, a ∈ doc_anchors d ∧ a_attr a = Some v ∧ has_extension v
         ∧ a_href a = u ∧ has_extension u.
Proof.
  unfold link_targets. rewrite list_elem_of_fmap. split.
  - intros (a & -> & Ha). apply list_elem_of_filter in Ha as [Hh Ha].
    apply list_elem_of_filter in Ha as [Hsel Ha].
    apply andb_true_iff in Hh as [_ Hh]. apply href_has_extension_spec in Hh.
    unfold selector_matches in Hsel. destruct (a_attr a) as [v|] eqn:Ev; [|done].
    apply existsb_extensions in Hsel. exists a, v. done.
  - intros (a & v & Ha & Hv & Hext & <- & Hu). exists a. split; [done|].
    apply list_elem_of_filter. split.
    + apply andb_true_iff. split.
      * apply truthy_spec. destruct Hu as (e & He & Hocc).
        eapply occurs_in_nonempty; eauto.
      * by apply href_has_extension_spec.
    + apply list_elem_of_filter. split; [|done].
      unfold selector_matches. rewrite Hv. by apply existsb_extensions.
Qed.

Lemma visible_elem (u : string) :
  u ∈ getVisibleImageUrls d ↔
  u ≠ "" ∧ ∃ el, el ∈ doc_images d ∧ img_src el = u
                 ∧ isElementInViewport d el = true.
Proof.
  unfold getVisibleImageUrls. rewrite list_elem_of_fmap. split.
  - intros (el & -> & Hel). apply list_elem_of_filter in Hel as [H Hel].
    apply andb_true_iff in H as [Ht Hv]. apply truthy_spec in Ht. eauto.
  - intros (Hu & el & Hel & <- & Hv). exists el. split; [done|].
    apply list_elem_of_filter. split; [|done].
    apply andb_true_iff. split; [by apply truthy_spec | done].
Qed.

Lemma visible_discovered (u : string) :
  u ∈ getVisibleImageUrls d → u ∈ getAllImageUrls d.
Proof.
  intros (Hu & el & Hel & Hsrc & _)%visible_elem.
  apply new_Set_elem, elem_of_app. left. apply image_sources_elem. eauto.
Qed.


Lemma offscreen_elem (u : string) :
  u ∈ offScreenImages d ↔ u ∈ getAllImageUrls d ∧ u ∉ getVisibleImageUrls d.
Proof.
  unfold offScreenImages. rewrite list_elem_of_filter, negb_true_iff.
  unfold array_includes. rewrite bool_decide_eq_false. tauto.
Qed.

Lemma offscreen_NoDup : NoDup (offScreenImages d).
Proof. apply NoDup_filter, new_Set_NoDup. Qed.

End Discovery.

Lemma occurrences_fmap {A} (f : A → string) (u : string) (l : list A) :
  occurrences u (f <$> l) = length (filter (λ x, f x = u) l).
Proof.
  unfold occurrences. induction l as [|x l IH]; [done|].
  rewrite fmap_cons, !filter_cons. destruct (decide (f x = u)); simpl; lia.
Qed.

(** C8.  [getAllImageUrls] returns, without duplicates and in the order
    of first occurrence, the non-empty [src] of every image element
    followed by the [href] of every link whose [href] attribute, as
    written, contains one of [.jpg], [.jpeg], [.png], [.webp] and whose
    resolved [href] also contains one of them (anywhere in the string,
    case-sensitively).  It is a function of the page alone. *)
Theorem getAllImageUrls_discovers (d : document) :
  NoDup (getAllImageUrls d)
  ∧ (∀ u, u ∈ getAllImageUrls d ↔
       (u ≠ "" ∧ ∃ el, el ∈ doc_images d ∧ img_src el = u)
       ∨ (∃ a v, a ∈ doc_anchors d ∧ a_attr a = Some v ∧ has_extension v
                 ∧ a_href a = u ∧ has_extension u))
  ∧ (∀ p q, image_sources d ++ link_targets d = p ++ q →
       ∃ r, getAllImageUrls d = new_Set p ++ r ∧ ∀ x, x ∈ r → x ∉ p)
  ∧ image_sources d `sublist_of` (img_src <$> doc_images d)
  ∧ link_targets d `sublist_of` (a_href <$> doc_anchors d).
Proof.
  split_and!.
  - apply new_Set_NoDup.
  - intros u. unfold getAllImageUrls.
    rewrite new_Set_elem, elem_of_app, image_sources_elem, link_targets_elem.
    reflexivity.
  - intros p q Hpq. unfold getAllImageUrls. rewrite Hpq.
    apply new_Set_first_seen.
  - apply sublist_filter.
  - unfold link_targets. apply fmap_sublist.
    etrans; apply sublist_filter.
Qed.

(** A link [<a href="#top">] on the page [view?img=a.jpg]: its URL
    contains [.jpg], its attribute does not, and it is not discovered. *)
Lemma fragment_link_missed :
  let a := {| a_attr := Some "#top";
              a_href := "https://example.org/view?img=a.jpg#top" |} in
  a ∈ doc_anchors fragment_link_page
  ∧ includes (a_href a) ".jpg" = true
  ∧ a_href a ∉ getAllImageUrls fragment_link_page.
Proof.
  split_and!.
  - left.
  - vm_compute. reflexivity.
  - vm_compute. apply not_elem_of_nil.
Qed.




(** Reduce the field projections of an updated preloader, nothing else. *)
Ltac fields :=
  cbn [now hasIdle idb trace db preloadedUrls preloadingQueue isPreloading
       loads awaiting callbacks emit set_now set_idb set_trace set_db
       set_preloadedUrls set_preloadingQueue set_isPreloading set_loads
       set_awaiting set_callbacks update_load set_phase fst snd] in *.

(** ** Promises and the batch barrier *)

Section Barrier.

Lemma promise_all_fulfilled (w : preloader) (ps : list promise) :
  promise_all w ps = AllFulfilled →
  ∀ p, p ∈ ps → is_pending (promise_state_of w p) = false.
Proof.
  unfold promise_all. intros H p Hp.
  destruct (existsb _ ps) eqn:E1; [done|].
  destruct (existsb (λ p, is_pending _) ps) eqn:E2; [done|].
  destruct (is_pending (promise_state_of w p)) eqn:E; [|done].
  assert (existsb (λ p, is_pending (promise_state_of w p)) ps = true); [|congruence].
  apply existsb_exists. exists p. split; [by apply list_elem_of_In | done].
Qed.

Lemma promise_all_rejected (w : preloader) (ps : list promise) :
  promise_all w ps = AllRejected →
  ∃ u l, loads w !! u = Some l ∧ outcome l = Rejected.
Proof.
  unfold promise_all. intros H.
  destruct (existsb _ ps) eqn:E1.
  - apply existsb_exists in E1 as (p & _ & Hp).
    destruct p as [|u]; simpl in Hp; [done|].
    destruct (loads w !! u) as [l|] eqn:El; [|done].
    exists u, l. split; [done|]. by destruct (outcome l).
  - destruct (existsb (λ p, is_pending _) ps); discriminate.
Qed.

Lemma promise_all_pending (w : preloader) (ps : list promise) :
  promise_all w ps = AllPending →
  ∃ u, LoadPromise u ∈ ps
       ∧ is_pending (promise_state_of w (LoadPromise u)) = true.
Proof.
  unfold promise_all. intros H.
  destruct (existsb _ ps) eqn:E1; [done|].
  destruct (existsb (λ p, is_pending _) ps) eqn:E2; [|done].
  apply existsb_exists in E2 as (p & Hin & Hp).
  destruct p as [|u]; [done|].
  exists u. split; [by apply list_elem_of_In | done].
Qed.

Lemma finishBatch_fields (w : preloader) :
  let w' := finishBatch w in
  now w' = now w ∧ hasIdle w' = hasIdle w ∧ idb w' = idb w
  ∧ trace w' = trace w ∧ db w' = db w
  ∧ preloadedUrls w' = preloadedUrls w
  ∧ preloadingQueue w' = preloadingQueue w
  ∧ isPreloading w' = false ∧ loads w' = loads w
  ∧ awaiting w' = awaiting w.
Proof.
  destruct w as [? idle ? ? ? ? q ? ? ? ?]. unfold finishBatch. cbn.
  destruct q, idle; cbn; repeat split.
Qed.

Lemma resumeBatch_orderly (w : preloader) :
  orderly w → orderly (resumeBatch w) ∧ waiting (resumeBatch w).
Proof.
  intros Hw. unfold resumeBatch.
  destruct (awaiting w) as [ps|] eqn:Ea.
  2:{ split; [done|]. intros ps. rewrite Ea. done. }
  destruct (promise_all w ps) eqn:Eall.
  - split; [done|]. intros ps'. rewrite Ea. by intros [= <-].
  - pose proof (finishBatch_fields (set_awaiting None w)) as F.
    simpl in F. destruct F as (_ & _ & _ & Ft & _ & Fp & _ & Fi & Fl & Fa).
    split.
    + destruct Hw. constructor.
      * by rewrite Fp.
      * intros u. by rewrite Fp, Fl.
      * intros u l. rewrite Fl. eauto.
      * intros u l. rewrite Fl. intros Hl Hpend. exfalso.
        destruct (o_pending0 u l Hl Hpend) as (ps' & Hps' & Hin).
        rewrite Ea in Hps'. injection Hps' as <-.
        pose proof (promise_all_fulfilled w ps Eall _ Hin) as Hn.
        simpl in Hn. rewrite Hl, Hpend in Hn. done.
      * intros ps'. by rewrite Fa.
      * done.
      * by rewrite Ft.
    + intros ps'. by rewrite Fa.
  - exfalso. apply promise_all_rejected in Eall as (u & l & Hl & Hrej).
    pose proof (o_loads w Hw u l Hl) as Hs. unfold settled_in_time in Hs.
    by rewrite Hrej in Hs.
Qed.

Lemma resumeBatch_fields (w : preloader) :
  let w' := resumeBatch w in
  now w' = now w ∧ hasIdle w' = hasIdle w ∧ idb w' = idb w
  ∧ db w' = db w ∧ preloadedUrls w' = preloadedUrls w
  ∧ preloadingQueue w' = preloadingQueue w ∧ loads w' = loads w
  ∧ (trace w' = trace w ∨ trace w' = trace w ++ [ConsoleLog BatchPreloadError]).
Proof.
  unfold resumeBatch. destruct (awaiting w) as [ps|]; [|simpl; tauto].
  destruct (promise_all w ps); [simpl; tauto | |].
  - pose proof (finishBatch_fields (set_awaiting None w)) as F.
    simpl in F. simpl. intuition.
  - pose proof (finishBatch_fields
      (emit (ConsoleLog BatchPreloadError) (set_awaiting None w))) as F.
    simpl in F. simpl. intuition.
Qed.

Lemma resolve_fields (u : url) (w : preloader) :
  let w' := resolve u w in
  now w' = now w ∧ hasIdle w' = hasIdle w ∧ idb w' = idb w
  ∧ db w' = db w ∧ preloadedUrls w' = preloadedUrls w
  ∧ preloadingQueue w' = preloadingQueue w
  ∧ loads w' = alter (settle (now w)) u (loads w)
  ∧ (trace w' = trace w ∨ trace w' = trace w ++ [ConsoleLog BatchPreloadError]).
Proof.
  unfold resolve. destruct (loads w !! u) as [l|] eqn:El.
  - destruct (outcome l) eqn:Eo.
    + pose proof (resumeBatch_fields
        (update_load u (set_outcome (Fulfilled (now w))) w)) as F.
      simpl in F. simpl. destruct F as (? & ? & ? & ? & ? & ? & Fl & ?).
      split_and!; try done. rewrite Fl. apply alter_ext.
      intros l' Hl'. unfold settle. rewrite El in Hl'. injection Hl' as <-.
      by rewrite Eo.
    + simpl. split_and!; try done; [|by left].
      symmetry. apply alter_id. intros l' Hl'. rewrite El in Hl'.
      injection Hl' as <-. unfold settle. by rewrite Eo.
    + simpl. split_and!; try done; [|by left].
      symmetry. apply alter_id. intros l' Hl'. rewrite El in Hl'.
      injection Hl' as <-. unfold settle. by rewrite Eo.
  - simpl. split_and!; try done; [|by left].
    symmetry. apply alter_id. intros l' Hl'. congruence.
Qed.

Lemma evolves_refl (l : load) : evolves l l.
Proof. split; [done|]. left. auto. Qed.

Lemma loads_evolve_refl (m : gmap string load) : loads_evolve m m.
Proof.
  intros u. destruct (m !! u); constructor. apply evolves_refl.
Qed.

Lemma loads_evolve_alter (f : load → load) (u : url) (m : gmap string load) :
  (∀ l, m !! u = Some l → evolves l (f l)) →
  loads_evolve m (alter f u m).
Proof.
  intros Hf u'. rewrite lookup_alter. case_decide as E.
  - subst u'. destruct (m !! u) as [l|] eqn:El; constructor. by apply Hf.
  - destruct (m !! u'); constructor. apply evolves_refl.
Qed.

Lemma evolves_trans (l1 l2 l3 : load) :
  evolves l1 l2 → evolves l2 l3 → evolves l1 l3.
Proof.
  unfold evolves.
  intros [S1 [[O1 T1] | (P1 & t1 & F1 & B1)]] [S2 [[O2 T2] | (P2 & t2 & F2 & B2)]].
  - split; [congruence|]. left. split; [congruence|].
    destruct T1 as [T1|T1], T2 as [T2|T2]; [left|right..]; congruence.
  - split; [congruence|]. right. split; [congruence|].
    exists t2. rewrite <- S1. done.
  - split; [congruence|]. right. split; [done|].
    exists t1. split; [congruence | done].
  - congruence.
Qed.

Lemma loads_evolve_trans (m1 m2 m3 : gmap string load) :
  loads_evolve m1 m2 → loads_evolve m2 m3 → loads_evolve m1 m3.
Proof.
  intros H1 H2 u. specialize (H1 u). specialize (H2 u).
  destruct H1 as [l1 l2 H1|]; inversion H2; subst; constructor.
  eapply evolves_trans; eauto.
Qed.

(** Everything [orderly] says of the loads survives their evolution. *)
Lemma orderly_evolve (w w' : preloader) :
  orderly w →
  preloadedUrls w' = preloadedUrls w →
  awaiting w' = awaiting w →
  isPreloading w' = isPreloading w →
  ConsoleLog BatchPreloadError ∉ trace w' →
  loads_evolve (loads w) (loads w') →
  orderly w'.
Proof.
  intros [] Hp Ha Hi Ht Hl. constructor.
  - by rewrite Hp.
  - intros u. rewrite Hp, o_dom0. specialize (Hl u).
    destruct Hl; split; intros [? ?]; eauto; done.
  - intros u l' Hl'. specialize (Hl u). rewrite Hl' in Hl.
    inversion Hl as [l ? Hev E1 E2|]; subst. symmetry in E1.
    specialize (o_loads0 u l E1). unfold settled_in_time in *.
    destruct Hev as [S [[O T] | (P & t & F & B)]].
    + rewrite O, S. destruct (outcome l) eqn:Eo; try done.
      destruct T as [T|T]; congruence.
    + rewrite F, S. done.
  - intros u l' Hl' Hpend. specialize (Hl u). rewrite Hl' in Hl.
    inversion Hl as [l ? Hev E1 E2|]; subst. symmetry in E1.
    rewrite Ha. apply (o_pending0 u l E1).
    destruct Hev as [S [[O T] | (P & t & F & B)]]; congruence.
  - intros ps. rewrite Ha, Hi. intros Hps.
    destruct (o_awaiting0 ps Hps) as (? & ? & Hin). split_and!; try done.
    intros u Hu. specialize (Hin u Hu). specialize (Hl u).
    destruct Hin as [l El]. rewrite El in Hl. inversion Hl. eauto.
  - by rewrite Ha, Hi.
  - done.
Qed.

Lemma timely_evolve (w w' : preloader) :
  timely w → now w' = now w →
  (∀ u l', loads w' !! u = Some l' →
     ∃ l, loads w !! u = Some l ∧ started l' = started l
          ∧ (timer_fired l' = false → timer_fired l = false)) →
  timely w'.
Proof.
  intros Hw Hn Hl u l' Hl'. destruct (Hl u l' Hl') as (l & El & S & T).
  rewrite Hn, S. destruct (Hw u l El) as [H1 H2]. split; [done|].
  intros Hf. apply H2, T, Hf.
Qed.

Lemma existsb_pointwise {A} (f g : A → bool) (l : list A) :
  (∀ x, f x = g x) → existsb f l = existsb g l.
Proof. intros H. induction l as [|x l IH]; simpl; congruence. Qed.

Lemma promise_all_ext (w w' : preloader) (ps : list promise) :
  (∀ u, outcome <$> loads w' !! u = outcome <$> loads w !! u) →
  promise_all w' ps = promise_all w ps.
Proof.
  intros H. unfold promise_all.
  assert (E : ∀ p, is_rejected (promise_state_of w' p)
                    = is_rejected (promise_state_of w p)
                 ∧ is_pending (promise_state_of w' p)
                    = is_pending (promise_state_of w p)).
  { intros [|u]; simpl; [done|]. specialize (H u).
    destruct (loads w' !! u), (loads w !! u); simpl in H; try done.
    by injection H as ->. }
  rewrite (existsb_pointwise (λ p, is_rejected (promise_state_of w' p))
             (λ p, is_rejected (promise_state_of w p)))
    by (intros p; apply E).
  rewrite (existsb_pointwise (λ p, is_pending (promise_state_of w' p))
             (λ p, is_pending (promise_state_of w p)))
    by (intros p; apply E).
  done.
Qed.

Lemma waiting_ext (w w' : preloader) :
  waiting w → awaiting w' = awaiting w →
  (∀ u, outcome <$> loads w' !! u = outcome <$> loads w !! u) →
  waiting w'.
Proof.
  intros Hw Ha Ho ps. rewrite Ha. intros Hps.
  rewrite (promise_all_ext w w') by done. by apply Hw.
Qed.

(** [resolve()] called on a state [w0] that differs from an orderly
    state [w] in what does not concern promises, except that the timer
    of [u] may just have run. *)
Lemma resolve_orderly (w w0 : preloader) (u : url) :
  orderly w → waiting w →
  preloadedUrls w0 = preloadedUrls w →
  awaiting w0 = awaiting w →
  isPreloading w0 = isPreloading w →
  ConsoleLog BatchPreloadError ∉ trace w0 →
  (∀ v, option_Forall2
          (λ l l0, started l0 = started l ∧ outcome l0 = outcome l
                   ∧ (timer_fired l0 = timer_fired l ∨ v = u))
          (loads w !! v) (loads w0 !! v)) →
  (∀ l0, loads w0 !! u = Some l0 → outcome l0 = Pending →
     (started l0 ≤ now w0 ∧ now w0 ≤ started l0 + timeout_ms)%N) →
  orderly (resolve u w0) ∧ waiting (resolve u w0).
Proof.
  intros Hw Hwait Hp Ha Hi Ht Hl Hnow.
  assert (Hout : ∀ v, outcome <$> loads w0 !! v = outcome <$> loads w !! v).
  { intros v. destruct (Hl v) as [l l' (S & O & T)|]; simpl; congruence. }
  assert (Hsame : (∀ l0, loads w0 !! u = Some l0 → outcome l0 ≠ Pending) →
            orderly w0 ∧ waiting w0).
  { intros Ho. split; [|by apply (waiting_ext w)].
    apply (orderly_evolve w); try done. intros v.
    pose proof (Hl v) as Hv.
    inversion Hv as [l l' (S & O & T) E1 E2 | E1 E2];
      rewrite <- ?E1, <- ?E2; constructor.
    split; [done|]. left. split; [done|].
    destruct T as [T| ->]; [by left|]. right.
    rewrite <- O. by apply Ho. }
  unfold resolve. destruct (loads w0 !! u) as [l0|] eqn:El0.
  - destruct (outcome l0) eqn:Eo.
    + apply resumeBatch_orderly.
      apply (orderly_evolve w); try done. simpl. intros v.
      rewrite lookup_alter. case_decide as E.
      * subst v. pose proof (Hl u) as Hv. rewrite El0 in Hv.
        inversion Hv as [l ? (S & O & T) E1 E2|]; subst.
        rewrite El0. simpl. constructor.
        split; [done|]. right. split; [congruence|].
        exists (now w0). split; [done|]. rewrite <- S. by apply Hnow.
      * pose proof (Hl v) as Hv.
        inversion Hv as [l l' (S & O & T) E1 E2 | E1 E2];
          rewrite <- ?E1, <- ?E2; constructor.
        split; [done|]. left. split; [done|].
        destruct T as [T| ->]; [by left | done].
    + apply Hsame. intros ? [= <-]. congruence.
    + apply Hsame. intros ? [= <-]. congruence.
  - apply Hsame. intros ? [=].
Qed.

End Barrier.

(** ** The handlers keep the preloader orderly *)

Section Handlers.

Lemma cosmetic_refl (w : preloader) : cosmetic w w.
Proof.
  constructor; try done. intros v. destruct (loads w !! v); constructor; done.
Qed.

Lemma cosmetic_emit (w w1 : preloader) (e : effect) :
  cosmetic w w1 → e ≠ ConsoleLog BatchPreloadError → cosmetic w (emit e w1).
Proof.
  intros [] He. constructor; try done. simpl.
  intros [H | H%list_elem_of_singleton]%elem_of_app; [auto | congruence].
Qed.

Lemma cosmetic_idb (w w1 : preloader) (x : gmap string (list Byte.byte)) :
  cosmetic w w1 → cosmetic w (set_idb x w1).
Proof. intros []. constructor; done. Qed.

Lemma cosmetic_callbacks (w w1 : preloader) (x : list callback) :
  cosmetic w w1 → cosmetic w (set_callbacks x w1).
Proof. intros []. constructor; done. Qed.

Lemma cosmetic_db (w w1 : preloader) (x : bool) :
  cosmetic w w1 → cosmetic w (set_db x w1).
Proof. intros []. constructor; done. Qed.

Lemma cosmetic_queue (w w1 : preloader) (x : list string) :
  cosmetic w w1 → cosmetic w (set_preloadingQueue x w1).
Proof. intros []. constructor; done. Qed.

Lemma cosmetic_update (w w1 : preloader) (u : url) (f : load → load) :
  cosmetic w w1 →
  (∀ l, started (f l) = started l ∧ outcome (f l) = outcome l
        ∧ timer_fired (f l) = timer_fired l) →
  cosmetic w (update_load u f w1).
Proof.
  intros [] Hf. constructor; try done. simpl. intros v.
  rewrite lookup_alter. case_decide as E; [|done]. subst v.
  specialize (cos_loads0 u).
  inversion cos_loads0 as [l l1 (S & O & T) E1 E2 | E1 E2]; simpl; constructor.
  destruct (Hf l1) as (-> & -> & ->). done.
Qed.

Lemma cosmetic_orderly (w w1 : preloader) :
  orderly w → waiting w → timely w → cosmetic w w1 →
  orderly w1 ∧ waiting w1 ∧ timely w1.
Proof.
  intros Hw Hwait Ht []. split_and!.
  - apply (orderly_evolve w); try done.
    + intros H. by apply (o_no_batch_error w Hw), cos_trace0.
    + intros v. destruct (cos_loads0 v) as [l l1 (S & O & T)|]; constructor.
      split; [done|]. left. auto.
  - apply (waiting_ext w); try done. intros v.
    destruct (cos_loads0 v) as [l l1 (S & O & T)|]; simpl; congruence.
  - apply (timely_evolve w); try done. intros v l1 Hl1.
    pose proof (cos_loads0 v) as Hv. rewrite Hl1 in Hv.
    inversion Hv as [l ? (S & O & T) E1 E2|]; subst.
    exists l. split_and!; [done | done | congruence].
Qed.

Lemma then_resolve_orderly (w w1 : preloader) (u : url) (st : stretch) :
  orderly w → waiting w → timely w → cosmetic w w1 →
  let w' := then_resolve u (st, w1) in
  orderly w' ∧ waiting w' ∧ timely w'.
Proof.
  intros Hw Hwait Ht Hc.
  assert (Hphase : ∀ p, cosmetic w (set_phase u p w1)).
  { intros p. apply cosmetic_update; [done|]. intros l. done. }
  destruct st as [p| |f]; simpl;
    [by apply (cosmetic_orderly w) | | by apply (cosmetic_orderly w)].
  pose proof (Hphase CacheDone) as [].
  assert (Hres : orderly (resolve u (set_phase u CacheDone w1))
                 ∧ waiting (resolve u (set_phase u CacheDone w1))).
  { apply (resolve_orderly w); try done.
    - intros H. by apply (o_no_batch_error w Hw), cos_trace0.
    - intros v. destruct (cos_loads0 v) as [l l1 (S & O & T)|]; constructor.
      auto.
    - intros l0 Hl0 Hpend. pose proof (cos_loads0 u) as Hv.
      rewrite Hl0 in Hv. inversion Hv as [l ? (S & O & T) E1 E2|]; subst.
      symmetry in E1. destruct (Ht u l E1) as [H1 H2].
      pose proof (o_loads w Hw u l E1) as Hs. unfold settled_in_time in Hs.
      rewrite <- O, Hpend in Hs. rewrite cos_now0, S.
      specialize (H2 Hs). lia. }
  destruct Hres as [H1 H2]. split_and!; [done | done |].
  pose proof (resolve_fields u (set_phase u CacheDone w1)) as F.
  cbv zeta in F. destruct F as (Fn & _ & _ & _ & _ & _ & Fl & _).
  apply (timely_evolve w); [done | by rewrite Fn | ].
  intros v l' Hl'. rewrite Fl in Hl'.
  assert (∃ l1, loads (set_phase u CacheDone w1) !! v = Some l1
                ∧ started l' = started l1
                ∧ timer_fired l' = timer_fired l1) as (l1 & Hl1 & S1 & T1).
  { rewrite lookup_alter in Hl'. case_decide as E.
    - subst v. destruct (loads (set_phase u CacheDone w1) !! u) as [l1|];
        simpl in Hl'; [|done]. injection Hl' as <-. exists l1. unfold settle.
      by destruct (outcome l1).
    - eauto. }
  pose proof (cos_loads0 v) as Hv. rewrite Hl1 in Hv.
  inversion Hv as [l ? (S & O & T) E1 E2|]; subst.
  exists l. split_and!; [done | congruence | congruence].
Qed.

Lemma cacheImage_cosmetic (w w1 : preloader) (u : url) :
  cosmetic w w1 → cosmetic w (snd (cacheImage u w1)).
Proof.
  intros Hc. unfold cacheImage. destruct (db w1); simpl; [|done].
  by apply cosmetic_emit.
Qed.

Lemma cacheImage_response_cosmetic (w w1 : preloader) (u : url)
    (r : fetch_result) :
  cosmetic w w1 → cosmetic w (snd (cacheImage_response u r w1)).
Proof.
  intros Hc. unfold cacheImage_response, try_response.
  destruct r as [msg|status]; simpl; [by apply cosmetic_emit|].
  destruct (response_ok status); simpl; [done | by apply cosmetic_emit].
Qed.

Lemma cacheImage_body_cosmetic (w w1 : preloader) (u : url)
    (r : body_result) (s : store_answer) :
  cosmetic w w1 → cosmetic w (snd (cacheImage_body u r s w1)).
Proof.
  intros Hc. unfold cacheImage_body, try_body, try_put.
  destruct r as [msg|b]; [|destruct s as [m|m| |]]; simpl;
    repeat (apply cosmetic_emit; try done).
  by apply cosmetic_idb.
Qed.

Lemma then_resolve_sound (w : preloader) (u : url) (r : stretch * preloader) :
  sound w → cosmetic w (snd r) → sound (then_resolve u r).
Proof.
  intros (H1 & H2 & H3) Hc. destruct r as [st w1].
  by apply (then_resolve_orderly w).
Qed.

Lemma image_event_sound (w : preloader) (u : url) :
  sound w → sound (image_event onload u w) ∧ sound (image_event onerror u w).
Proof.
  intros Hw. unfold image_event, onload, onerror.
  destruct (loads w !! u) as [l|]; [|done].
  destruct (img_fired l); [done|].
  assert (sound (then_resolve u (cacheImage u (update_load u set_img_fired w))));
    [|done].
  apply (then_resolve_sound w); [done|]. apply cacheImage_cosmetic.
  apply cosmetic_update; [apply cosmetic_refl | done].
Qed.

Lemma fetch_settled_sound (w : preloader) (u : url) (r : fetch_result) :
  sound w → sound (step (FetchSettled u r) w).
Proof.
  intros Hw. simpl. destruct (phase_of w u); try done.
  apply (then_resolve_sound w); [done|].
  apply cacheImage_response_cosmetic, cosmetic_refl.
Qed.

Lemma body_settled_sound (w : preloader) (u : url) (r : body_result)
    (s : store_answer) :
  sound w → sound (step (BodySettled u r s) w).
Proof.
  intros Hw. simpl. destruct (phase_of w u); try done.
  apply (then_resolve_sound w); [done|].
  apply cacheImage_body_cosmetic, cosmetic_refl.
Qed.

Lemma fire_timer_orderly (w : preloader) (u : url) :
  orderly w → waiting w →
  orderly (fire_timer u w) ∧ waiting (fire_timer u w).
Proof.
  intros Hw Hwait. unfold fire_timer.
  destruct (loads w !! u) as [l|] eqn:El; [|done].
  destruct (timer_fired l) eqn:Et; [done|].
  apply (resolve_orderly w); try done.
  - apply (o_no_batch_error w Hw).
  - intros v. simpl. rewrite lookup_alter. case_decide as E.
    + subst v. rewrite El. simpl. constructor. auto.
    + destruct (loads w !! v); constructor. auto.
  - intros l0 Hl0 _. cbn [loads update_load set_loads set_now] in Hl0.
    rewrite lookup_alter_eq, El in Hl0. injection Hl0 as <-. simpl. lia.
Qed.

Lemma fire_timer_loads (w : preloader) (u : url) :
  preloadedUrls (fire_timer u w) = preloadedUrls w
  ∧ ∀ v, option_Forall2
      (λ l l', started l' = started l
               ∧ (timer_fired l' = false → timer_fired l = false ∧ v ≠ u))
      (loads w !! v) (loads (fire_timer u w) !! v).
Proof.
  unfold fire_timer. destruct (loads w !! u) as [l|] eqn:El.
  2:{ split; [done|]. intros v. destruct (loads w !! v) eqn:Ev; constructor.
      split; [done|]. intros. split; [done|]. congruence. }
  destruct (timer_fired l) eqn:Et.
  { split; [done|]. intros v. destruct (loads w !! v) as [l1|] eqn:Ev; constructor.
    split; [done|]. intros. split; [done|]. intros ->. congruence. }
  pose proof (resolve_fields u
    (update_load u set_timer_fired (set_now (started l + timeout_ms)%N w))) as F.
  cbv zeta in F. destruct F as (_ & _ & _ & _ & Fp & _ & Fl & _).
  split; [done|]. intros v. rewrite Fl. simpl.
  rewrite lookup_alter. case_decide as E.
  - subst v. rewrite lookup_alter_eq, El. simpl. constructor.
    unfold settle. destruct (outcome (set_timer_fired l)); simpl; done.
  - rewrite lookup_alter_ne by done. destruct (loads w !! v); constructor. done.
Qed.

Lemma advance_fold (target : N) (us : list string) (w : preloader) :
  orderly w → waiting w →
  let wf := foldl (λ w' u, if timer_due target u w' then fire_timer u w' else w')
              w us in
  orderly wf ∧ waiting wf ∧ preloadedUrls wf = preloadedUrls w
  ∧ ∀ v, option_Forall2
      (λ l l', started l' = started l
               ∧ (timer_fired l' = false →
                  timer_fired l = false
                  ∧ (v ∈ us → (target < started l + timeout_ms)%N)))
      (loads w !! v) (loads wf !! v).
Proof.
  revert w. induction us as [|u us IH]; intros w Hw Hwait; simpl.
  - split_and!; try done. intros v. destruct (loads w !! v); constructor.
    split; [done|]. intros. split; [done|]. by intros ?%elem_of_nil.
  - set (w1 := if timer_due target u w then fire_timer u w else w).
    assert (H1 : orderly w1 ∧ waiting w1).
    { unfold w1. destruct (timer_due target u w); [|done].
      by apply fire_timer_orderly. }
    assert (H2 : preloadedUrls w1 = preloadedUrls w
      ∧ ∀ v, option_Forall2
          (λ l l1, started l1 = started l
                   ∧ (timer_fired l1 = false →
                      timer_fired l = false
                      ∧ (v = u → (target < started l + timeout_ms)%N)))
          (loads w !! v) (loads w1 !! v)).
    { unfold w1. destruct (timer_due target u w) eqn:Ed.
      - destruct (fire_timer_loads w u) as [Fp Fl]. split; [done|].
        intros v. destruct (Fl v) as [l l' (S & T)|]; constructor.
        split; [done|]. intros Hf. destruct (T Hf). done.
      - split; [done|]. intros v.
        destruct (loads w !! v) as [l|] eqn:Ev; constructor.
        split; [done|]. intros Hf. split; [done|]. intros ->.
        unfold timer_due in Ed. rewrite Ev, Hf in Ed. simpl in Ed.
        apply N.leb_gt in Ed. done. }
    destruct H1 as [Ho1 Hw1]. destruct H2 as [Hp1 Hl1].
    destruct (IH w1 Ho1 Hw1) as (Hof & Hwf & Hpf & Hlf).
    split_and!; [done | done | congruence |].
    intros v. specialize (Hl1 v). specialize (Hlf v).
    destruct Hl1 as [l l1 (S1 & T1)|]; inversion Hlf as [? l' (S2 & T2)|];
      subst; constructor.
    split; [congruence|]. intros Hf. destruct (T2 Hf) as [Hf1 Hin].
    destruct (T1 Hf1) as [Hf0 Hu]. split; [done|].
    intros [->|Hv]%elem_of_cons; [by apply Hu|].
    rewrite <- S1. by apply Hin.
Qed.

Lemma advance_sound (w : preloader) (ms : N) :
  sound w → sound (advance ms w).
Proof.
  intros (Hw & Hwait & Ht). unfold advance.
  destruct (advance_fold (now w + ms)%N (preloadedUrls w) w Hw Hwait)
    as (Hof & Hwf & Hpf & Hlf).
  set (wf := foldl _ w (preloadedUrls w)) in *.
  split_and!.
  - apply (orderly_evolve wf); try done.
    + apply (o_no_batch_error wf Hof).
    + apply loads_evolve_refl.
  - by apply (waiting_ext wf).
  - intros v l' Hl'. simpl in Hl'. simpl.
    specialize (Hlf v). rewrite Hl' in Hlf.
    inversion Hlf as [l ? (S & T) E1 E2|]; subst. symmetry in E1.
    destruct (Ht v l E1) as [T1 T2]. rewrite S. split; [lia|].
    intros Hf. destruct (T Hf) as [_ Hin]. apply Hin.
    apply (o_dom w Hw). eauto.
Qed.

End Handlers.

(** ** Dispatching a batch *)

Section Dispatch.

Lemma preloadImage_seen (u : url) (w : preloader) :
  u ∈ preloadedUrls w → preloadImage u w = (AlreadyResolved, w).
Proof.
  intros H. unfold preloadImage.
  by rewrite (proj2 (set_has_spec _ _) H).
Qed.

Lemma preloadImage_fresh (u : url) (w : preloader) :
  u ∉ preloadedUrls w →
  preloadImage u w
  = (LoadPromise u,
     emit (ImageRequest u)
       (set_loads (<[u := new_load (now w)]> (loads w))
          (set_preloadedUrls (preloadedUrls w ++ [u]) w))).
Proof.
  intros H. unfold preloadImage, set_add.
  destruct (set_has (preloadedUrls w) u) eqn:E; [|done].
  by apply set_has_spec in E.
Qed.

Lemma map_preloadImage_frame (batch : list string) (w : preloader) :
  let w' := snd (map_preloadImage batch w) in
  length (fst (map_preloadImage batch w)) = length batch
  ∧ now w' = now w ∧ hasIdle w' = hasIdle w ∧ idb w' = idb w
  ∧ db w' = db w ∧ preloadingQueue w' = preloadingQueue w
  ∧ isPreloading w' = isPreloading w ∧ awaiting w' = awaiting w
  ∧ callbacks w' = callbacks w
  ∧ preloadedUrls w' = foldl set_add (preloadedUrls w) batch
  ∧ ∃ new, preloadedUrls w' = preloadedUrls w ++ new
           ∧ trace w' = trace w ++ (ImageRequest <$> new).
Proof.
  revert w. induction batch as [|u rest IH]; intros w; simpl.
  - split_and!; try done. exists []. by rewrite !app_nil_r.
  - destruct (decide (u ∈ preloadedUrls w)) as [Hu|Hu].
    + rewrite (preloadImage_seen u w Hu).
      specialize (IH w). destruct (map_preloadImage rest w) as [ps w2].
      simpl in *. unfold set_add at 2.
      rewrite (proj2 (set_has_spec _ _) Hu).
      destruct IH as (-> & IH). done.
    + rewrite (preloadImage_fresh u w Hu).
      set (w1 := emit _ _).
      specialize (IH w1). destruct (map_preloadImage rest w1) as [ps w2].
      simpl in *. unfold set_add at 2.
      destruct (set_has (preloadedUrls w) u) eqn:E;
        [by apply set_has_spec in E|].
      destruct IH as (-> & ? & ? & ? & ? & ? & ? & ? & ? & ? & new & E1 & E2).
      split_and!; try done. exists (u :: new).
      rewrite E1, E2. simpl. by rewrite <- !app_assoc.
Qed.

Lemma map_preloadImage_loads (batch : list string) (w : preloader) :
  (∀ v, v ∈ preloadedUrls w ↔ is_Some (loads w !! v)) →
  let ps := fst (map_preloadImage batch w) in
  let w' := snd (map_preloadImage batch w) in
  (∀ v, loads w' !! v
        = match loads w !! v with
          | Some l => Some l
          | None => if decide (v ∈ batch) then Some (new_load (now w)) else None
          end)
  ∧ (∀ v, LoadPromise v ∈ ps ↔ v ∈ batch ∧ v ∉ preloadedUrls w).
Proof.
  revert w. induction batch as [|u rest IH]; intros w Hdom; cbn [map_preloadImage fst snd].
  - split.
    + intros v. destruct (loads w !! v); [done|].
      rewrite decide_False; [done | apply not_elem_of_nil].
    + intros v. split; [by intros ?%elem_of_nil | by intros [?%elem_of_nil _]].
  - destruct (decide (u ∈ preloadedUrls w)) as [Hu|Hu].
    + rewrite (preloadImage_seen u w Hu).
      specialize (IH w Hdom). destruct (map_preloadImage rest w) as [ps w2].
      cbn [fst snd] in *. destruct IH as [IH1 IH2]. split.
      * intros v. rewrite IH1. destruct (loads w !! v) eqn:Ev; [done|].
        destruct (decide (v = u)) as [->|Hne].
        { apply Hdom in Hu as [? ?]. congruence. }
        destruct (decide (v ∈ rest)).
        -- rewrite decide_True; [done | by right].
        -- rewrite decide_False; [done|]. by intros [?|?]%elem_of_cons.
      * intros v. rewrite elem_of_cons, IH2, elem_of_cons. split.
        -- intros [?|[? ?]]; [done | auto].
        -- intros [[->|?] ?]; [done | auto].
    + rewrite (preloadImage_fresh u w Hu).
      set (w1 := emit _ _).
      assert (Hdom1 : ∀ v, v ∈ preloadedUrls w1 ↔ is_Some (loads w1 !! v)).
      { intros v. unfold w1. fields.
        rewrite elem_of_app, list_elem_of_singleton.
        rewrite lookup_insert_is_Some, Hdom. split.
        - intros [?| ->]; [right | by left].
          split; [|done]. intros ->. apply Hu, Hdom. done.
        - intros [->|[_ ?]]; auto. }
      specialize (IH w1 Hdom1). destruct (map_preloadImage rest w1) as [ps w2].
      cbn [fst snd] in *. destruct IH as [IH1 IH2].
      assert (El1 : loads w1 = <[u := new_load (now w)]> (loads w)) by done.
      assert (Ep1 : preloadedUrls w1 = preloadedUrls w ++ [u]) by done.
      assert (En1 : now w1 = now w) by done.
      clearbody w1. split.
      * intros v. rewrite IH1, El1, En1, lookup_insert. case_decide as E.
        -- subst v. destruct (loads w !! u) eqn:Eu.
           { exfalso. apply Hu, Hdom. eauto. }
           rewrite decide_True; [done | by left].
        -- destruct (loads w !! v) eqn:Ev; [done|].
           destruct (decide (v ∈ rest)).
           ++ rewrite decide_True; [done | by right].
           ++ rewrite decide_False; [done|].
              intros [?|?]%elem_of_cons; done.
      * intros v. rewrite elem_of_cons, IH2, Ep1, elem_of_cons, elem_of_app,
          list_elem_of_singleton.
        split.
        -- intros [[= ->]|[? ?]]; [split; [by left | done] | split; [by right | tauto]].
        -- intros [[->|?] ?]; [by left|].
           destruct (decide (v = u)) as [->|]; [by left | right; tauto].
Qed.

Lemma idle_not_awaiting (w : preloader) :
  orderly w → isPreloading w = false →
  awaiting w = None
  ∧ ∀ u l, loads w !! u = Some l → outcome l ≠ Pending.
Proof.
  intros Hw Hi.
  assert (Ha : awaiting w = None).
  { destruct (awaiting w) as [ps|] eqn:Ea; [|done].
    destruct (o_awaiting w Hw ps Ea) as [? _]. congruence. }
  split; [done|]. intros u l Hl Hp.
  destruct (o_pending w Hw u l Hl Hp) as (ps & Hps & _). congruence.
Qed.

Lemma loadNextImages_sound (w : preloader) :
  sound w → sound (loadNextImages w).
Proof.
  intros (Hw & Hwait & Ht). unfold loadNextImages.
  destruct (isPreloading w) eqn:Ei; [done|]. simpl.
  destruct (length (preloadingQueue w) =? 0) eqn:Eq; [done|].
  destruct (idle_not_awaiting w Hw Ei) as [Ha Hnp].
  set (batch := take batchSize _).
  set (w2 := set_preloadingQueue _ _).
  pose proof (map_preloadImage_frame batch w2) as F.
  pose proof (map_preloadImage_loads batch w2 (o_dom w Hw)) as L.
  destruct (map_preloadImage batch w2) as [ps w3]. cbn [fst snd] in *.
  cbv zeta in F.
  destruct F as (Flen & Fnow & _ & _ & _ & _ & Fi & _ & _ & Fp & new & _ & Ft).
  destruct L as [Ll Lp]. unfold w2 in *. fields.
  assert (Ho : orderly (set_awaiting (Some ps) w3)).
  { constructor; fields.
    - rewrite Fp. apply foldl_set_add_NoDup, (o_nodup w Hw).
    - intros v. rewrite Fp, foldl_set_add_elem, Ll, (o_dom w Hw v).
      destruct (loads w !! v) eqn:Ev.
      + split; eauto.
      + destruct (decide (v ∈ batch)); split; eauto;
          try (by intros [[? ?]|?]); by intros [? ?].
    - intros v l. rewrite Ll. destruct (loads w !! v) eqn:Ev.
      + intros [= <-]. by apply (o_loads w Hw v).
      + case_decide; [|done]. intros [= <-]. done.
    - intros v l. rewrite Ll. destruct (loads w !! v) as [l0|] eqn:Ev.
      + intros [= <-] Hp. by destruct (Hnp v l0 Ev).
      + case_decide as Hb; [|done]. intros _ _. exists ps. split; [done|].
        apply Lp. split; [done|]. rewrite (o_dom w Hw v), Ev.
        by intros [? ?].
    - intros ps' [= <-]. split_and!; [done | |].
      + rewrite Flen. unfold batch. rewrite length_take. lia.
      + intros v [Hb Hv]%Lp. rewrite Ll.
        destruct (loads w !! v); [eauto|]. rewrite decide_True by done. eauto.
    - done.
    - rewrite Ft. intros [H | H]%elem_of_app.
      + by apply (o_no_batch_error w Hw).
      + apply list_elem_of_fmap in H as (? & ? & _). done. }
  destruct (resumeBatch_orderly _ Ho) as [H1 H2].
  split_and!; [done | done |].
  pose proof (resumeBatch_fields (set_awaiting (Some ps) w3)) as R.
  cbv zeta in R. destruct R as (Rn & _ & _ & _ & _ & _ & Rl & _). fields.
  intros v l. rewrite Rl, Rn, Fnow, Ll. destruct (loads w !! v) as [l0|] eqn:Ev.
  - intros [= <-]. by apply (Ht v).
  - case_decide; [|done]. intros [= <-]. simpl. unfold timeout_ms. lia.
Qed.

End Dispatch.

(** ** Every state of a page load is sound *)

Section Runs.

Lemma step_sound (e : event) (w : preloader) : sound w → sound (step e w).
Proof.
  intros Hw. destruct e as [ms|u|u|u r|u r s|i].
  - by apply advance_sound.
  - by apply image_event_sound.
  - by apply image_event_sound.
  - by apply fetch_settled_sound.
  - by apply body_settled_sound.
  - simpl. destruct (callbacks w !! i) as [cb|]; [|done].
    destruct (callback_ready (now w) cb); [|done].
    apply loadNextImages_sound.
    destruct Hw as (H1 & H2 & H3). apply (cosmetic_orderly w); try done.
    apply cosmetic_callbacks, cosmetic_refl.
Qed.

Lemma run_sound (es : list event) (w : preloader) : sound w → sound (run es w).
Proof.
  revert w. induction es as [|e es IH]; intros w Hw; [done|].
  simpl. apply IH, step_sound, Hw.
Qed.

Lemma constructed_sound (idle : bool) (t0 : N)
    (store : gmap string (list Byte.byte)) :
  sound (constructed idle t0 store).
Proof.
  split_and!.
  - constructor; simpl; try done.
    + apply NoDup_nil_2.
    + intros u. rewrite lookup_empty. split; [by intros ?%elem_of_nil|].
      by intros [? ?].
    + apply not_elem_of_nil.
  - intros ps. done.
  - intros u l. simpl. by rewrite lookup_empty.
Qed.

Lemma init_sound (d : document) (opened : bool) (w : preloader) :
  sound w → sound (init d opened w).
Proof.
  intros (H1 & H2 & H3). unfold init, startPreloading.
  apply loadNextImages_sound. apply (cosmetic_orderly w); try done.
  apply cosmetic_queue. destruct opened.
  - apply cosmetic_db, cosmetic_refl.
  - apply cosmetic_emit; [apply cosmetic_refl | done].
Qed.

Lemma page_load_sound (idle : bool) (t0 : N)
    (store : gmap string (list Byte.byte)) (d : document) (opened : bool)
    (es : list event) :
  sound (page_load idle t0 store d opened es).
Proof. apply run_sound, init_sound, constructed_sound. Qed.

End Runs.

(** ** Caching *)

Section Caching.

Lemma count_puts_app (u : url) (tr1 tr2 : list effect) :
  count_puts u (tr1 ++ tr2) = count_puts u tr1 + count_puts u tr2.
Proof. unfold count_puts. by rewrite filter_app, length_app. Qed.

Lemma count_puts_zero (u : url) (tr : list effect) :
  count_puts u tr = 0 ↔ ∀ b, StorePut u b ∉ tr.
Proof.
  unfold count_puts. induction tr as [|e tr IH].
  - split; [intros _ b; apply not_elem_of_nil | done].
  - rewrite filter_cons. destruct (decide (is_put u e = true)) as [He|He].
    + split; [simpl; lia|]. intros H. exfalso.
      destruct e as [| |v b|]; try done. simpl in He.
      apply String.eqb_eq in He as <-. apply (H b). left.
    + rewrite IH. split.
      * intros H b [<-|Hin]%elem_of_cons; [|by apply (H b)].
        simpl in He. by rewrite String.eqb_refl in He.
      * intros H b Hin. apply (H b). by right.
Qed.

Lemma count_puts_pos (u : url) (tr : list effect) :
  0 < count_puts u tr ↔ ∃ b, StorePut u b ∈ tr.
Proof.
  unfold count_puts. induction tr as [|e tr IH].
  - simpl. split; [lia | by intros [b ?%elem_of_nil]].
  - rewrite filter_cons. destruct (decide (is_put u e = true)) as [He|He].
    + split; [|simpl; lia]. intros _.
      destruct e as [| |v b|]; try done. simpl in He.
      apply String.eqb_eq in He as <-. exists b. left.
    + rewrite IH. split.
      * intros [b Hb]. exists b. by right.
      * intros [b [<-|Hin]%elem_of_cons]; [|eauto].
        simpl in He. by rewrite String.eqb_refl in He.
Qed.

Lemma count_puts_single (u v : url) (b : list Byte.byte) :
  count_puts v [StorePut u b] = if decide (v = u) then 1 else 0.
Proof.
  unfold count_puts. rewrite filter_cons, filter_nil. simpl.
  destruct (decide (v = u)) as [->|Hne].
  - rewrite String.eqb_refl. done.
  - apply String.eqb_neq in Hne. rewrite Hne. done.
Qed.

Lemma then_resolve_fields (u : url) (st : stretch) (w1 : preloader) :
  let w' := then_resolve u (st, w1) in
  now w' = now w1 ∧ db w' = db w1 ∧ idb w' = idb w1
  ∧ preloadedUrls w' = preloadedUrls w1
  ∧ (trace w' = trace w1
     ∨ trace w' = trace w1 ++ [ConsoleLog BatchPreloadError])
  ∧ loads w' = alter (finish st (now w1)) u (loads w1).
Proof.
  destruct st as [p| |f]; simpl; [by auto 10 | | by auto 10].
  pose proof (resolve_fields u (set_phase u CacheDone w1)) as F.
  cbv zeta in F. destruct F as (? & ? & ? & ? & ? & ? & Fl & ?). fields.
  split_and!; try done. rewrite Fl. by rewrite alter_alter_eq.
Qed.

Lemma finish_fields (st : stretch) (t : N) (l : load) :
  img_fired (finish st t l) = img_fired l
  ∧ started (finish st t l) = started l
  ∧ caching (finish st t l)
    = match st with Suspend p => p | _ => CacheDone end
  ∧ (st = Return → outcome (finish st t l) ≠ Pending)
  ∧ (outcome (finish st t l) = Pending → outcome l = Pending).
Proof.
  unfold finish, settle. destruct st; simpl.
  - split_and!; done.
  - destruct (outcome l) eqn:E; simpl; rewrite ?E; split_and!; done.
  - split_and!; done.
Qed.

Lemma puts_of_zero (w : preloader) (u : url) (l : load) :
  cached w → loads w !! u = Some l → caching l ≠ CacheDone →
  puts_of u w = 0.
Proof.
  intros Hc Hl Hp. destruct (puts_of u w) eqn:E; [done|]. exfalso.
  destruct (ca_put_done w Hc u) as [Hd _]; [lia|].
  unfold phase_of in Hd. rewrite Hl in Hd. done.
Qed.

(** One lemma for the three events of [cacheImage]: the image event
    that starts it, the answer to the fetch, and the body. *)
Lemma cache_event (w w1 : preloader) (u : url) (l : load) (g : load → load)
    (st : stretch) (tr1 : list effect) :
  cached w →
  loads w !! u = Some l → caching l ≠ CacheDone →
  db w1 = db w → loads w1 = alter g u (loads w) →
  caching (g l) = caching l → outcome (g l) = outcome l →
  img_fired (g l) = true →
  trace w1 = trace w ++ tr1 →
  ((∀ v b, StorePut v b ∉ tr1)
   ∨ ((∀ v, count_puts v tr1 = if decide (v = u) then 1 else 0)
      ∧ st = Return)) →
  (db w = false → st = Return ∧ tr1 = []) →
  cached (then_resolve u (st, w1)).
Proof.
  intros Hc Hl Hphase Hdb Hloads Gc Go Gi Htr Hput Hnodb.
  pose proof (then_resolve_fields u st w1) as F. cbv zeta in F.
  destruct F as (Fn & Fdb & Fidb & _ & Ftr & Fl).
  set (w' := then_resolve u (st, w1)) in *. clearbody w'.
  pose proof (finish_fields st (now w1) (g l)) as (Qi & _ & Qc & Qr & Qp).
  assert (Hlu : loads w' !! u = Some (finish st (now w1) (g l))).
  { rewrite Fl, Hloads, !lookup_alter_eq, Hl. done. }
  assert (Hlv : ∀ v, v ≠ u → loads w' !! v = loads w !! v).
  { intros v Hv. rewrite Fl, Hloads, !lookup_alter_ne; done. }
  assert (P0 : puts_of u w = 0) by by eapply puts_of_zero.
  assert (Hcount : ∀ v, puts_of v w' = puts_of v w + count_puts v tr1).
  { intros v. unfold puts_of. fold (count_puts v (trace w')).
    fold (count_puts v (trace w)).
    destruct Ftr as [-> | ->]; rewrite Htr, !count_puts_app; [done|].
    unfold count_puts at 3. simpl. lia. }
  assert (Hmem : ∀ e, e ∈ trace w' →
            e ∈ trace w ∨ e ∈ tr1 ∨ e = ConsoleLog BatchPreloadError).
  { intros e. destruct Ftr as [-> | ->]; rewrite Htr, ?elem_of_app.
    - tauto.
    - rewrite list_elem_of_singleton. tauto. }
  constructor.
  - intros v l'. destruct (decide (v = u)) as [->|Hv].
    + rewrite Hlu. intros [= <-]. congruence.
    + rewrite Hlv by done. apply (ca_idle w Hc).
  - intros v. rewrite Hcount. pose proof (ca_puts w Hc v).
    destruct Hput as [Hno | (Hcnt & _)].
    + assert (count_puts v tr1 = 0) as ->; [|lia].
      apply count_puts_zero. intros b. apply Hno.
    + rewrite Hcnt. case_decide; [subst v|]; lia.
  - intros v. rewrite Hcount. intros Hpos.
    destruct (decide (v = u)) as [->|Hv].
    + rewrite P0 in Hpos. simpl in Hpos.
      destruct Hput as [Hno | (_ & ->)].
      * apply count_puts_pos in Hpos as [b Hb]. by destruct (Hno u b).
      * unfold phase_of. simpl. rewrite Hlu. split; [done|].
        specialize (Qr eq_refl).
        destruct (outcome (finish Return (now w1) (g l))); done.
    + assert (count_puts v tr1 = 0) as E.
      { destruct Hput as [Hno | (Hcnt & _)].
        - apply count_puts_zero. intros b. apply Hno.
        - rewrite Hcnt. by rewrite decide_False. }
      rewrite E, Nat.add_0_r in Hpos.
      destruct (ca_put_done w Hc v Hpos) as [H1 H2].
      unfold phase_of in *. simpl in *. by rewrite Hlv.
  - rewrite Fdb, Hdb. intros Hd. destruct (Hnodb Hd) as [-> ->].
    destruct (ca_no_db w Hc Hd) as (N1 & N2 & N3). split_and!.
    + intros v. unfold phase_of. destruct (decide (v = u)) as [->|Hv].
      * rewrite Hlu. right. done.
      * rewrite Hlv by done. apply N1.
    + intros v Hin. destruct (Hmem _ Hin) as [H | [H | H]]; [|by apply elem_of_nil in H|done].
      by apply (N2 v).
    + intros v b Hin. destruct (Hmem _ Hin) as [H | [H | H]]; [|by apply elem_of_nil in H|done].
      by apply (N3 v b).
Qed.

Ltac quiet_trace :=
  left;
  let H := fresh in
  intros ? ? H;
  first [ by apply elem_of_nil in H | by apply list_elem_of_singleton in H ].

Ltac cache_side Hdb :=
  first [ done | congruence | by rewrite app_nil_r | quiet_trace
        | by (intros; congruence) | by intros ?%Hdb | idtac ].

Lemma image_event_cached (w : preloader) (u : url) :
  cached w →
  cached (image_event onload u w) ∧ cached (image_event onerror u w).
Proof.
  intros Hc. unfold image_event, onload, onerror.
  destruct (loads w !! u) as [l|] eqn:El; [|done].
  destruct (img_fired l) eqn:Ei; [done|].
  assert (cached (then_resolve u (cacheImage u (update_load u set_img_fired w))));
    [|done].
  pose proof (ca_idle w Hc u l El Ei) as Hidle.
  unfold cacheImage. fields. destruct (db w) eqn:Ed.
  - apply (cache_event w (emit (FetchRequest u) (update_load u set_img_fired w))
             u l set_img_fired (Suspend AwaitResponse) [FetchRequest u]);
      cache_side Ed.
  - apply (cache_event w (update_load u set_img_fired w)
             u l set_img_fired Return []);
      cache_side Ed.
Qed.

Lemma phase_load (w : preloader) (u : url) :
  cached w → phase_of w u ≠ CacheIdle →
  ∃ l, loads w !! u = Some l ∧ caching l = phase_of w u
       ∧ img_fired l = true ∧ loads w = alter id u (loads w).
Proof.
  intros Hc Hp. unfold phase_of in *.
  destruct (loads w !! u) as [l|] eqn:El; [|done].
  exists l. split_and!; [done | done | |].
  - destruct (img_fired l) eqn:Ei; [done|].
    by destruct Hp; apply (ca_idle w Hc u l).
  - symmetry. by apply alter_id.
Qed.

Lemma fetch_settled_cached (w : preloader) (u : url) (r : fetch_result) :
  cached w → cached (step (FetchSettled u r) w).
Proof.
  intros Hc. simpl. destruct (phase_of w u) eqn:Ep; try done.
  destruct (phase_load w u Hc) as (l & El & Ecl & Ei & Eid); [congruence|].
  assert (Hdb : db w = false → False).
  { intros Hd. destruct (ca_no_db w Hc Hd) as (N1 & _).
    destruct (N1 u); congruence. }
  unfold cacheImage_response, try_response.
  destruct r as [msg|status].
  - apply (cache_event w
             (emit (ConsoleLog (FailedToCache u (FetchFailed msg))) w)
             u l id Return [ConsoleLog (FailedToCache u (FetchFailed msg))]);
      cache_side Hdb.
  - destruct (response_ok status).
    + apply (cache_event w w u l id (Suspend AwaitBody) []);
        cache_side Hdb.
    + apply (cache_event w
               (emit (ConsoleLog (FailedToCache u (HttpError status))) w)
               u l id Return [ConsoleLog (FailedToCache u (HttpError status))]);
        cache_side Hdb.
Qed.

Lemma body_settled_cached (w : preloader) (u : url) (r : body_result)
    (s : store_answer) :
  cached w → cached (step (BodySettled u r s) w).
Proof.
  intros Hc. simpl. destruct (phase_of w u) eqn:Ep; try done.
  destruct (phase_load w u Hc) as (l & El & Ecl & Ei & Eid); [congruence|].
  assert (Hdb : db w = false → False).
  { intros Hd. destruct (ca_no_db w Hc Hd) as (N1 & _).
    destruct (N1 u); congruence. }
  assert (Hone : ∀ b tr, (∀ v c, StorePut v c ∉ tr) →
            ∀ v, count_puts v (StorePut u b :: tr)
                 = if decide (v = u) then 1 else 0).
  { intros b tr Hno v.
    change (StorePut u b :: tr) with ([StorePut u b] ++ tr).
    rewrite count_puts_app, count_puts_single.
    assert (count_puts v tr = 0) as ->; [|lia].
    apply count_puts_zero. intros c. apply Hno. }
  unfold cacheImage_body, try_body, try_put.
  destruct r as [msg|b]; [|destruct s as [m|m| |]]; cbn [catch_log].
  - apply (cache_event w
             (emit (ConsoleLog (FailedToCache u (BodyFailed msg))) w)
             u l id Return [ConsoleLog (FailedToCache u (BodyFailed msg))]);
      cache_side Hdb.
  - apply (cache_event w
             (emit (ConsoleLog (FailedToCache u (StoreFailed m))) w)
             u l id Return [ConsoleLog (FailedToCache u (StoreFailed m))]);
      cache_side Hdb.
  - apply (cache_event w
             (emit (ConsoleLog (FailedToCache u (StoreFailed m)))
                (emit (StorePut u b) w))
             u l id Return
             [StorePut u b; ConsoleLog (FailedToCache u (StoreFailed m))]);
      cache_side Hdb.
    + fields. by rewrite <- app_assoc.
    + right. split; [|done]. apply Hone.
      intros v c ?%list_elem_of_singleton. done.
  - apply (cache_event w (emit (StorePut u b) w)
             u l id Return [StorePut u b]);
      cache_side Hdb.
    right. split; [|done]. apply Hone. intros v c ?%elem_of_nil. done.
  - apply (cache_event w
             (emit (StorePut u b) (set_idb (<[u := b]> (idb w)) w))
             u l id Return [StorePut u b]);
      cache_side Hdb.
    right. split; [|done]. apply Hone. intros v c ?%elem_of_nil. done.
Qed.

(** Events that only concern promises leave the caching side alone. *)
Lemma cached_promise_step (w w' : preloader) :
  cached w → db w' = db w → idb w' = idb w →
  (∃ tr, trace w' = trace w ++ tr
         ∧ ∀ e, e ∈ tr → match e with
                         | FetchRequest _ | StorePut _ _ => False
                         | _ => True
                         end) →
  (∀ v l', loads w' !! v = Some l' →
     (∃ l, loads w !! v = Some l ∧ caching l' = caching l
           ∧ img_fired l' = img_fired l
           ∧ (outcome l' = Pending → outcome l = Pending))
     ∨ (loads w !! v = None ∧ caching l' = CacheIdle)) →
  (∀ v, loads w' !! v = None → loads w !! v = None) →
  cached w'.
Proof.
  intros Hc Hdb Hidb (tr & Htr & Hquiet) Hl Hnone.
  assert (Hcount : ∀ v, puts_of v w' = puts_of v w).
  { intros v. unfold puts_of. fold (count_puts v (trace w')).
    fold (count_puts v (trace w)). rewrite Htr, count_puts_app.
    assert (count_puts v tr = 0) as ->; [|lia].
    apply count_puts_zero. intros b Hb. by apply Hquiet in Hb. }
  assert (Hphase : ∀ v, phase_of w' v = phase_of w v ∨ phase_of w' v = CacheIdle).
  { intros v. unfold phase_of. destruct (loads w' !! v) as [l'|] eqn:E'.
    - destruct (Hl v l' E') as [(l & -> & -> & _) | (-> & ->)]; auto.
    - auto. }
  constructor.
  - intros v l' Hl' Hi.
    destruct (Hl v l' Hl') as [(l & El & -> & Ei & _) | (_ & ->)]; [|done].
    apply (ca_idle w Hc v l El). congruence.
  - intros v. rewrite Hcount. apply (ca_puts w Hc).
  - intros v. rewrite Hcount. intros Hpos.
    destruct (ca_put_done w Hc v Hpos) as [H1 H2].
    unfold phase_of in *. simpl in *.
    destruct (loads w !! v) as [l|] eqn:El; [|done].
    destruct (loads w' !! v) as [l'|] eqn:El'.
    + destruct (Hl v l' El') as [(l0 & E0 & -> & _ & Hp) | (? & _)];
        [|congruence].
      rewrite El in E0. injection E0 as <-.
      split; [done|]. destruct (outcome l') eqn:Eo; try done.
      rewrite Hp in H2; done.
    + apply Hnone in El'. congruence.
  - rewrite Hdb. intros Hd. destruct (ca_no_db w Hc Hd) as (N1 & N2 & N3).
    split_and!.
    + intros v. destruct (Hphase v) as [-> | ->]; auto.
    + intros v. rewrite Htr, elem_of_app. intros [H|H]; [by apply (N2 v)|].
      by apply Hquiet in H.
    + intros v b. rewrite Htr, elem_of_app. intros [H|H]; [by apply (N3 v b)|].
      by apply Hquiet in H.
Qed.

Lemma fire_timer_fields (u : url) (w : preloader) :
  let w' := fire_timer u w in
  db w' = db w ∧ idb w' = idb w ∧ hasIdle w' = hasIdle w
  ∧ (trace w' = trace w
     ∨ trace w' = trace w ++ [ConsoleLog BatchPreloadError])
  ∧ ∃ f, loads w' = alter f u (loads w)
         ∧ ∀ l, caching (f l) = caching l ∧ img_fired (f l) = img_fired l
                ∧ (outcome (f l) = Pending → outcome l = Pending).
Proof.
  unfold fire_timer. destruct (loads w !! u) as [l|] eqn:El.
  2:{ split_and!; try done; [by left|]. exists id. split; [|done].
      symmetry. apply alter_id. done. }
  destruct (timer_fired l).
  { split_and!; try done; [by left|]. exists id. split; [|done].
    symmetry. apply alter_id. done. }
  pose proof (resolve_fields u
    (update_load u set_timer_fired (set_now (started l + timeout_ms)%N w))) as F.
  cbv zeta in F. destruct F as (_ & ? & ? & ? & _ & _ & Fl & ?). fields.
  split_and!; try done.
  exists (settle (started l + timeout_ms)%N ∘ set_timer_fired).
  split; [by rewrite Fl, alter_alter_eq|].
  intros l0. unfold settle. simpl. destruct (outcome l0) eqn:E; simpl; by rewrite ?E.
Qed.

Lemma quiet_batch_error (w w' : preloader) :
  trace w' = trace w ∨ trace w' = trace w ++ [ConsoleLog BatchPreloadError] →
  ∃ tr, trace w' = trace w ++ tr
        ∧ ∀ e, e ∈ tr → match e with
                        | FetchRequest _ | StorePut _ _ => False
                        | _ => True
                        end.
Proof.
  intros [-> | ->].
  - exists []. rewrite app_nil_r. split; [done|]. by intros e ?%elem_of_nil.
  - eexists. split; [done|]. by intros e ->%list_elem_of_singleton.
Qed.

Lemma cached_alter (w w' : preloader) (u : url) (f : load → load) :
  cached w → db w' = db w → idb w' = idb w →
  trace w' = trace w ∨ trace w' = trace w ++ [ConsoleLog BatchPreloadError] →
  loads w' = alter f u (loads w) →
  (∀ l, caching (f l) = caching l ∧ img_fired (f l) = img_fired l
        ∧ (outcome (f l) = Pending → outcome l = Pending)) →
  cached w'.
Proof.
  intros Hc Hdb Hidb Htr Hl Hf.
  apply (cached_promise_step w); try done.
  - by apply quiet_batch_error.
  - intros v l'. rewrite Hl, lookup_alter. case_decide as E.
    + subst v. destruct (loads w !! u) as [l|]; [|done].
      intros [= <-]. left. exists l. destruct (Hf l) as (? & ? & ?). done.
    + intros Hv. left. exists l'. done.
  - intros v. rewrite Hl, lookup_alter. case_decide as E; [|done].
    subst v. by destruct (loads w !! u).
Qed.

Lemma fire_timer_cached (u : url) (w : preloader) :
  cached w → cached (fire_timer u w).
Proof.
  intros Hc. pose proof (fire_timer_fields u w) as F. cbv zeta in F.
  destruct F as (? & ? & _ & ? & f & ? & ?). by apply (cached_alter w _ u f).
Qed.

Lemma advance_cached (ms : N) (w : preloader) :
  cached w → cached (advance ms w).
Proof.
  intros Hc. unfold advance.
  assert (H : ∀ us w0, cached w0 →
    cached (foldl (λ w' u, if timer_due (now w + ms) u w'
                           then fire_timer u w' else w') w0 us)).
  { induction us as [|u us IH]; intros w0 H0; [done|]. simpl.
    apply IH. destruct (timer_due _ u w0); [|done].
    by apply fire_timer_cached. }
  specialize (H (preloadedUrls w) w Hc).
  set (wf := foldl _ w (preloadedUrls w)) in *. clearbody wf.
  apply (cached_alter wf _ "" id); try done; [by left|].
  symmetry. by apply alter_id.
Qed.

Lemma loadNextImages_cached (w : preloader) :
  orderly w → cached w → cached (loadNextImages w).
Proof.
  intros Hw Hc. unfold loadNextImages.
  destruct (isPreloading w || (length (preloadingQueue w) =? 0)); [done|].
  set (batch := take batchSize _).
  set (w2 := set_preloadingQueue _ _).
  pose proof (map_preloadImage_frame batch w2) as F.
  pose proof (map_preloadImage_loads batch w2 (o_dom w Hw)) as L.
  destruct (map_preloadImage batch w2) as [ps w3]. cbn [fst snd] in *.
  cbv zeta in F.
  destruct F as (_ & _ & _ & Fidb & Fdb & _ & _ & _ & _ & _ & new & _ & Ft).
  destruct L as [Ll _].
  pose proof (resumeBatch_fields (set_awaiting (Some ps) w3)) as R.
  cbv zeta in R. destruct R as (_ & _ & Ridb & Rdb & _ & _ & Rl & Rt).
  unfold w2 in *. fields.
  apply (cached_promise_step w); try congruence.
  - destruct Rt as [-> | ->]; rewrite Ft.
    + exists (ImageRequest <$> new). split; [done|].
      intros e (? & -> & _)%list_elem_of_fmap. done.
    + exists ((ImageRequest <$> new) ++ [ConsoleLog BatchPreloadError]).
      split; [by rewrite app_assoc|].
      intros e [(? & -> & _)%list_elem_of_fmap | ->%list_elem_of_singleton]%elem_of_app;
        done.
  - intros v l'. rewrite Rl, Ll. destruct (loads w !! v) as [l|] eqn:Ev.
    + intros [= <-]. left. exists l. done.
    + case_decide; [|done]. intros [= <-]. right. done.
  - intros v. rewrite Rl, Ll. destruct (loads w !! v); [done|]. done.
Qed.

Lemma step_cached (e : event) (w : preloader) :
  sound w → cached w → cached (step e w).
Proof.
  intros Hw Hc. destruct e as [ms|u|u|u r|u r s|i].
  - by apply advance_cached.
  - by apply image_event_cached.
  - by apply image_event_cached.
  - by apply fetch_settled_cached.
  - by apply body_settled_cached.
  - simpl. destruct (callbacks w !! i) as [cb|]; [|done].
    destruct (callback_ready (now w) cb); [|done].
    destruct Hw as (H1 & H2 & H3).
    assert (Hcos : cosmetic w (set_callbacks (delete i (callbacks w)) w))
      by apply cosmetic_callbacks, cosmetic_refl.
    apply loadNextImages_cached.
    + by apply (cosmetic_orderly w).
    + apply (cached_alter w _ "" id); try done; [by left|].
      symmetry. by apply alter_id.
Qed.

Lemma loadNextImages_frame (w : preloader) :
  let w' := loadNextImages w in
  now w' = now w ∧ db w' = db w ∧ hasIdle w' = hasIdle w ∧ idb w' = idb w.
Proof.
  unfold loadNextImages.
  destruct (isPreloading w || (length (preloadingQueue w) =? 0)); [done|].
  set (batch := take batchSize _).
  set (w2 := set_preloadingQueue _ _).
  pose proof (map_preloadImage_frame batch w2) as F.
  destruct (map_preloadImage batch w2) as [ps w3]. cbn [fst snd] in *.
  cbv zeta in F. destruct F as (_ & ? & ? & ? & ? & _).
  pose proof (resumeBatch_fields (set_awaiting (Some ps) w3)) as R.
  cbv zeta in R. destruct R as (? & ? & ? & ? & _).
  unfold w2 in *. fields. split_and!; congruence.
Qed.

Lemma advance_frame (ms : N) (w : preloader) :
  let w' := advance ms w in
  now w' = (now w + ms)%N ∧ db w' = db w ∧ hasIdle w' = hasIdle w
  ∧ idb w' = idb w.
Proof.
  unfold advance. fields. split; [done|].
  generalize (now w + ms)%N as target. intros target.
  generalize (preloadedUrls w) as us. intros us. revert w.
  induction us as [|u us IH]; intros w; [done|]. simpl.
  destruct (IH (if timer_due target u w then fire_timer u w else w))
    as (-> & -> & ->).
  destruct (timer_due target u w); [|done].
  pose proof (fire_timer_fields u w) as F. cbv zeta in F.
  destruct F as (? & ? & ? & _). done.
Qed.

Lemma cacheImage_frame (u : url) (w : preloader) :
  db (snd (cacheImage u w)) = db w ∧ hasIdle (snd (cacheImage u w)) = hasIdle w
  ∧ idb (snd (cacheImage u w)) = idb w ∧ now (snd (cacheImage u w)) = now w.
Proof. unfold cacheImage. destruct (db w) eqn:E; simpl; rewrite ?E; done. Qed.

Lemma then_resolve_frame (u : url) (r : stretch * preloader) :
  let w' := then_resolve u r in
  now w' = now (snd r) ∧ db w' = db (snd r) ∧ hasIdle w' = hasIdle (snd r)
  ∧ idb w' = idb (snd r).
Proof.
  destruct r as [[p| |f] w1]; simpl; try done.
  pose proof (resolve_fields u (set_phase u CacheDone w1)) as F.
  cbv zeta in F. destruct F as (? & ? & ? & ? & _). done.
Qed.

Lemma step_frame (e : event) (w : preloader) :
  db (step e w) = db w ∧ hasIdle (step e w) = hasIdle w
  ∧ (idb (step e w) = idb w
     ∨ ∃ u b, e = BodySettled u (Body b) PutSucceeds
              ∧ phase_of w u = AwaitBody
              ∧ idb (step e w) = <[u := b]> (idb w)).
Proof.
  destruct e as [ms|u|u|u r|u r s|i]; simpl.
  - pose proof (advance_frame ms w) as F. cbv zeta in F.
    destruct F as (_ & ? & ? & ?). auto.
  - unfold image_event. destruct (loads w !! u) as [l|]; [|auto].
    destruct (img_fired l); [auto|]. unfold onload.
    pose proof (then_resolve_frame u (cacheImage u (update_load u set_img_fired w))) as F.
    pose proof (cacheImage_frame u (update_load u set_img_fired w)) as G.
    cbv zeta in F. destruct F as (_ & -> & -> & ->).
    destruct G as (-> & -> & -> & _). auto.
  - unfold image_event. destruct (loads w !! u) as [l|]; [|auto].
    destruct (img_fired l); [auto|]. unfold onerror.
    pose proof (then_resolve_frame u (cacheImage u (update_load u set_img_fired w))) as F.
    pose proof (cacheImage_frame u (update_load u set_img_fired w)) as G.
    cbv zeta in F. destruct F as (_ & -> & -> & ->).
    destruct G as (-> & -> & -> & _). auto.
  - destruct (phase_of w u); auto.
    pose proof (then_resolve_frame u (cacheImage_response u r w)) as F.
    cbv zeta in F. destruct F as (_ & -> & -> & ->).
    unfold cacheImage_response, try_response.
    destruct r as [msg|status]; [auto|]. destruct (response_ok status); auto.
  - destruct (phase_of w u) eqn:Ep; auto.
    pose proof (then_resolve_frame u (cacheImage_body u r s w)) as F.
    cbv zeta in F. destruct F as (_ & -> & -> & ->).
    unfold cacheImage_body, try_body, try_put.
    destruct r as [msg|b]; [auto|]. destruct s as [m|m| |]; simpl; auto.
    split_and!; try done. right. exists u, b. done.
  - destruct (callbacks w !! i) as [cb|]; [|auto].
    destruct (callback_ready (now w) cb); [|auto].
    pose proof (loadNextImages_frame (set_callbacks (delete i (callbacks w)) w)) as F.
    cbv zeta in F. destruct F as (_ & -> & -> & ->). auto.
Qed.

Lemma step_healthy (e : event) (w : preloader) : healthy w → healthy (step e w).
Proof. intros [H1 H2]. split; [by apply step_sound | by apply step_cached]. Qed.

Lemma run_healthy (es : list event) (w : preloader) :
  healthy w → healthy (run es w).
Proof.
  revert w. induction es as [|e es IH]; intros w Hw; [done|].
  simpl. apply IH, step_healthy, Hw.
Qed.

Lemma run_snoc (es : list event) (e : event) (w : preloader) :
  run (es ++ [e]) w = step e (run es w).
Proof. unfold run. by rewrite foldl_app. Qed.

Lemma run_app (es1 es2 : list event) (w : preloader) :
  run (es1 ++ es2) w = run es2 (run es1 w).
Proof. unfold run. by rewrite foldl_app. Qed.

Lemma run_db (es : list event) (w : preloader) :
  db (run es w) = db w ∧ hasIdle (run es w) = hasIdle w.
Proof.
  revert w. induction es as [|e es IH]; intros w; [done|]. simpl.
  destruct (IH (step e w)) as [-> ->].
  destruct (step_frame e w) as (-> & -> & _). done.
Qed.

Lemma cached_fresh (w : preloader) :
  loads w = ∅ →
  (∀ e, e ∈ trace w → match e with
                      | FetchRequest _ | StorePut _ _ => False
                      | _ => True
                      end) →
  cached w.
Proof.
  intros Hl Hq.
  assert (Hz : ∀ u, puts_of u w = 0).
  { intros u. apply count_puts_zero. intros b Hb. by apply Hq in Hb. }
  constructor.
  - intros u l. by rewrite Hl, lookup_empty.
  - intros u. rewrite Hz. lia.
  - intros u. rewrite Hz. lia.
  - intros _. split_and!.
    + intros u. left. unfold phase_of. by rewrite Hl, lookup_empty.
    + intros u Hb. by apply Hq in Hb.
    + intros u b Hb. by apply Hq in Hb.
Qed.

Lemma init_healthy (idle : bool) (t0 : N) (store : gmap string (list Byte.byte))
    (d : document) (opened : bool) :
  healthy (init d opened (constructed idle t0 store))
  ∧ db (init d opened (constructed idle t0 store)) = opened
  ∧ hasIdle (init d opened (constructed idle t0 store)) = idle
  ∧ idb (init d opened (constructed idle t0 store)) = store.
Proof.
  pose proof (constructed_sound idle t0 store) as Hs.
  split_and!.
  - split; [by apply init_sound|]. unfold init, startPreloading.
    set (w1 := set_preloadingQueue _ _).
    assert (Hc : cached w1).
    { unfold w1. apply cached_fresh; [by destruct opened|].
      destruct opened; simpl.
      - by intros e ?%elem_of_nil.
      - by intros e ->%list_elem_of_singleton. }
    apply loadNextImages_cached; [|done].
    destruct Hs as (H1 & H2 & H3).
    apply (cosmetic_orderly (constructed idle t0 store)); try done.
    unfold w1. apply cosmetic_queue. destruct opened.
    + apply cosmetic_db, cosmetic_refl.
    + apply cosmetic_emit; [apply cosmetic_refl | done].
  - unfold init, startPreloading.
    pose proof (loadNextImages_frame (set_preloadingQueue (build_queue d)
      (if opened then set_db true (constructed idle t0 store)
       else emit (ConsoleLog IndexedDBUnavailable) (constructed idle t0 store)))) as F.
    cbv zeta in F. destruct F as (_ & -> & _). by destruct opened.
  - unfold init, startPreloading.
    pose proof (loadNextImages_frame (set_preloadingQueue (build_queue d)
      (if opened then set_db true (constructed idle t0 store)
       else emit (ConsoleLog IndexedDBUnavailable) (constructed idle t0 store)))) as F.
    cbv zeta in F. destruct F as (_ & _ & -> & _). by destruct opened.
  - unfold init, startPreloading.
    pose proof (loadNextImages_frame (set_preloadingQueue (build_queue d)
      (if opened then set_db true (constructed idle t0 store)
       else emit (ConsoleLog IndexedDBUnavailable) (constructed idle t0 store)))) as F.
    cbv zeta in F. destruct F as (_ & _ & _ & ->). by destruct opened.
Qed.

Lemma page_load_healthy (idle : bool) (t0 : N)
    (store : gmap string (list Byte.byte)) (d : document) (opened : bool)
    (es : list event) :
  healthy (page_load idle t0 store d opened es).
Proof. apply run_healthy, init_healthy. Qed.

Lemma page_load_db (idle : bool) (t0 : N)
    (store : gmap string (list Byte.byte)) (d : document) (opened : bool)
    (es : list event) :
  db (page_load idle t0 store d opened es) = opened
  ∧ hasIdle (page_load idle t0 store d opened es) = idle.
Proof.
  unfold page_load.
  destruct (run_db es (init d opened (constructed idle t0 store))) as [-> ->].
  destruct (init_healthy idle t0 store d opened) as (_ & -> & -> & _). done.
Qed.

End Caching.

(** ** What a step leaves as it is *)

Section Frames.

Lemma cacheImage_trace (u : url) (w : preloader) :
  ∃ tr, trace (snd (cacheImage u w)) = trace w ++ tr.
Proof.
  unfold cacheImage. destruct (db w); simpl; [eauto|].
  exists []. by rewrite app_nil_r.
Qed.

Lemma then_resolve_trace (u : url) (r : stretch * preloader) :
  ∃ tr, trace (then_resolve u r) = trace (snd r) ++ tr.
Proof.
  destruct r as [st w1].
  pose proof (then_resolve_fields u st w1) as F. cbv zeta in F.
  destruct F as (_ & _ & _ & _ & [-> | ->] & _); simpl; [|eauto].
  exists []. by rewrite app_nil_r.
Qed.

Lemma loadNextImages_trace (w : preloader) :
  ∃ tr, trace (loadNextImages w) = trace w ++ tr.
Proof.
  unfold loadNextImages.
  destruct (isPreloading w || (length (preloadingQueue w) =? 0)).
  { exists []. by rewrite app_nil_r. }
  set (batch := take batchSize _).
  set (w2 := set_preloadingQueue _ _).
  pose proof (map_preloadImage_frame batch w2) as F.
  destruct (map_preloadImage batch w2) as [ps w3]. cbn [fst snd] in *.
  cbv zeta in F.
  destruct F as (_ & _ & _ & _ & _ & _ & _ & _ & _ & _ & new & _ & Ft).
  pose proof (resumeBatch_fields (set_awaiting (Some ps) w3)) as R.
  cbv zeta in R. destruct R as (_ & _ & _ & _ & _ & _ & _ & Rt).
  unfold w2 in *. fields.
  destruct Rt as [-> | ->]; rewrite Ft; [eauto|].
  rewrite <- app_assoc. eauto.
Qed.

Lemma advance_trace (ms : N) (w : preloader) :
  ∃ tr, trace (advance ms w) = trace w ++ tr
        ∧ ∀ e, e ∈ tr → e = ConsoleLog BatchPreloadError.
Proof.
  unfold advance. fields.
  generalize (now w + ms)%N as target. intros target.
  generalize (preloadedUrls w) as us. intros us. revert w.
  induction us as [|u us IH]; intros w.
  { exists []. rewrite app_nil_r. split; [done|]. by intros e ?%elem_of_nil. }
  simpl.
  destruct (IH (if timer_due target u w then fire_timer u w else w))
    as (tr & -> & Htr).
  destruct (timer_due target u w); [|eauto].
  pose proof (fire_timer_fields u w) as F. cbv zeta in F.
  destruct F as (_ & _ & _ & [-> | ->] & _); [eauto|].
  rewrite <- app_assoc. eexists. split; [done|].
  intros e [->%list_elem_of_singleton | ?]%elem_of_app; auto.
Qed.

Lemma step_trace (e : event) (w : preloader) :
  ∃ tr, trace (step e w) = trace w ++ tr.
Proof.
  assert (Hnil : ∃ tr, trace w = trace w ++ tr).
  { exists []. by rewrite app_nil_r. }
  assert (Himg : ∀ u, ∃ tr,
    trace (then_resolve u (cacheImage u (update_load u set_img_fired w)))
    = trace w ++ tr).
  { intros u.
    destruct (then_resolve_trace u (cacheImage u (update_load u set_img_fired w)))
      as (tr2 & ->).
    destruct (cacheImage_trace u (update_load u set_img_fired w)) as (tr1 & ->).
    fields. rewrite <- app_assoc. eauto. }
  destruct e as [ms|u|u|u r|u r s|i]; cbn [step].
  - destruct (advance_trace ms w) as (tr & -> & _). eauto.
  - unfold image_event, onload. destruct (loads w !! u) as [l|]; [|done].
    destruct (img_fired l); [done|]. apply Himg.
  - unfold image_event, onerror. destruct (loads w !! u) as [l|]; [|done].
    destruct (img_fired l); [done|]. apply Himg.
  - destruct (phase_of w u); try done.
    destruct (then_resolve_trace u (cacheImage_response u r w)) as (tr2 & ->).
    unfold cacheImage_response, try_response.
    destruct r as [msg|status]; simpl; [rewrite <- app_assoc; eauto|].
    destruct (response_ok status); simpl; [eauto|].
    rewrite <- app_assoc; eauto.
  - destruct (phase_of w u); try done.
    destruct (then_resolve_trace u (cacheImage_body u r s w)) as (tr2 & ->).
    unfold cacheImage_body, try_body, try_put.
    destruct r as [msg|b]; [|destruct s as [m|m| |]]; simpl;
      rewrite <- ?app_assoc; eauto.
  - destruct (callbacks w !! i) as [cb|]; [|done].
    destruct (callback_ready (now w) cb); [|done].
    destruct (loadNextImages_trace (set_callbacks (delete i (callbacks w)) w))
      as (tr & ->). eauto.
Qed.

Lemma run_trace (es : list event) (w : preloader) :
  ∃ tr, trace (run es w) = trace w ++ tr.
Proof.
  revert w. induction es as [|e es IH]; intros w; simpl.
  - exists []. by rewrite app_nil_r.
  - destruct (IH (step e w)) as (tr2 & ->).
    destruct (step_trace e w) as (tr1 & ->).
    rewrite <- app_assoc. eauto.
Qed.

Lemma run_idb_no_db (es : list event) (w : preloader) :
  healthy w → db w = false → idb (run es w) = idb w.
Proof.
  revert w. induction es as [|e es IH]; intros w Hw Hd; [done|]. simpl.
  destruct (step_frame e w) as (Fdb & _ & Fidb).
  rewrite IH; [| by apply step_healthy | congruence].
  destruct Fidb as [-> | (u & b & _ & Hp & _)]; [done|].
  destruct Hw as [_ Hc]. destruct (ca_no_db w Hc Hd) as (N1 & _).
  destruct (N1 u); congruence.
Qed.

Lemma step_urls (e : event) (w : preloader) :
  orderly w → waiting w →
  preloadedUrls (step e w) = preloadedUrls w ∨ isPreloading w = false.
Proof.
  intros Hw Hwait.
  assert (Himg : ∀ u, preloadedUrls
    (then_resolve u (cacheImage u (update_load u set_img_fired w)))
    = preloadedUrls w).
  { intros u.
    pose proof (then_resolve_fields u
      (fst (cacheImage u (update_load u set_img_fired w)))
      (snd (cacheImage u (update_load u set_img_fired w)))) as F.
    cbv zeta in F. rewrite <- surjective_pairing in F.
    destruct F as (_ & _ & _ & -> & _).
    unfold cacheImage. fields. by destruct (db w). }
  destruct e as [ms|u|u|u r|u r s|i]; cbn [step].
  - left. unfold advance. fields.
    by destruct (advance_fold (now w + ms)%N (preloadedUrls w) w Hw Hwait)
      as (_ & _ & -> & _).
  - left. unfold image_event, onload. destruct (loads w !! u) as [l|]; [|done].
    destruct (img_fired l); [done|]. apply Himg.
  - left. unfold image_event, onerror. destruct (loads w !! u) as [l|]; [|done].
    destruct (img_fired l); [done|]. apply Himg.
  - left. destruct (phase_of w u); try done.
    pose proof (then_resolve_fields u (fst (cacheImage_response u r w))
      (snd (cacheImage_response u r w))) as F.
    cbv zeta in F. rewrite <- surjective_pairing in F.
    destruct F as (_ & _ & _ & -> & _).
    unfold cacheImage_response, try_response.
    destruct r as [msg|status]; [done|]. by destruct (response_ok status).
  - left. destruct (phase_of w u); try done.
    pose proof (then_resolve_fields u (fst (cacheImage_body u r s w))
      (snd (cacheImage_body u r s w))) as F.
    cbv zeta in F. rewrite <- surjective_pairing in F.
    destruct F as (_ & _ & _ & -> & _).
    unfold cacheImage_body, try_body, try_put. by destruct r, s.
  - destruct (callbacks w !! i) as [cb|]; [|by left].
    destruct (callback_ready (now w) cb); [|by left].
    unfold loadNextImages. fields.
    destruct (isPreloading w) eqn:Ei; [by left | by right].
Qed.

End Frames.

(** ** The worker: [preloadImage] *)

Section Worker.
Variables (idle : bool) (t0 : N) (store : gmap string (list Byte.byte)).
Variables (d : document) (opened : bool) (es : list event).

Let w := page_load idle t0 store d opened es.

Lemma reachable_healthy : healthy w.
Proof. apply page_load_healthy. Qed.

Lemma advance_keeps_load (ms : N) (u : url) (l : load) :
  loads w !! u = Some l →
  ∃ l', loads (step (Advance ms) w) !! u = Some l' ∧ started l' = started l.
Proof.
  intros Hl. destruct reachable_healthy as [(Ho & Hw & _) _].
  destruct (advance_fold (now w + ms)%N (preloadedUrls w) w Ho Hw)
    as (_ & _ & _ & Hf).
  specialize (Hf u). rewrite Hl in Hf.
  inversion Hf as [? l' (S & _) E1 E2|]; subst.
  exists l'. split; [|done]. simpl. unfold advance. fields. done.
Qed.

Lemma load_settles_in_time (u : url) (l : load) :
  loads w !! u = Some l →
  match outcome l with
  | Pending => timer_fired l = false ∧ (now w < started l + 30000)%N
  | Fulfilled t => (started l ≤ t ∧ t ≤ started l + 30000)%N
  | Rejected => False
  end.
Proof.
  intros Hl. destruct reachable_healthy as [(Ho & _ & Ht) _].
  pose proof (o_loads w Ho u l Hl) as Hs. unfold settled_in_time in Hs.
  destruct (outcome l); try done.
  split; [done|]. by apply (Ht u l Hl).
Qed.

End Worker.

Lemma advance_settles (idle : bool) (t0 : N)
    (store : gmap string (list Byte.byte)) (d : document) (opened : bool)
    (es : list event) (u : url) (l : load) (ms : N) :
  let w := page_load idle t0 store d opened es in
  loads w !! u = Some l →
  (started l + 30000 ≤ now w + ms)%N →
  ∃ l' t, loads (step (Advance ms) w) !! u = Some l'
          ∧ outcome l' = Fulfilled t
          ∧ (started l ≤ t ∧ t ≤ started l + 30000)%N.
Proof.
  intros w Hl Hdue.
  destruct (advance_keeps_load idle t0 store d opened es ms u l Hl)
    as (l' & Hl' & S).
  pose proof (load_settles_in_time idle t0 store d opened (es ++ [Advance ms])
                u l') as Hs.
  unfold page_load in Hs. rewrite run_snoc in Hs. specialize (Hs Hl').
  assert (Fn : now (step (Advance ms)
                      (run es (init d opened (constructed idle t0 store))))
               = (now w + ms)%N) by apply advance_frame.
  rewrite Fn, S in Hs. exists l'.
  destruct (outcome l') as [|t|]; [lia | | done].
  exists t. done.
Qed.

Lemma cacheImage_catches (v : url) (w0 : preloader) (r1 : fetch_result)
    (r2 : body_result) (s : store_answer) (f : failure) :
  fst (cacheImage v w0) ≠ Throw f
  ∧ fst (cacheImage_response v r1 w0) ≠ Throw f
  ∧ fst (cacheImage_body v r2 s w0) ≠ Throw f.
Proof.
  split_and!.
  - unfold cacheImage. by destruct (db w0).
  - unfold cacheImage_response, try_response.
    destruct r1 as [|st]; [done|]. by destruct (response_ok st).
  - unfold cacheImage_body, try_body, try_put. by destruct r2, s.
Qed.

(** C1.  From the call on, the promise of [preloadImage(url)] is pending
    for less than 30 s and then fulfilled, never rejected: a call for a
    URL already claimed returns a promise that is resolved; the promise of
    a load is, in every state of a page load, fulfilled at most 30000 ms
    after the call, or still pending with its timer yet to run and the
    clock short of the 30 s; the clock can always move on, and once it has
    moved 30000 ms past the call the promise is fulfilled whatever else
    has or has not happened; and neither [cacheImage] nor its
    continuations end by throwing. *)
Theorem preloadImage_settles (idle : bool) (t0 : N)
    (store : gmap string (list Byte.byte)) (d : document) (opened : bool)
    (es : list event) (u : url) :
  let w := page_load idle t0 store d opened es in
  (u ∈ preloadedUrls w →
     promise_state_of (snd (preloadImage u w)) (fst (preloadImage u w))
     = Fulfilled (now w))
  ∧ (∀ l, loads w !! u = Some l →
       match outcome l with
       | Pending => timer_fired l = false ∧ (now w < started l + 30000)%N
       | Fulfilled t => (started l ≤ t ∧ t ≤ started l + 30000)%N
       | Rejected => False
       end)
  ∧ (∀ ms, now (step (Advance ms) w) = (now w + ms)%N)
  ∧ (∀ l ms, loads w !! u = Some l →
       (started l + 30000 ≤ now w + ms)%N →
       ∃ l' t, loads (step (Advance ms) w) !! u = Some l'
               ∧ outcome l' = Fulfilled t
               ∧ (started l ≤ t ∧ t ≤ started l + 30000)%N)
  ∧ (∀ v w0 r1 r2 s f,
       fst (cacheImage v w0) ≠ Throw f
       ∧ fst (cacheImage_response v r1 w0) ≠ Throw f
       ∧ fst (cacheImage_body v r2 s w0) ≠ Throw f).
Proof.
  intros w. split_and!.
  - intros Hu. by rewrite (preloadImage_seen u w Hu).
  - apply load_settles_in_time.
  - intros ms. pose proof (advance_frame ms w) as F. cbv zeta in F. apply F.
  - intros l ms. apply advance_settles.
  - apply cacheImage_catches.
Qed.

Lemma preloadImage_settles_witness :
  ∃ l' t,
    loads (step (Advance 30000)
             (page_load true 0 ∅ scenario true [])) !! "a.jpg" = Some l'
    ∧ outcome l' = Fulfilled t
    ∧ (0 ≤ t ∧ t ≤ 0 + 30000)%N.
Proof.
  apply (preloadImage_settles true 0%N ∅ scenario true [] "a.jpg")
    with (l := new_load 0).
  - vm_compute. reflexivity.
  - vm_compute. discriminate.
Defined.

(** ** The scheduler: [loadNextImages] *)

Section Scheduler.

Lemma in_flight_spec (w : preloader) (u : url) :
  orderly w →
  u ∈ in_flight w ↔ ∃ l, loads w !! u = Some l ∧ outcome l = Pending.
Proof.
  intros Hw. unfold in_flight. rewrite list_elem_of_filter. simpl.
  rewrite (o_dom w Hw u). split.
  - intros [Hp [l Hl]]. rewrite Hl in Hp. exists l. split; [done|].
    by destruct (outcome l).
  - intros (l & Hl & Hp). rewrite Hl, Hp. eauto.
Qed.

Lemma in_flight_bound (w : preloader) :
  orderly w → length (in_flight w) ≤ batchSize.
Proof.
  intros Hw.
  assert (Hnd : NoDup (in_flight w)) by apply NoDup_filter, (o_nodup w Hw).
  destruct (awaiting w) as [ps|] eqn:Ea.
  - destruct (o_awaiting w Hw ps Ea) as (_ & Hlen & _).
    etrans; [|exact Hlen]. rewrite <- (length_fmap LoadPromise).
    apply submseteq_length, NoDup_submseteq.
    + apply NoDup_fmap_2; [|done]. by intros x y [=].
    + intros p (u & -> & Hu)%list_elem_of_fmap.
      apply (in_flight_spec w u Hw) in Hu as (l & Hl & Hp).
      destruct (o_pending w Hw u l Hl Hp) as (ps' & Hps' & Hin). congruence.
  - destruct (in_flight w) as [|u rest] eqn:E; [simpl; lia|]. exfalso.
    assert (Hu : u ∈ in_flight w) by (rewrite E; left).
    apply (in_flight_spec w u Hw) in Hu as (l & Hl & Hp).
    destruct (o_pending w Hw u l Hl Hp) as (ps' & Hps' & _). congruence.
Qed.

Lemma guard_iff_in_flight (w : preloader) :
  orderly w → waiting w → (isPreloading w = true ↔ in_flight w ≠ []).
Proof.
  intros Hw Hwait. split.
  - intros Hi. destruct (awaiting w) as [ps|] eqn:Ea.
    + destruct (promise_all_pending w ps (Hwait ps Ea)) as (u & Hin & Hp).
      destruct (o_awaiting w Hw ps Ea) as (_ & _ & Hload).
      destruct (Hload u Hin) as [l Hl]. simpl in Hp. rewrite Hl in Hp.
      assert (Hu : u ∈ in_flight w).
      { apply in_flight_spec; [done|]. exists l. split; [done|].
        by destruct (outcome l). }
      intros E. rewrite E in Hu. by apply elem_of_nil in Hu.
    + pose proof (o_idle w Hw Ea). congruence.
  - intros Hne. destruct (isPreloading w) eqn:Ei; [done|]. exfalso.
    destruct (idle_not_awaiting w Hw Ei) as [_ Hnp].
    destruct (in_flight w) as [|u rest] eqn:E; [done|].
    assert (Hu : u ∈ in_flight w) by (rewrite E; left).
    apply (in_flight_spec w u Hw) in Hu as (l & Hl & Hp).
    by apply (Hnp u l).
Qed.

Lemma finishBatch_callbacks (w : preloader) :
  callbacks (finishBatch w)
  = callbacks w ++ rescheduled (hasIdle w) (now w) (preloadingQueue w).
Proof.
  destruct w as [? i ? ? ? ? q ? ? ? ?]. unfold finishBatch, rescheduled. cbn.
  destruct q, i; cbn; by rewrite ?app_nil_r.
Qed.

Lemma resumeBatch_cases (w : preloader) (ps : list promise) :
  awaiting w = Some ps →
  (promise_all w ps = AllPending → resumeBatch w = w)
  ∧ (promise_all w ps = AllFulfilled →
       isPreloading (resumeBatch w) = false
       ∧ awaiting (resumeBatch w) = None
       ∧ preloadingQueue (resumeBatch w) = preloadingQueue w
       ∧ callbacks (resumeBatch w)
         = callbacks w ++ rescheduled (hasIdle w) (now w) (preloadingQueue w)).
Proof.
  intros Ea. unfold resumeBatch. rewrite Ea. split; intros ->; [done|].
  pose proof (finishBatch_fields (set_awaiting None w)) as F. cbv zeta in F.
  destruct F as (_ & _ & _ & _ & _ & _ & ? & ? & _ & ?).
  rewrite finishBatch_callbacks. done.
Qed.

Lemma loadNextImages_unfold (w : preloader) :
  isPreloading w = false → preloadingQueue w ≠ [] →
  let r := map_preloadImage (take batchSize (preloadingQueue w))
             (set_preloadingQueue (drop batchSize (preloadingQueue w))
                (set_isPreloading true w)) in
  loadNextImages w = resumeBatch (set_awaiting (Some (fst r)) (snd r)).
Proof.
  intros Ei Hq. unfold loadNextImages. rewrite Ei.
  destruct (length (preloadingQueue w) =? 0) eqn:E.
  { apply Nat.eqb_eq in E. by destruct (preloadingQueue w). }
  cbv zeta. cbn [orb preloadingQueue set_isPreloading].
  by destruct (map_preloadImage _ _).
Qed.

Lemma loadNextImages_dispatch (w : preloader) :
  sound w → isPreloading w = false → preloadingQueue w ≠ [] →
  let w' := loadNextImages w in
  let batch := take 4 (preloadingQueue w) in
  preloadingQueue w' = drop 4 (preloadingQueue w)
  ∧ preloadedUrls w' = foldl set_add (preloadedUrls w) batch
  ∧ (∀ u, u ∈ batch → u ∉ preloadedUrls w →
       loads w' !! u = Some (new_load (now w)))
  ∧ (∀ u, u ∈ in_flight w' ↔ u ∈ batch ∧ u ∉ preloadedUrls w)
  ∧ (in_flight w' ≠ [] →
       isPreloading w' = true ∧ callbacks w' = callbacks w)
  ∧ (in_flight w' = [] →
       isPreloading w' = false
       ∧ callbacks w'
         = callbacks w
           ++ rescheduled (hasIdle w) (now w) (drop 4 (preloadingQueue w))).
Proof.
  intros Hs Ei Hq. pose proof (loadNextImages_sound w Hs) as (Ho' & Hw' & _).
  destruct Hs as (Hw & Hwait & Ht).
  destruct (idle_not_awaiting w Hw Ei) as [Ha Hnp].
  pose proof (guard_iff_in_flight _ Ho' Hw') as Hguard.
  pose proof (in_flight_spec (loadNextImages w)) as Hfl.
  pose proof (o_no_batch_error _ Ho') as Hnb.
  cbv zeta. fold batchSize.
  rewrite (loadNextImages_unfold w Ei Hq) in *. clear Hw'.
  set (batch := take batchSize (preloadingQueue w)) in *.
  set (w2 := set_preloadingQueue _ _) in *.
  pose proof (map_preloadImage_frame batch w2) as F.
  pose proof (map_preloadImage_loads batch w2 (o_dom w Hw)) as L.
  destruct (map_preloadImage batch w2) as [ps w3]. cbn [fst snd] in *.
  cbv zeta in F.
  destruct F as (_ & Fnow & Fidle & _ & _ & Fq & Fi & _ & Fcb & Fp & _).
  destruct L as [Ll Lp].
  pose proof (resumeBatch_fields (set_awaiting (Some ps) w3)) as R.
  cbv zeta in R. destruct R as (_ & _ & _ & _ & Rp & Rq & Rl & _).
  destruct (resumeBatch_cases (set_awaiting (Some ps) w3) ps eq_refl)
    as [Cpend Cfull].
  unfold w2 in *. fields. clear w2.
  set (w' := resumeBatch (set_awaiting (Some ps) w3)) in *.
  assert (Hflight : ∀ u, u ∈ in_flight w' ↔ u ∈ batch ∧ u ∉ preloadedUrls w).
  { intros u. rewrite (Hfl u Ho'), Rl, Ll, (o_dom w Hw u).
    destruct (loads w !! u) as [l|] eqn:Eu.
    - split.
      + intros (l' & [= <-] & Hp). by destruct (Hnp u l Eu).
      + intros [_ Hn]. destruct Hn. eauto.
    - destruct (decide (u ∈ batch)); split.
      + intros _. split; [done|]. by intros [? ?].
      + intros _. eauto.
      + by intros (? & ? & _).
      + by intros [? _]. }
  assert (Hcases : (isPreloading w' = true ∧ callbacks w' = callbacks w)
    ∨ (isPreloading w' = false
       ∧ callbacks w' = callbacks w
           ++ rescheduled (hasIdle w) (now w)
                (drop batchSize (preloadingQueue w)))).
  { destruct (promise_all (set_awaiting (Some ps) w3) ps) eqn:Eall.
    - left. rewrite (Cpend eq_refl). fields. split; congruence.
    - right. destruct (Cfull eq_refl) as (C1 & _ & _ & C4).
      split; [done|]. rewrite C4. fields. congruence.
    - exfalso. apply Hnb. unfold w', resumeBatch. fields. rewrite Eall.
      pose proof (finishBatch_fields
        (emit (ConsoleLog BatchPreloadError)
           (set_awaiting None (set_awaiting (Some ps) w3)))) as G.
      cbv zeta in G. destruct G as (_ & _ & _ & -> & _). fields.
      apply elem_of_app. right. left. }
  split_and!.
  - by rewrite Rq, Fq.
  - by rewrite Rp, Fp.
  - intros u Hb Hu. rewrite Rl, Ll.
    destruct (loads w !! u) eqn:Eu.
    + destruct Hu. apply (o_dom w Hw). eauto.
    + by rewrite decide_True.
  - exact Hflight.
  - intros Hne. apply Hguard in Hne.
    destruct Hcases as [[? ?] | [? ?]]; [done | congruence].
  - intros He. destruct Hcases as [[Hi ?] | [? ?]]; [|done].
    apply Hguard in Hi. done.
Qed.

End Scheduler.

Lemma init_first_batch (idle : bool) (t0 : N)
    (store : gmap string (list Byte.byte)) (d : document) (opened : bool) :
  let w := page_load idle t0 store d opened [] in
  preloadedUrls w = new_Set (take 4 (build_queue d))
  ∧ preloadingQueue w = drop 4 (build_queue d)
  ∧ (isPreloading w = true ↔ build_queue d ≠ []).
Proof.
  unfold page_load, init, startPreloading. cbn [run foldl].
  set (w1 := set_preloadingQueue _ _).
  assert (Hs : sound w1).
  { pose proof (constructed_sound idle t0 store) as (H1 & H2 & H3).
    apply (cosmetic_orderly (constructed idle t0 store)); try done.
    apply cosmetic_queue. destruct opened.
    - apply cosmetic_db, cosmetic_refl.
    - apply cosmetic_emit; [apply cosmetic_refl | done]. }
  assert (Hi : isPreloading w1 = false) by (unfold w1; by destruct opened).
  assert (Hp : preloadedUrls w1 = []) by (unfold w1; by destruct opened).
  assert (Hq : preloadingQueue w1 = build_queue d) by done.
  assert (Hl : ∀ u, loads w1 !! u = None).
  { intros u. unfold w1. by destruct opened. }
  clearbody w1.
  destruct (build_queue d) as [|u q] eqn:E.
  { assert (E1 : loadNextImages w1 = w1).
    { unfold loadNextImages. by rewrite Hi, Hq. }
    rewrite E1, Hp, Hq, Hi. split_and!; [done | done |]. split; done. }
  assert (Hne : preloadingQueue w1 ≠ []) by (by rewrite Hq).
  pose proof (loadNextImages_dispatch w1 Hs Hi Hne) as D. cbv zeta in D.
  destruct D as (D1 & D2 & D3 & D4 & D5 & _).
  rewrite D1, D2, Hp, Hq. split_and!; [done | done |].
  split; [done|]. intros _. apply D5.
  assert (u ∈ in_flight (loadNextImages w1)) as Hin; [|by intros E'; rewrite E' in Hin; apply elem_of_nil in Hin].
  apply D4. rewrite Hp, Hq. split; [left | apply not_elem_of_nil].
Qed.

(** C6.  [loadNextImages] does nothing while a batch is in progress or
    when the queue is empty.  Otherwise it takes up to 4 URLs off the
    front of the queue and calls [preloadImage] on each before anything
    else happens (the loads it starts all begin at the same instant); the
    guard [isPreloading] is set exactly as long as one of them is
    unsettled; [loadNextImages] resumes when all of them are settled, and
    then clears the guard and, if the queue is not empty, leaves one
    callback: an idle callback when [requestIdleCallback] exists, a
    timeout 100 ms later otherwise.  That callback runs [loadNextImages]
    again.  The dispatch is the same from every sound state, not only
    from those a page load reaches, and the call made by
    [startPreloading] takes the first 4 URLs of the queue. *)
Theorem loadNextImages_drains (idle : bool) (t0 : N)
    (store : gmap string (list Byte.byte)) (d : document) (opened : bool)
    (es : list event) :
  let w := page_load idle t0 store d opened es in
  let w' := loadNextImages w in
  let batch := take 4 (preloadingQueue w) in
  (isPreloading w = true ∨ preloadingQueue w = [] → w' = w)
  ∧ (isPreloading w = false → preloadingQueue w ≠ [] →
       preloadingQueue w' = drop 4 (preloadingQueue w)
       ∧ preloadedUrls w' = foldl set_add (preloadedUrls w) batch
       ∧ (∀ u, u ∈ batch → u ∉ preloadedUrls w →
            loads w' !! u = Some (new_load (now w)))
       ∧ (∀ u, u ∈ in_flight w' ↔ u ∈ batch ∧ u ∉ preloadedUrls w)
       ∧ (in_flight w' ≠ [] →
            isPreloading w' = true ∧ callbacks w' = callbacks w)
       ∧ (in_flight w' = [] →
            isPreloading w' = false
            ∧ callbacks w'
              = callbacks w
                ++ rescheduled idle (now w) (drop 4 (preloadingQueue w))))
  ∧ (isPreloading w = true ↔ in_flight w ≠ [])
  ∧ (∀ w0 ps, awaiting w0 = Some ps →
       (promise_all w0 ps = AllPending → resumeBatch w0 = w0)
       ∧ (promise_all w0 ps = AllFulfilled →
            isPreloading (resumeBatch w0) = false
            ∧ awaiting (resumeBatch w0) = None
            ∧ preloadingQueue (resumeBatch w0) = preloadingQueue w0
            ∧ callbacks (resumeBatch w0)
              = callbacks w0
                ++ rescheduled (hasIdle w0) (now w0) (preloadingQueue w0)))
  ∧ (∀ i cb, callbacks w !! i = Some cb → callback_ready (now w) cb = true →
       step (CallbackRun i) w
       = loadNextImages (set_callbacks (delete i (callbacks w)) w))
  ∧ (∀ w0, sound w0 → isPreloading w0 = false → preloadingQueue w0 ≠ [] →
       let w1 := loadNextImages w0 in
       let batch0 := take 4 (preloadingQueue w0) in
       preloadingQueue w1 = drop 4 (preloadingQueue w0)
       ∧ preloadedUrls w1 = foldl set_add (preloadedUrls w0) batch0
       ∧ (∀ u, u ∈ batch0 → u ∉ preloadedUrls w0 →
            loads w1 !! u = Some (new_load (now w0)))
       ∧ (∀ u, u ∈ in_flight w1 ↔ u ∈ batch0 ∧ u ∉ preloadedUrls w0)
       ∧ (in_flight w1 ≠ [] →
            isPreloading w1 = true ∧ callbacks w1 = callbacks w0)
       ∧ (in_flight w1 = [] →
            isPreloading w1 = false
            ∧ callbacks w1
              = callbacks w0
                ++ rescheduled (hasIdle w0) (now w0)
                     (drop 4 (preloadingQueue w0))))
  ∧ (let w0 := page_load idle t0 store d opened [] in
     preloadedUrls w0 = new_Set (take 4 (build_queue d))
     ∧ preloadingQueue w0 = drop 4 (build_queue d)
     ∧ (isPreloading w0 = true ↔ build_queue d ≠ [])).
Proof.
  intros w w' batch.
  destruct (page_load_healthy idle t0 store d opened es) as [Hs _].
  destruct (page_load_db idle t0 store d opened es) as [_ Hidle].
  fold w in Hs, Hidle. split_and!.
  - intros [Hi | Hq]; unfold w', loadNextImages.
    + by rewrite Hi.
    + rewrite Hq. simpl. by rewrite orb_true_r.
  - intros Hi Hq. rewrite <- Hidle. by apply loadNextImages_dispatch.
  - destruct Hs as (Ho & Hw & _). by apply guard_iff_in_flight.
  - apply resumeBatch_cases.
  - intros i cb Hcb Hready. simpl. by rewrite Hcb, Hready.
  - intros w0 Hs0 Hi Hq. by apply loadNextImages_dispatch.
  - apply init_first_batch.
Qed.

Lemma loadNextImages_drains_witness :
  let w := page_load true 0 ∅ gallery_page true [Advance 30000] in
  let w' := loadNextImages w in
  let batch := take 4 (preloadingQueue w) in
  preloadingQueue w' = drop 4 (preloadingQueue w)
  ∧ preloadedUrls w' = foldl set_add (preloadedUrls w) batch
  ∧ (∀ u, u ∈ batch → u ∉ preloadedUrls w →
       loads w' !! u = Some (new_load (now w)))
  ∧ (∀ u, u ∈ in_flight w' ↔ u ∈ batch ∧ u ∉ preloadedUrls w)
  ∧ (in_flight w' ≠ [] →
       isPreloading w' = true ∧ callbacks w' = callbacks w)
  ∧ (in_flight w' = [] →
       isPreloading w' = false
       ∧ callbacks w'
         = callbacks w
           ++ rescheduled true (now w) (drop 4 (preloadingQueue w))).
Proof.
  intros w.
  assert (Hi : isPreloading w = false) by (vm_compute; reflexivity).
  assert (Hq : preloadingQueue w ≠ []) by (vm_compute; discriminate).
  exact (proj1 (proj2 (loadNextImages_drains true 0%N ∅ gallery_page true
                         [Advance 30000])) Hi Hq).
Defined.

(** C7.  In every state of a page load at most 4 loads are started and
    not settled, and an event starts a load only when none is in that
    state: the loads of one batch are all settled before any load of the
    next begins. *)
Theorem at_most_four_in_flight (idle : bool) (t0 : N)
    (store : gmap string (list Byte.byte)) (d : document) (opened : bool)
    (es : list event) :
  let w := page_load idle t0 store d opened es in
  length (in_flight w) ≤ 4
  ∧ (∀ e u, u ∈ preloadedUrls (step e w) → u ∉ preloadedUrls w →
       in_flight w = [])
  ∧ in_flight (constructed idle t0 store) = [].
Proof.
  intros w.
  destruct (page_load_healthy idle t0 store d opened es) as [(Ho & Hw & _) _].
  fold w in Ho, Hw. split_and!.
  - by apply in_flight_bound.
  - intros e u Hin Hnot.
    destruct (step_urls e w Ho Hw) as [E | Hi]; [congruence|].
    destruct (in_flight w) as [|v rest] eqn:Ev; [done|].
    assert (isPreloading w = true); [|congruence].
    apply (guard_iff_in_flight w Ho Hw). by rewrite Ev.
  - done.
Qed.

Lemma at_most_four_in_flight_witness :
  let w := page_load true 0 ∅ scenario true
             [ImageLoaded "a.jpg"; FetchSettled "a.jpg" (Response 200);
              BodySettled "a.jpg" (Body []) PutSucceeds; Advance 30000] in
  length (in_flight w) ≤ 4.
Proof.
  exact (proj1 (at_most_four_in_flight true 0%N ∅ scenario true
                  [ImageLoaded "a.jpg"; FetchSettled "a.jpg" (Response 200);
                   BodySettled "a.jpg" (Body []) PutSucceeds; Advance 30000])).
Defined.

(** ** Caching, as seen from a page load *)

Section PageLoad.
Variables (idle : bool) (t0 : N) (store : gmap string (list Byte.byte)).
Variables (d : document) (opened : bool) (es : list event).

Let w := page_load idle t0 store d opened es.

Lemma step_no_batch_error (e : event) :
  ConsoleLog BatchPreloadError ∉ trace (step e w).
Proof.
  destruct (step_healthy e w (page_load_healthy idle t0 store d opened es))
    as [(Ho & _) _].
  apply (o_no_batch_error _ Ho).
Qed.

Lemma then_resolve_exact_trace (e : event) (u : url) (st : stretch)
    (w1 : preloader) :
  step e w = then_resolve u (st, w1) →
  trace (step e w) = trace w1.
Proof.
  intros E. pose proof (step_no_batch_error e) as Hnb. rewrite E in *.
  pose proof (then_resolve_fields u st w1) as F. cbv zeta in F.
  destruct F as (_ & _ & _ & _ & [Ft | Ft] & _); [done|].
  destruct Hnb. rewrite Ft. apply elem_of_app. right. left.
Qed.

Lemma phase_has_load (u : url) :
  phase_of w u ≠ CacheIdle →
  ∃ l, loads w !! u = Some l ∧ caching l = phase_of w u.
Proof.
  unfold phase_of. destruct (loads w !! u) as [l|]; [eauto | done].
Qed.

Lemma response_ok_awaits_body (u : url) (s : N) :
  phase_of w u = AwaitResponse → response_ok s = true →
  let w1 := step (FetchSettled u (Response s)) w in
  phase_of w1 u = AwaitBody ∧ trace w1 = trace w ∧ idb w1 = idb w.
Proof.
  intros Hp Hok. cbn [step]. rewrite Hp.
  unfold cacheImage_response, try_response. rewrite Hok.
  cbn [catch_log then_resolve]. split_and!; try done.
  destruct (phase_has_load u) as (l & Hl & _); [congruence|].
  unfold phase_of. fields. rewrite lookup_alter_eq, Hl. done.
Qed.

Lemma fetch_failure_local (u : url) (r : fetch_result) (f : failure) :
  phase_of w u = AwaitResponse → failed_response r = Some f →
  let w' := step (FetchSettled u r) w in
  is_pending (promise_state_of w' (LoadPromise u)) = false
  ∧ puts_of u w' = 0 ∧ idb w' = idb w
  ∧ trace w' = trace w ++ [ConsoleLog (FailedToCache u f)].
Proof.
  intros Hp Hf w'.
  destruct (phase_has_load u) as (l & Hl & Hc); [congruence|].
  set (w1 := emit (ConsoleLog (FailedToCache u f)) w).
  assert (E : w' = then_resolve u (Return, w1)).
  { unfold w'. cbn [step]. rewrite Hp. unfold cacheImage_response, try_response.
    destruct r as [msg|s]; cbn [failed_response] in Hf.
    - by injection Hf as <-.
    - destruct (response_ok s); [done|]. by injection Hf as <-. }
  assert (Ht : trace w' = trace w ++ [ConsoleLog (FailedToCache u f)]).
  { unfold w'. by rewrite (then_resolve_exact_trace _ u Return _ E). }
  pose proof (then_resolve_fields u Return w1) as F. cbv zeta in F.
  rewrite <- E in F. destruct F as (_ & _ & Fi & _ & _ & Fl).
  destruct (page_load_healthy idle t0 store d opened es) as [_ Hca].
  split_and!; [| |done|done].
  - cbn [promise_state_of]. rewrite Fl. unfold w1. fields.
    rewrite lookup_alter_eq, Hl. cbn [fmap option_fmap option_map].
    pose proof (finish_fields Return (now w) l) as (_ & _ & _ & Qr & _).
    specialize (Qr eq_refl).
    by destruct (outcome (finish Return (now w) l)).
  - unfold puts_of. rewrite Ht. fold (count_puts u (trace w ++ [ConsoleLog (FailedToCache u f)])).
    rewrite count_puts_app.
    assert (puts_of u w = 0) as P0.
    { apply (puts_of_zero w u l); [done | done | congruence]. }
    unfold puts_of in P0. fold (count_puts u (trace w)) in P0. by rewrite P0.
Qed.

Lemma body_failure_local (u : url) (msg : string) (s : store_answer) :
  phase_of w u = AwaitBody →
  let w' := step (BodySettled u (BodyRejected msg) s) w in
  is_pending (promise_state_of w' (LoadPromise u)) = false
  ∧ puts_of u w' = 0 ∧ idb w' = idb w
  ∧ trace w' = trace w ++ [ConsoleLog (FailedToCache u (BodyFailed msg))].
Proof.
  intros Hp w'.
  destruct (phase_has_load u) as (l & Hl & Hc); [congruence|].
  set (w1 := emit (ConsoleLog (FailedToCache u (BodyFailed msg))) w).
  assert (E : w' = then_resolve u (Return, w1)).
  { unfold w'. cbn [step]. by rewrite Hp. }
  assert (Ht : trace w' = trace w ++ [ConsoleLog (FailedToCache u (BodyFailed msg))]).
  { unfold w'. by rewrite (then_resolve_exact_trace _ u Return _ E). }
  pose proof (then_resolve_fields u Return w1) as F. cbv zeta in F.
  rewrite <- E in F. destruct F as (_ & _ & Fi & _ & _ & Fl).
  destruct (page_load_healthy idle t0 store d opened es) as [_ Hca].
  split_and!; [| |done|done].
  - cbn [promise_state_of]. rewrite Fl. unfold w1. fields.
    rewrite lookup_alter_eq, Hl. cbn [fmap option_fmap option_map].
    pose proof (finish_fields Return (now w) l) as (_ & _ & _ & Qr & _).
    specialize (Qr eq_refl).
    by destruct (outcome (finish Return (now w) l)).
  - unfold puts_of. rewrite Ht.
    fold (count_puts u (trace w ++ [ConsoleLog (FailedToCache u (BodyFailed msg))])).
    rewrite count_puts_app.
    assert (puts_of u w = 0) as P0.
    { apply (puts_of_zero w u l); [done | done | congruence]. }
    unfold puts_of in P0. fold (count_puts u (trace w)) in P0. by rewrite P0.
Qed.

Lemma no_store_no_caching :
  opened = false →
  db w = false ∧ idb w = store
  ∧ (∀ u, FetchRequest u ∉ trace w)
  ∧ (∀ u b, StorePut u b ∉ trace w)
  ∧ (∀ u, puts_of u w = 0).
Proof.
  intros ->. destruct (page_load_db idle t0 store d false es) as [Hd _].
  destruct (page_load_healthy idle t0 store d false es) as [_ Hc].
  destruct (init_healthy idle t0 store d false) as (Hi & Hdi & _ & Hs).
  destruct (ca_no_db _ Hc Hd) as (_ & N2 & N3).
  split_and!; try done.
  - unfold w, page_load. rewrite run_idb_no_db; done.
  - intros u. apply count_puts_zero. intros b. apply N3.
Qed.

Lemma timeout_local (u : url) (l : load) (ms : N) :
  loads w !! u = Some l → outcome l = Pending →
  (started l + 30000 ≤ now w + ms)%N →
  let w' := step (Advance ms) w in
  is_pending (promise_state_of w' (LoadPromise u)) = false
  ∧ puts_of u w' = 0 ∧ idb w' = idb w.
Proof.
  intros Hl Hp Hdue w'.
  destruct (advance_settles idle t0 store d opened es u l ms Hl Hdue)
    as (l' & t & Hl' & Ho & _).
  destruct (page_load_healthy idle t0 store d opened es) as [_ Hca].
  split_and!.
  - cbn [promise_state_of]. unfold w'. fold w in Hl'. by rewrite Hl', Ho.
  - destruct (advance_trace ms w) as (tr & Htr & Hq).
    unfold puts_of, w'. cbn [step]. rewrite Htr.
    fold (count_puts u (trace w ++ tr)). rewrite count_puts_app.
    assert (count_puts u tr = 0) as ->.
    { apply count_puts_zero. intros b Hb. by apply Hq in Hb. }
    rewrite Nat.add_0_r. destruct (count_puts u (trace w)) eqn:E; [done|].
    destruct (ca_put_done w Hca u) as [_ Hn].
    { unfold puts_of. fold (count_puts u (trace w)). lia. }
    cbn [promise_state_of] in Hn. rewrite Hl, Hp in Hn. done.
  - pose proof (advance_frame ms w) as F. cbv zeta in F. apply F.
Qed.

End PageLoad.

(** C10.  Without a store handle [cacheImage] returns at once and leaves
    everything as it was: no fetch, no write.  With one it starts by
    issuing the fetch.  Accordingly a page load whose store failed to open
    never fetches for caching and never writes, and the store stays as it
    was found. *)
Theorem cacheImage_without_store (w : preloader) (u : url) :
  (db w = false → cacheImage u w = (Return, w))
  ∧ (db w = true →
       cacheImage u w = (Suspend AwaitResponse, emit (FetchRequest u) w))
  ∧ (∀ idle t0 store d es,
       let p := page_load idle t0 store d false es in
       db p = false ∧ idb p = store
       ∧ (∀ v, FetchRequest v ∉ trace p)
       ∧ (∀ v b, StorePut v b ∉ trace p))
  ∧ (∀ idle t0 store d es, db (page_load idle t0 store d true es) = true).
Proof.
  split_and!.
  - intros Hd. unfold cacheImage. by rewrite Hd.
  - intros Hd. unfold cacheImage. by rewrite Hd.
  - intros idle t0 store d es p.
    destruct (no_store_no_caching idle t0 store d false es eq_refl)
      as (? & ? & ? & ? & _).
    done.
  - intros idle t0 store d es. apply page_load_db.
Qed.

Lemma cacheImage_without_store_witness :
  cacheImage "a.jpg" (constructed true 0 ∅) = (Return, constructed true 0 ∅).
Proof.
  exact (proj1 (cacheImage_without_store (constructed true 0 ∅) "a.jpg") eq_refl).
Defined.

(** C5.  No failure of the processing of one URL goes beyond the worker:
    [cacheImage] catches what its fetch and its body read throw, no
    promise is ever rejected and the batch-level handler never runs.  A
    store that did not open, a failed fetch, a non-2xx status, a failed
    body read and the timeout each leave the promise settled with no
    [store.put] made for the URL; the fetch and body failures are logged.
    An error event of the image is handled exactly as its load event, so
    it alone does not keep the URL from being cached. *)
Theorem worker_failures_stay_local (idle : bool) (t0 : N)
    (store : gmap string (list Byte.byte)) (d : document) (opened : bool)
    (es : list event) (u : url) :
  let w := page_load idle t0 store d opened es in
  (∀ v w0 r1 r2 s f,
     fst (cacheImage v w0) ≠ Throw f
     ∧ fst (cacheImage_response v r1 w0) ≠ Throw f
     ∧ fst (cacheImage_body v r2 s w0) ≠ Throw f)
  ∧ (∀ l, loads w !! u = Some l → outcome l ≠ Rejected)
  ∧ (ConsoleLog BatchPreloadError ∉ trace w)
  ∧ (opened = false →
       puts_of u w = 0 ∧ idb w = store ∧ FetchRequest u ∉ trace w)
  ∧ (∀ r f, phase_of w u = AwaitResponse → failed_response r = Some f →
       let w' := step (FetchSettled u r) w in
       is_pending (promise_state_of w' (LoadPromise u)) = false
       ∧ puts_of u w' = 0 ∧ idb w' = idb w
       ∧ trace w' = trace w ++ [ConsoleLog (FailedToCache u f)])
  ∧ (∀ msg s, phase_of w u = AwaitBody →
       let w' := step (BodySettled u (BodyRejected msg) s) w in
       is_pending (promise_state_of w' (LoadPromise u)) = false
       ∧ puts_of u w' = 0 ∧ idb w' = idb w
       ∧ trace w' = trace w ++ [ConsoleLog (FailedToCache u (BodyFailed msg))])
  ∧ (∀ l ms, loads w !! u = Some l → outcome l = Pending →
       (started l + 30000 ≤ now w + ms)%N →
       let w' := step (Advance ms) w in
       is_pending (promise_state_of w' (LoadPromise u)) = false
       ∧ puts_of u w' = 0 ∧ idb w' = idb w)
  ∧ step (ImageFailed u) w = step (ImageLoaded u) w.
Proof.
  intros w.
  destruct (page_load_healthy idle t0 store d opened es) as [(Ho & _ & _) _].
  split_and!.
  - apply cacheImage_catches.
  - intros l Hl Hr. pose proof (o_loads _ Ho u l Hl) as Hs.
    unfold settled_in_time in Hs. by rewrite Hr in Hs.
  - apply (o_no_batch_error _ Ho).
  - intros Hop.
    destruct (no_store_no_caching idle t0 store d opened es Hop)
      as (_ & ? & ? & _ & Hz).
    split_and!; [apply Hz | done | done].
  - intros r f. apply fetch_failure_local.
  - intros msg s. apply body_failure_local.
  - intros l ms. apply timeout_local.
  - reflexivity.
Qed.

Lemma worker_failures_stay_local_witness :
  let w := page_load true 0 ∅ scenario true [ImageLoaded "a.jpg"] in
  let w' := step (FetchSettled "a.jpg" (Response 404)) w in
  is_pending (promise_state_of w' (LoadPromise "a.jpg")) = false
  ∧ puts_of "a.jpg" w' = 0 ∧ idb w' = idb w
  ∧ trace w' = trace w ++ [ConsoleLog (FailedToCache "a.jpg" (HttpError 404))].
Proof.
  intros w.
  assert (H : phase_of w "a.jpg" = AwaitResponse) by (vm_compute; reflexivity).
  exact (proj1 (proj2 (proj2 (proj2 (proj2
           (worker_failures_stay_local true 0%N ∅ scenario true
              [ImageLoaded "a.jpg"] "a.jpg")))))
           (Response 404) (HttpError 404) H eq_refl).
Defined.

(** The image of [a.jpg] fails to load; the worker fetches it all the
    same and the bytes end up in the store. *)
Lemma failed_image_is_cached :
  let w := page_load true 0 ∅ scenario true
             [ImageFailed "a.jpg"; FetchSettled "a.jpg" (Response 200);
              BodySettled "a.jpg" (Body [Byte.x2a]) PutSucceeds] in
  StorePut "a.jpg" [Byte.x2a] ∈ trace w
  ∧ idb w !! "a.jpg" = Some [Byte.x2a]
  ∧ puts_of "a.jpg" w = 1
  ∧ promise_state_of w (LoadPromise "a.jpg") = Fulfilled 0.
Proof.
  assert (E : trace (page_load true 0 ∅ scenario true
             [ImageFailed "a.jpg"; FetchSettled "a.jpg" (Response 200);
              BodySettled "a.jpg" (Body [Byte.x2a]) PutSucceeds])
            = [ImageRequest "a.jpg"; ImageRequest "b.png"; ImageRequest "c.webp";
               FetchRequest "a.jpg"; StorePut "a.jpg" [Byte.x2a]])
    by (vm_compute; reflexivity).
  intros w. split_and!.
  - unfold w. rewrite E. do 4 right. left.
  - vm_compute. reflexivity.
  - vm_compute. reflexivity.
  - vm_compute. reflexivity.
Qed.

(** ** The queue and the set of claimed URLs *)

(** C2.  The queue holds exactly the discovered URLs.  A URL that no
    image element in the viewport carries is in it once; a URL carried by
    image elements in the viewport is in it once for each of them.  So the
    queue is free of duplicates exactly when no two image elements in the
    viewport share a source.  A repeated URL is stopped at [preloadImage]:
    [preloadedUrls] never holds a URL twice. *)
Theorem queue_occurrences (d : document) :
  (∀ u, u ∈ build_queue d ↔ u ∈ getAllImageUrls d)
  ∧ (∀ u, u ∉ getVisibleImageUrls d →
       occurrences u (build_queue d)
       = if decide (u ∈ getAllImageUrls d) then 1 else 0)
  ∧ (∀ u, u ∈ getVisibleImageUrls d →
       occurrences u (build_queue d)
       = length (filter (λ el, img_src el = u) (visible_elements d)))
  ∧ (NoDup (build_queue d) ↔ NoDup (getVisibleImageUrls d))
  ∧ (∀ idle t0 store opened es,
       NoDup (preloadedUrls (page_load idle t0 store d opened es))).
Proof.
  split_and!.
  - intros u. unfold build_queue. rewrite elem_of_app, offscreen_elem.
    split.
    + intros [H | [H _]]; [by apply visible_discovered | done].
    + intros H. destruct (decide (u ∈ getVisibleImageUrls d)); auto.
  - intros u Hu. unfold build_queue. rewrite occurrences_app.
    rewrite (occurrences_NoDup u (offScreenImages d)) by apply offscreen_NoDup.
    assert (occurrences u (getVisibleImageUrls d) = 0) as ->.
    { pose proof (occurrences_pos u (getVisibleImageUrls d)). 
      destruct (occurrences u (getVisibleImageUrls d)); [done|].
      exfalso. apply Hu, H. lia. }
    simpl. destruct (decide (u ∈ getAllImageUrls d)) as [Hd|Hd].
    + rewrite decide_True; [done|]. by apply offscreen_elem.
    + rewrite decide_False; [done|]. intros [? _]%offscreen_elem. done.
  - intros u Hu. unfold build_queue. rewrite occurrences_app.
    rewrite (occurrences_NoDup u (offScreenImages d)) by apply offscreen_NoDup.
    rewrite decide_False by (intros [_ ?]%offscreen_elem; done).
    rewrite Nat.add_0_r. apply occurrences_fmap.
  - unfold build_queue. rewrite NoDup_app. split; [tauto|].
    intros Hv. split_and!; [done | | apply offscreen_NoDup].
    intros x Hx [_ Hno]%offscreen_elem. done.
  - intros idle t0 store opened es.
    destruct (page_load_healthy idle t0 store d opened es) as [(Ho & _) _].
    apply (o_nodup _ Ho).
Qed.

(** Two image elements in the viewport with the same source. *)
Lemma twin_page_queue_repeats :
  build_queue twin_page = ["a.jpg"; "a.jpg"] ∧ ¬ NoDup (build_queue twin_page).
Proof.
  assert (E : build_queue twin_page = ["a.jpg"; "a.jpg"]) by (vm_compute; reflexivity).
  split; [exact E|]. rewrite E. intros H.
  apply NoDup_cons in H as [H _]. apply H. left.
Qed.

(** ** Two runs, step by step *)

Example queue_of_scenario :
  getAllImageUrls scenario = ["a.jpg"; "b.png"; "c.webp"]
  ∧ getVisibleImageUrls scenario = ["a.jpg"]
  ∧ offScreenImages scenario = ["b.png"; "c.webp"]
  ∧ build_queue scenario = ["a.jpg"; "b.png"; "c.webp"].
Proof. vm_compute. repeat split. Qed.

Example gallery_first_batch :
  let w := page_load false 0 ∅ gallery_page true [] in
  in_flight w = ["1.jpg"; "2.jpg"; "3.jpg"; "4.jpg"]
  ∧ preloadingQueue w = ["5.jpg"; "6.jpg"]
  ∧ isPreloading w = true
  ∧ callbacks w = [].
Proof. vm_compute. repeat split. Qed.

Example gallery_barrier :
  let w := page_load false 0 ∅ gallery_page false
             [ImageLoaded "1.jpg"; ImageFailed "2.jpg"; ImageLoaded "3.jpg";
              Advance 500; CallbackRun 0] in
  in_flight w = ["4.jpg"]
  ∧ preloadingQueue w = ["5.jpg"; "6.jpg"]
  ∧ isPreloading w = true
  ∧ callbacks w = [].
Proof. vm_compute. repeat split. Qed.

Example gallery_second_batch :
  let es := [ImageLoaded "1.jpg"; ImageFailed "2.jpg"; ImageLoaded "3.jpg";
             Advance 30000] in
  let w1 := page_load false 0 ∅ gallery_page false es in
  let w2 := page_load false 0 ∅ gallery_page false
              (es ++ [Advance 100; CallbackRun 0]) in
  in_flight w1 = []
  ∧ isPreloading w1 = false
  ∧ callbacks w1 = [TimeoutCallback 30100]
  ∧ in_flight w2 = ["5.jpg"; "6.jpg"]
  ∧ preloadingQueue w2 = []
  ∧ callbacks w2 = []
  ∧ now w2 = 30100%N.
Proof. vm_compute. repeat split. Qed.

(** ** The queue is worked off from the front *)

Section Accounting.

Lemma build_queue_elem (d : document) (u : string) :
  u ∈ build_queue d ↔ u ∈ getAllImageUrls d.
Proof.
  unfold build_queue. rewrite elem_of_app, offscreen_elem. split.
  - intros [H | [H _]]; [by apply visible_discovered | done].
  - intros H. destruct (decide (u ∈ getVisibleImageUrls d)); auto.
Qed.

Lemma then_resolve_queue (u : url) (r : stretch * preloader) :
  preloadingQueue (then_resolve u r) = preloadingQueue (snd r)
  ∧ preloadedUrls (then_resolve u r) = preloadedUrls (snd r)
  ∧ callbacks (snd r) = callbacks (snd r).
Proof.
  destruct r as [[p| |f] w1]; simpl; try done.
  pose proof (resolve_fields u (set_phase u CacheDone w1)) as F.
  cbv zeta in F. destruct F as (_ & _ & _ & _ & ? & ? & _). done.
Qed.

Lemma fire_timer_queue (u : url) (w : preloader) :
  preloadingQueue (fire_timer u w) = preloadingQueue w
  ∧ preloadedUrls (fire_timer u w) = preloadedUrls w.
Proof.
  unfold fire_timer. destruct (loads w !! u) as [l|]; [|done].
  destruct (timer_fired l); [done|].
  pose proof (resolve_fields u
    (update_load u set_timer_fired (set_now (started l + timeout_ms)%N w))) as F.
  cbv zeta in F. destruct F as (_ & _ & _ & _ & ? & ? & _). done.
Qed.

Lemma advance_queue (ms : N) (w : preloader) :
  preloadingQueue (advance ms w) = preloadingQueue w
  ∧ preloadedUrls (advance ms w) = preloadedUrls w.
Proof.
  assert (H : ∀ target us w0,
    preloadingQueue
      (foldl (λ w' u, if timer_due target u w' then fire_timer u w' else w') w0 us)
    = preloadingQueue w0
    ∧ preloadedUrls
      (foldl (λ w' u, if timer_due target u w' then fire_timer u w' else w') w0 us)
    = preloadedUrls w0).
  { intros target us. induction us as [|u us IH]; intros w0; [done|]. simpl.
    destruct (IH (if timer_due target u w0 then fire_timer u w0 else w0))
      as [-> ->].
    destruct (timer_due target u w0); [|done]. apply fire_timer_queue. }
  unfold advance. fields. apply H.
Qed.

Lemma cacheImage_queue (u : url) (w : preloader) :
  preloadingQueue (snd (cacheImage u w)) = preloadingQueue w
  ∧ preloadedUrls (snd (cacheImage u w)) = preloadedUrls w.
Proof. unfold cacheImage. by destruct (db w). Qed.

(** Only a callback takes URLs off the queue. *)
Lemma step_queue (e : event) (w : preloader) :
  (∀ i, e ≠ CallbackRun i) →
  preloadingQueue (step e w) = preloadingQueue w
  ∧ preloadedUrls (step e w) = preloadedUrls w.
Proof.
  intros He.
  assert (Himg : ∀ u0, preloadingQueue
      (then_resolve u0 (cacheImage u0 (update_load u0 set_img_fired w)))
      = preloadingQueue w
    ∧ preloadedUrls
      (then_resolve u0 (cacheImage u0 (update_load u0 set_img_fired w)))
      = preloadedUrls w).
  { intros u0.
    destruct (then_resolve_queue u0 (cacheImage u0 (update_load u0 set_img_fired w)))
      as (-> & -> & _).
    apply (cacheImage_queue u0 (update_load u0 set_img_fired w)). }
  destruct e as [ms|u|u|u r|u r s|i]; cbn [step].
  - apply advance_queue.
  - unfold image_event, onload. destruct (loads w !! u) as [l|]; [|done].
    destruct (img_fired l); [done|]. apply Himg.
  - unfold image_event, onerror. destruct (loads w !! u) as [l|]; [|done].
    destruct (img_fired l); [done|]. apply Himg.
  - destruct (phase_of w u); try done.
    destruct (then_resolve_queue u (cacheImage_response u r w)) as (-> & -> & _).
    unfold cacheImage_response, try_response.
    destruct r as [msg|s]; [done|]. by destruct (response_ok s).
  - destruct (phase_of w u); try done.
    destruct (then_resolve_queue u (cacheImage_body u r s w)) as (-> & -> & _).
    unfold cacheImage_body, try_body, try_put. by destruct r, s.
  - by destruct (He i).
Qed.

Lemma loadNextImages_queue (w : preloader) :
  isPreloading w = false →
  preloadingQueue (loadNextImages w) = drop batchSize (preloadingQueue w)
  ∧ preloadedUrls (loadNextImages w)
    = foldl set_add (preloadedUrls w) (take batchSize (preloadingQueue w)).
Proof.
  intros Ei. destruct (preloadingQueue w) as [|q0 q] eqn:Eq.
  { unfold loadNextImages. rewrite Ei, Eq. done. }
  assert (Hq : preloadingQueue w ≠ []) by (by rewrite Eq).
  rewrite (loadNextImages_unfold w Ei Hq). rewrite Eq.
  set (w2 := set_preloadingQueue _ _).
  pose proof (map_preloadImage_frame (take batchSize (q0 :: q)) w2) as F.
  destruct (map_preloadImage (take batchSize (q0 :: q)) w2) as [ps w3].
  cbn [fst snd] in *. cbv zeta in F.
  destruct F as (_ & _ & _ & _ & _ & Fq & _ & _ & _ & Fp & _).
  pose proof (resumeBatch_fields (set_awaiting (Some ps) w3)) as R.
  cbv zeta in R. destruct R as (_ & _ & _ & _ & Rp & Rq & _).
  unfold w2 in *. fields. split; congruence.
Qed.

Lemma drained_next (d : document) (k : nat) (w w' : preloader) :
  drained d k w →
  preloadingQueue w' = drop batchSize (preloadingQueue w) →
  preloadedUrls w'
  = foldl set_add (preloadedUrls w) (take batchSize (preloadingQueue w)) →
  drained d (k + batchSize) w'.
Proof.
  intros [Hq Hp] Hq' Hp'. split.
  - by rewrite Hq', Hq, drop_drop.
  - rewrite Hp', Hp, Hq. unfold new_Set.
    by rewrite <- foldl_app, take_take_drop.
Qed.

Lemma step_drained (d : document) (k : nat) (e : event) (w : preloader) :
  drained d k w → ∃ k', drained d k' (step e w).
Proof.
  intros Hd.
  assert (Hother : (∀ i, e ≠ CallbackRun i) → ∃ k', drained d k' (step e w)).
  { intros He. exists k. destruct (step_queue e w He) as [Hq Hp].
    destruct Hd. split; congruence. }
  destruct e as [ms|u|u|u r|u r s|i]; try (by apply Hother).
  cbn [step]. destruct (callbacks w !! i) as [cb|]; [|eauto].
  destruct (callback_ready (now w) cb); [|eauto].
  destruct (isPreloading w) eqn:Ei.
  - exists k. unfold loadNextImages. fields. by rewrite Ei.
  - exists (k + batchSize).
    destruct (loadNextImages_queue (set_callbacks (delete i (callbacks w)) w) Ei)
      as [Hq Hp].
    by apply (drained_next d k w).
Qed.

Lemma page_load_drained (idle : bool) (t0 : N)
    (store : gmap string (list Byte.byte)) (d : document) (opened : bool)
    (es : list event) :
  ∃ k, drained d k (page_load idle t0 store d opened es).
Proof.
  unfold page_load.
  assert (H0 : ∃ k, drained d k (init d opened (constructed idle t0 store))).
  { exists (0 + batchSize). unfold init, startPreloading.
    set (w1 := set_preloadingQueue _ _).
    assert (Ei : isPreloading w1 = false) by (unfold w1; by destruct opened).
    destruct (loadNextImages_queue w1 Ei) as [Hq Hp].
    apply (drained_next d 0 w1); try done.
    unfold w1. split; by destruct opened. }
  revert H0. generalize (init d opened (constructed idle t0 store)) as w.
  induction es as [|e es IH]; intros w [k Hk]; [eauto|].
  simpl. apply IH. by apply (step_drained d k).
Qed.

End Accounting.

(** ** One callback at a time *)

Section Scheduling.

Lemma finishBatch_scheduled (bound : N) (w : preloader) :
  callbacks w = [] → awaiting w = None → (now w + 100 ≤ bound)%N →
  scheduled bound (finishBatch w).
Proof.
  intros Hc Ha Hb. unfold scheduled.
  pose proof (finishBatch_fields w) as F. cbv zeta in F.
  destruct F as (_ & Fi & _ & _ & _ & _ & Fq & _ & _ & Fa).
  rewrite Fa, Ha, Fq, Fi, finishBatch_callbacks, Hc. simpl.
  destruct (preloadingQueue w) as [|q0 q]; [by left|]. right.
  simpl. eexists. split_and!; [done | done |].
  destruct (hasIdle w); simpl; done.
Qed.

Lemma resumeBatch_scheduled (bound : N) (w : preloader) :
  scheduled bound w → (now w + 100 ≤ bound)%N → scheduled bound (resumeBatch w).
Proof.
  intros Hs Hb. unfold resumeBatch.
  destruct (awaiting w) as [ps|] eqn:Ea; [|done].
  unfold scheduled in Hs. rewrite Ea in Hs.
  destruct (promise_all w ps); [by unfold scheduled; rewrite Ea| |];
    by apply finishBatch_scheduled.
Qed.

(** [scheduled] reads the callbacks, the queue, the suspension and the
    kind of page, nothing else. *)
Lemma scheduled_ext (bound : N) (w w' : preloader) :
  scheduled bound w →
  awaiting w' = awaiting w → callbacks w' = callbacks w →
  preloadingQueue w' = preloadingQueue w → hasIdle w' = hasIdle w →
  scheduled bound w'.
Proof. unfold scheduled. by intros H -> -> -> ->. Qed.

Lemma scheduled_mono (b1 b2 : N) (w : preloader) :
  scheduled b1 w → (b1 ≤ b2)%N → scheduled b2 w.
Proof.
  unfold scheduled. intros H Hb. destruct (awaiting w); [done|].
  destruct H as [H | (cb & ? & ? & Hok)]; [by left|]. right.
  exists cb. split_and!; try done.
  destruct cb; simpl in *; [done|]. destruct Hok. split; [done | lia].
Qed.

Lemma resolve_scheduled (bound : N) (u : url) (w : preloader) :
  scheduled bound w → (now w + 100 ≤ bound)%N → scheduled bound (resolve u w).
Proof.
  intros Hs Hb. unfold resolve. destruct (loads w !! u) as [l|]; [|done].
  destruct (outcome l); try done.
  apply resumeBatch_scheduled; [|done]. by apply (scheduled_ext bound w).
Qed.

Lemma then_resolve_scheduled (bound : N) (u : url) (r : stretch * preloader) :
  scheduled bound (snd r) → (now (snd r) + 100 ≤ bound)%N →
  scheduled bound (then_resolve u r).
Proof.
  destruct r as [[p| |f] w1]; simpl; intros Hs Hb.
  - by apply (scheduled_ext bound w1).
  - apply resolve_scheduled; [|done]. by apply (scheduled_ext bound w1).
  - by apply (scheduled_ext bound w1).
Qed.

Lemma fire_timer_scheduled (bound : N) (u : url) (w : preloader) :
  scheduled bound w →
  (∀ l, loads w !! u = Some l → timer_fired l = false →
     (started l + timeout_ms + 100 ≤ bound)%N) →
  scheduled bound (fire_timer u w).
Proof.
  intros Hs Hb. unfold fire_timer. destruct (loads w !! u) as [l|] eqn:El; [|done].
  destruct (timer_fired l) eqn:Et; [done|].
  apply resolve_scheduled.
  - by apply (scheduled_ext bound w).
  - simpl. by apply Hb.
Qed.

Lemma advance_fold_scheduled (bound target : N) (us : list string)
    (w : preloader) :
  scheduled bound w →
  (∀ u l, loads w !! u = Some l → timer_fired l = false →
     (started l + timeout_ms ≤ target)%N →
     (started l + timeout_ms + 100 ≤ bound)%N) →
  scheduled bound
    (foldl (λ w' u, if timer_due target u w' then fire_timer u w' else w') w us).
Proof.
  revert w. induction us as [|u us IH]; intros w Hs Hb; [done|]. simpl.
  apply IH.
  - destruct (timer_due target u w) eqn:Ed; [|done].
    apply fire_timer_scheduled; [done|]. intros l Hl Ht. apply (Hb u l Hl Ht).
    unfold timer_due in Ed. rewrite Hl, Ht in Ed. simpl in Ed.
    by apply N.leb_le in Ed.
  - intros v l' Hl' Ht' Hdue.
    assert (∃ l, loads w !! v = Some l ∧ started l = started l'
                 ∧ timer_fired l = false) as (l & Hl & S & Ht).
    { revert Hl'. destruct (timer_due target u w); intros Hl'; [|eauto].
      destruct (fire_timer_loads w u) as [_ Hf]. specialize (Hf v).
      rewrite Hl' in Hf. inversion Hf as [l ? (S & T) E1 E2|]; subst.
      exists l. destruct (T Ht'). done. }
    rewrite <- S in *. by apply (Hb v l).
Qed.

Lemma loadNextImages_scheduled (bound : N) (w : preloader) :
  callbacks w = [] → awaiting w = None → isPreloading w = false →
  (now w + 100 ≤ bound)%N →
  scheduled bound (loadNextImages w).
Proof.
  intros Hc Ha Ei Hb. destruct (preloadingQueue w) as [|q0 q] eqn:Eq.
  { unfold loadNextImages. rewrite Ei, Eq. simpl. unfold scheduled.
    rewrite Ha. by left. }
  assert (Hq : preloadingQueue w ≠ []) by (by rewrite Eq).
  rewrite (loadNextImages_unfold w Ei Hq).
  set (r := map_preloadImage _ _).
  pose proof (map_preloadImage_frame (take batchSize (preloadingQueue w))
    (set_preloadingQueue (drop batchSize (preloadingQueue w))
       (set_isPreloading true w))) as F.
  fold r in F. cbv zeta in F. fields.
  destruct F as (_ & Fn & _ & _ & _ & _ & _ & _ & Fcb & _).
  apply resumeBatch_scheduled; fields; [|by rewrite Fn].
  unfold scheduled. fields. congruence.
Qed.

Lemma advance_scheduled (bound : N) (ms : N) (w : preloader) :
  scheduled bound w →
  (∀ u l, loads w !! u = Some l → timer_fired l = false →
     (started l + timeout_ms ≤ now w + ms)%N →
     (started l + timeout_ms + 100 ≤ bound)%N) →
  scheduled bound (advance ms w).
Proof.
  intros Hs Hb. unfold advance.
  pose proof (advance_fold_scheduled bound (now w + ms)%N (preloadedUrls w) w
                Hs Hb) as H.
  by apply (scheduled_ext bound _ _ H).
Qed.

Lemma cache_stretch_scheduled (bound : N) (u : url) (w : preloader)
    (r : stretch * preloader) :
  scheduled bound w → (now w + 100 ≤ bound)%N →
  now (snd r) = now w → awaiting (snd r) = awaiting w →
  callbacks (snd r) = callbacks w →
  preloadingQueue (snd r) = preloadingQueue w → hasIdle (snd r) = hasIdle w →
  scheduled bound (then_resolve u r).
Proof.
  intros Hs Hb Hn Ha Hc Hq Hi. apply then_resolve_scheduled.
  - by apply (scheduled_ext bound w).
  - by rewrite Hn.
Qed.

Lemma step_scheduled (e : event) (w : preloader) :
  sound w → scheduled (now w + 100)%N w →
  scheduled (now (step e w) + 100)%N (step e w).
Proof.
  intros (Ho & Hw & Ht) Hs.
  assert (Himg : ∀ u, scheduled (now w + 100)%N
            (then_resolve u (cacheImage u (update_load u set_img_fired w)))).
  { intros u. apply (cache_stretch_scheduled _ u w); try done;
      unfold cacheImage; fields; by destruct (db w). }
  destruct e as [ms|u|u|u r|u r s|i].
  - pose proof (advance_frame ms w) as F. cbv zeta in F.
    destruct F as (Fn & _). cbn [step]. rewrite Fn.
    apply advance_scheduled.
    + apply (scheduled_mono (now w + 100)%N); [done | lia].
    + intros u l Hl Hf Hdue. lia.
  - assert (En : now (step (ImageLoaded u) w) = now w).
    { cbn [step]. unfold image_event, onload.
      destruct (loads w !! u) as [l|]; [|done]. destruct (img_fired l); [done|].
      pose proof (then_resolve_frame u
        (cacheImage u (update_load u set_img_fired w))) as F.
      cbv zeta in F. destruct F as (-> & _).
      apply (cacheImage_frame u (update_load u set_img_fired w)). }
    rewrite En. cbn [step]. unfold image_event, onload.
    destruct (loads w !! u) as [l|]; [|done]. destruct (img_fired l); [done|].
    apply Himg.
  - assert (En : now (step (ImageFailed u) w) = now w).
    { cbn [step]. unfold image_event, onerror.
      destruct (loads w !! u) as [l|]; [|done]. destruct (img_fired l); [done|].
      pose proof (then_resolve_frame u
        (cacheImage u (update_load u set_img_fired w))) as F.
      cbv zeta in F. destruct F as (-> & _).
      apply (cacheImage_frame u (update_load u set_img_fired w)). }
    rewrite En. cbn [step]. unfold image_event, onerror.
    destruct (loads w !! u) as [l|]; [|done]. destruct (img_fired l); [done|].
    apply Himg.
  - cbn [step]. destruct (phase_of w u); try done.
    pose proof (then_resolve_frame u (cacheImage_response u r w)) as F.
    cbv zeta in F. destruct F as (Fn & _).
    assert (En : now (snd (cacheImage_response u r w)) = now w).
    { unfold cacheImage_response, try_response.
      destruct r as [m|s]; [done|]. by destruct (response_ok s). }
    rewrite Fn, En.
    apply (cache_stretch_scheduled _ u w); try done;
      unfold cacheImage_response, try_response;
      (destruct r as [m|s]; [done|]); by destruct (response_ok s).
  - cbn [step]. destruct (phase_of w u); try done.
    pose proof (then_resolve_frame u (cacheImage_body u r s w)) as F.
    cbv zeta in F. destruct F as (Fn & _).
    assert (En : now (snd (cacheImage_body u r s w)) = now w).
    { unfold cacheImage_body, try_body, try_put. by destruct r, s. }
    rewrite Fn, En.
    apply (cache_stretch_scheduled _ u w); try done;
      unfold cacheImage_body, try_body, try_put; by destruct r, s.
  - cbn [step]. destruct (callbacks w !! i) as [cb|] eqn:Ecb; [|done].
    destruct (callback_ready (now w) cb); [|done].
    pose proof (loadNextImages_frame (set_callbacks (delete i (callbacks w)) w))
      as F.
    cbv zeta in F. destruct F as (Fn & _). rewrite Fn. fields.
    unfold scheduled in Hs. destruct (awaiting w) as [ps|] eqn:Ea.
    { rewrite Hs in Ecb. done. }
    destruct Hs as [[Hc _] | (cb' & Hc & Hq & Hok)].
    { rewrite Hc in Ecb. done. }
    apply loadNextImages_scheduled; fields; try done.
    + rewrite Hc in *. destruct i; [done|]. by destruct i.
    + by apply (o_idle w Ho).
Qed.

Lemma step_robust (e : event) (w : preloader) : robust w → robust (step e w).
Proof.
  intros [Hh Hs]. split; [by apply step_healthy|].
  destruct Hh as [Hsound _]. by apply step_scheduled.
Qed.

Lemma run_robust (es : list event) (w : preloader) :
  robust w → robust (run es w).
Proof.
  revert w. induction es as [|e es IH]; intros w Hw; [done|].
  simpl. apply IH, step_robust, Hw.
Qed.

Lemma page_load_robust (idle : bool) (t0 : N)
    (store : gmap string (list Byte.byte)) (d : document) (opened : bool)
    (es : list event) :
  robust (page_load idle t0 store d opened es).
Proof.
  apply run_robust. split; [apply init_healthy|].
  unfold init, startPreloading.
  set (w1 := set_preloadingQueue _ _).
  pose proof (loadNextImages_frame w1) as F. cbv zeta in F.
  destruct F as (-> & _).
  apply loadNextImages_scheduled; unfold w1; destruct opened; fields; try done; lia.
Qed.

End Scheduling.

(** ** The queue runs dry *)

Section Draining.

Lemma advance_all_settled (ms : N) (w : preloader) :
  sound w → (timeout_ms ≤ ms)%N → in_flight (advance ms w) = [].
Proof.
  intros Hs Hms. pose proof (advance_sound w ms Hs) as (Ho' & _ & Ht').
  destruct Hs as (Ho & Hw & Ht).
  destruct (advance_fold (now w + ms)%N (preloadedUrls w) w Ho Hw)
    as (_ & _ & _ & Hf).
  pose proof (advance_frame ms w) as F. cbv zeta in F. destruct F as (Fn & _).
  destruct (in_flight (advance ms w)) as [|u rest] eqn:E; [done|]. exfalso.
  assert (Hu : u ∈ in_flight (advance ms w)) by (rewrite E; left).
  apply (in_flight_spec _ u Ho') in Hu as (l' & Hl' & Hp).
  pose proof (o_loads _ Ho' u l' Hl') as Hsett. unfold settled_in_time in Hsett.
  rewrite Hp in Hsett. destruct (Ht' u l' Hl') as [_ Hlt].
  specialize (Hlt Hsett). rewrite Fn in Hlt.
  specialize (Hf u). unfold advance in Hl'. fields. rewrite Hl' in Hf.
  inversion Hf as [l ? (S & _) E1 E2|]; subst. symmetry in E1.
  destruct (Ht u l E1) as [Hstart _]. lia.
Qed.

Lemma round_drains (w : preloader) :
  robust w →
  robust (run round w)
  ∧ preloadingQueue (run round w) = drop batchSize (preloadingQueue w).
Proof.
  intros Hr. unfold round. cbn [run foldl].
  set (w1 := step (Advance 30100) w).
  assert (Hr1 : robust w1) by by apply step_robust.
  destruct Hr as [[Hs _] Hsch]. destruct Hs as (Ho & Hw & Ht).
  assert (Hq1 : preloadingQueue w1 = preloadingQueue w)
    by apply (advance_queue 30100 w).
  assert (Fn : now w1 = (now w + 30100)%N) by apply (advance_frame 30100 w).
  assert (Hfl : in_flight w1 = []).
  { apply advance_all_settled; [done | by unfold timeout_ms]. }
  assert (Hsharp : scheduled (now w1) w1).
  { rewrite Fn. apply advance_scheduled.
    - apply (scheduled_mono (now w + 100)%N); [done | lia].
    - intros u l Hl _ _. destruct (Ht u l Hl) as [Hstart _].
      unfold timeout_ms. lia. }
  clearbody w1.
  pose proof Hr1 as [[Hs1 Hc1] Hsch1]. pose proof Hs1 as (Ho1 & Hw1 & Ht1).
  assert (Ei1 : isPreloading w1 = false).
  { destruct (isPreloading w1) eqn:Ei; [|done].
    by apply (guard_iff_in_flight w1 Ho1 Hw1) in Ei. }
  destruct (idle_not_awaiting w1 Ho1 Ei1) as [Ha1 _].
  unfold scheduled in Hsharp. rewrite Ha1 in Hsharp.
  pose proof (step_robust (CallbackRun 0) w1 Hr1) as Hr2.
  cbn [step] in *.
  destruct Hsharp as [[Hc Hq] | (cb & Hc & Hq & Hok)].
  - rewrite Hc in *. cbn [lookup list_lookup] in *. split; [done|].
    rewrite <- Hq1, Hq. by rewrite drop_nil.
  - assert (Hready : callback_ready (now w1) cb = true).
    { destruct cb as [t|due]; [done|]. destruct Hok as [_ Hdue].
      simpl. by apply N.leb_le. }
    rewrite Hc in *. cbn [lookup list_lookup] in *.
    rewrite Hready in *. split; [done|].
    cbn [delete list_delete].
    destruct (loadNextImages_queue (set_callbacks [] w1) Ei1) as [-> _].
    fields. by rewrite Hq1.
Qed.

Lemma rounds_drain (n : nat) (w : preloader) :
  robust w → length (preloadingQueue w) ≤ batchSize * n →
  robust (run (rounds n) w) ∧ preloadingQueue (run (rounds n) w) = [].
Proof.
  revert w. induction n as [|n IH]; intros w Hr Hlen.
  - split; [done|]. simpl. destruct (preloadingQueue w); [done|].
    simpl in Hlen. lia.
  - cbn [rounds]. rewrite run_app.
    destruct (round_drains w Hr) as [Hr2 Hq2].
    apply IH; [done|]. rewrite Hq2, length_drop. lia.
Qed.

Lemma settled_when_idle (w : preloader) (u : url) :
  sound w → in_flight w = [] → u ∈ preloadedUrls w →
  ∃ l t, loads w !! u = Some l ∧ outcome l = Fulfilled t.
Proof.
  intros (Ho & _ & _) Hfl Hu.
  apply (o_dom w Ho) in Hu as [l Hl]. exists l.
  pose proof (o_loads w Ho u l Hl) as Hs. unfold settled_in_time in Hs.
  destruct (outcome l) as [|t|] eqn:E; [|eauto|done].
  exfalso. assert (Hin : u ∈ in_flight w).
  { apply in_flight_spec; [done|]. eauto. }
  rewrite Hfl in Hin. by apply elem_of_nil in Hin.
Qed.

End Draining.

(** ** Further properties of a page load *)

(** X1.  At every moment of a page load the queue is what is left of the
    queue built at the start after some number [k] of its URLs were taken
    off the front, and [preloadedUrls] holds exactly those [k] URLs, in
    that order, each once.  So every discovered URL is either claimed or
    still queued, and nothing else is ever claimed. *)
Theorem queue_is_worked_off (idle : bool) (t0 : N)
    (store : gmap string (list Byte.byte)) (d : document) (opened : bool)
    (es : list event) :
  let w := page_load idle t0 store d opened es in
  (∃ k, preloadingQueue w = drop k (build_queue d)
        ∧ preloadedUrls w = new_Set (take k (build_queue d)))
  ∧ (∀ u, u ∈ getAllImageUrls d ↔ u ∈ preloadedUrls w ∨ u ∈ preloadingQueue w)
  ∧ (∀ u l, loads w !! u = Some l → u ∈ getAllImageUrls d).
Proof.
  intros w. destruct (page_load_drained idle t0 store d opened es) as [k [Hq Hp]].
  fold w in Hq, Hp.
  assert (Hiff : ∀ u, u ∈ getAllImageUrls d
                      ↔ u ∈ preloadedUrls w ∨ u ∈ preloadingQueue w).
  { intros u. rewrite Hq, Hp, new_Set_elem, <- elem_of_app, take_drop.
    symmetry. apply build_queue_elem. }
  split_and!; [eauto | done |].
  intros u l Hl. apply Hiff. left.
  destruct (page_load_healthy idle t0 store d opened es) as [(Ho & _) _].
  apply (o_dom _ Ho). eauto.
Qed.

(** X2.  At most one call of [loadNextImages] is ever pending.  None is
    pending while a batch is in progress; between batches one is pending
    exactly when the queue is not empty.  It is an idle callback with a
    1000 ms timeout when the page has [requestIdleCallback], and otherwise
    a timeout due at most 100 ms from now. *)
Theorem one_callback_at_a_time (idle : bool) (t0 : N)
    (store : gmap string (list Byte.byte)) (d : document) (opened : bool)
    (es : list event) :
  let w := page_load idle t0 store d opened es in
  length (callbacks w) ≤ 1
  ∧ (isPreloading w = true → callbacks w = [])
  ∧ (isPreloading w = false → (callbacks w = [] ↔ preloadingQueue w = []))
  ∧ (∀ cb, cb ∈ callbacks w →
       match cb with
       | IdleCallback t => idle = true ∧ t = 1000%N
       | TimeoutCallback due => idle = false ∧ (due ≤ now w + 100)%N
       end).
Proof.
  intros w.
  destruct (page_load_robust idle t0 store d opened es) as [[Hs _] Hsch].
  destruct (page_load_db idle t0 store d opened es) as [_ Hidle].
  fold w in Hs, Hsch, Hidle. destruct Hs as (Ho & Hw & _).
  unfold scheduled in Hsch. rewrite Hidle in Hsch.
  destruct (awaiting w) as [ps|] eqn:Ea.
  - destruct (o_awaiting w Ho ps Ea) as (Hi & _). rewrite Hsch.
    split_and!; [simpl; lia | done | congruence |].
    by intros cb ?%elem_of_nil.
  - pose proof (o_idle w Ho Ea) as Hi.
    destruct Hsch as [[Hc Hq] | (cb & Hc & Hq & Hok)]; rewrite Hc.
    + split_and!; [simpl; lia | done | done |]. by intros cb ?%elem_of_nil.
    + split_and!; [simpl; lia | congruence | done |].
      intros cb' ->%list_elem_of_singleton. exact Hok.
Qed.

(** X3.  A page load always comes to an end, whatever has happened so
    far and even if no image event and no network answer ever arrives:
    after enough rounds of letting 30.1 s pass and running the pending
    callback, the queue is empty, no batch is in progress, nothing is
    scheduled, and every discovered URL has a load whose promise is
    fulfilled. *)
Theorem page_load_can_finish (idle : bool) (t0 : N)
    (store : gmap string (list Byte.byte)) (d : document) (opened : bool)
    (es : list event) (n : nat) :
  length (preloadingQueue (page_load idle t0 store d opened es)) ≤ 4 * n →
  let w' := page_load idle t0 store d opened
              (es ++ rounds n ++ [Advance 30100]) in
  preloadingQueue w' = []
  ∧ in_flight w' = []
  ∧ isPreloading w' = false
  ∧ callbacks w' = []
  ∧ (∀ u, u ∈ getAllImageUrls d →
       ∃ l t, loads w' !! u = Some l ∧ outcome l = Fulfilled t).
Proof.
  intros Hlen w'.
  pose proof (page_load_robust idle t0 store d opened es) as Hr.
  destruct (rounds_drain n _ Hr Hlen) as [Hr1 Hq1].
  set (w1 := run (rounds n) (page_load idle t0 store d opened es)) in *.
  assert (E : w' = advance 30100 w1).
  { unfold w', w1, page_load. by rewrite !run_app. }
  pose proof (page_load_robust idle t0 store d opened
                (es ++ rounds n ++ [Advance 30100])) as [[Hs' _] Hsch'].
  fold w' in Hs', Hsch'.
  assert (Hq : preloadingQueue w' = []).
  { rewrite E. destruct (advance_queue 30100 w1) as [-> _]. done. }
  assert (Hfl : in_flight w' = []).
  { rewrite E. destruct Hr1 as [[Hs1 _] _].
    apply advance_all_settled; [done | by unfold timeout_ms]. }
  pose proof Hs' as (Ho' & Hw' & _).
  assert (Hi : isPreloading w' = false).
  { destruct (isPreloading w') eqn:Ei; [|done].
    by apply (guard_iff_in_flight w' Ho' Hw') in Ei. }
  split_and!; try done.
  - destruct (idle_not_awaiting w' Ho' Hi) as [Ha _].
    unfold scheduled in Hsch'. rewrite Ha in Hsch'.
    destruct Hsch' as [[Hc _] | (cb & _ & Hne & _)]; done.
  - intros u Hu. apply settled_when_idle; [done | done |].
    destruct (page_load_drained idle t0 store d opened
                (es ++ rounds n ++ [Advance 30100])) as [k [Hqk Hpk]].
    fold w' in Hqk, Hpk.
    apply build_queue_elem in Hu. rewrite <- (take_drop k (build_queue d)) in Hu.
    rewrite <- Hqk, Hq, app_nil_r in Hu. rewrite Hpk. by apply new_Set_elem.
Qed.

Lemma page_load_can_finish_witness :
  let w' := page_load false 0 ∅ gallery_page true
              ([] ++ rounds 1 ++ [Advance 30100]) in
  preloadingQueue w' = []
  ∧ in_flight w' = []
  ∧ isPreloading w' = false
  ∧ callbacks w' = []
  ∧ (∀ u, u ∈ getAllImageUrls gallery_page →
       ∃ l t, loads w' !! u = Some l ∧ outcome l = Fulfilled t).
Proof.
  assert (H : length (preloadingQueue (page_load false 0 ∅ gallery_page true []))
              ≤ 4 * 1) by (vm_compute; lia).
  exact (page_load_can_finish false 0%N ∅ gallery_page true [] 1 H).
Defined.

(** ** What each event asks of the browser *)

Section Emitted.

Lemma put_effects_elem (u : url) (b : list Byte.byte) (s : store_answer)
    (x : effect) :
  x ∈ put_effects u b s →
  x = StorePut u b ∨ ∃ m, x = ConsoleLog (FailedToCache u (StoreFailed m)).
Proof.
  destruct s as [m|m| |]; cbn [put_effects]; intros H.
  - apply list_elem_of_singleton in H. eauto.
  - apply elem_of_cons in H as [->|H%list_elem_of_singleton]; eauto.
  - apply list_elem_of_singleton in H. eauto.
  - apply list_elem_of_singleton in H. eauto.
Qed.

Lemma no_batch_tail (tr1 tr2 : list effect) :
  ConsoleLog BatchPreloadError ∉ tr2 →
  tr2 = tr1 ∨ tr2 = tr1 ++ [ConsoleLog BatchPreloadError] →
  tr2 = tr1.
Proof.
  intros Hn [->| ->]; [done|]. destruct Hn. apply elem_of_app. right. left.
Qed.

Lemma loadNextImages_emits (w : preloader) :
  ∃ new, preloadedUrls (loadNextImages w) = preloadedUrls w ++ new
    ∧ (trace (loadNextImages w) = trace w ++ (ImageRequest <$> new)
       ∨ trace (loadNextImages w)
         = (trace w ++ (ImageRequest <$> new)) ++ [ConsoleLog BatchPreloadError]).
Proof.
  unfold loadNextImages.
  destruct (isPreloading w || (length (preloadingQueue w) =? 0)).
  { exists []. rewrite !app_nil_r. split; [done | by left]. }
  set (batch := take batchSize _).
  set (w2 := set_preloadingQueue _ _).
  pose proof (map_preloadImage_frame batch w2) as F.
  destruct (map_preloadImage batch w2) as [ps w3]. cbn [fst snd] in *.
  cbv zeta in F.
  destruct F as (_ & _ & _ & _ & _ & _ & _ & _ & _ & _ & new & Fu & Ft).
  pose proof (resumeBatch_fields (set_awaiting (Some ps) w3)) as R.
  cbv zeta in R. destruct R as (_ & _ & _ & _ & Ru & _ & _ & Rt).
  unfold w2 in *. fields. exists new. rewrite Ru, Fu. split; [done|].
  rewrite <- Ft. done.
Qed.

Lemma step_emits (e : event) (w : preloader) :
  sound w → trace (step e w) = trace w ++ emitted e w.
Proof.
  intros Hw.
  assert (Hnb : ConsoleLog BatchPreloadError ∉ trace (step e w)).
  { destruct (step_sound e w Hw) as (Ho & _). apply (o_no_batch_error _ Ho). }
  assert (Hthen : ∀ u st w1, step e w = then_resolve u (st, w1) →
            trace (step e w) = trace w1).
  { intros u st w1 E. apply no_batch_tail; [done|]. rewrite E.
    pose proof (then_resolve_fields u st w1) as F. cbv zeta in F.
    by destruct F as (_ & _ & _ & _ & Ft & _). }
  destruct e as [ms|u|u|u r|u r s|i]; cbn [emitted].
  - rewrite app_nil_r.
    destruct (advance_trace ms w) as (tr & Ht & Htr). cbn [step] in *.
    destruct tr as [|x tr]; [by rewrite app_nil_r in Ht|].
    destruct Hnb. rewrite Ht. apply elem_of_app. right.
    rewrite (Htr x); [left | left].
  - revert Hthen Hnb. cbn [step]. unfold image_event, onload, cacheImage.
    destruct (loads w !! u) as [l|]; [|by rewrite app_nil_r].
    destruct (img_fired l); [by rewrite app_nil_r|]. fields.
    destruct (db w); cbn [negb orb]; unfold try_fetch, catch_log; intros Hthen _.
    + by rewrite (Hthen _ _ _ eq_refl).
    + rewrite (Hthen _ _ _ eq_refl). fields. by rewrite app_nil_r.
  - revert Hthen Hnb. cbn [step]. unfold image_event, onerror, cacheImage.
    destruct (loads w !! u) as [l|]; [|by rewrite app_nil_r].
    destruct (img_fired l); [by rewrite app_nil_r|]. fields.
    destruct (db w); cbn [negb orb]; unfold try_fetch, catch_log; intros Hthen _.
    + by rewrite (Hthen _ _ _ eq_refl).
    + rewrite (Hthen _ _ _ eq_refl). fields. by rewrite app_nil_r.
  - revert Hthen Hnb. cbn [step].
    destruct (phase_of w u); try by rewrite app_nil_r.
    unfold cacheImage_response, try_response, failed_response.
    destruct r as [msg|s]; [|destruct (response_ok s)];
      cbn [catch_log]; intros Hthen _; rewrite (Hthen _ _ _ eq_refl); fields;
      by rewrite ?app_nil_r.
  - revert Hthen Hnb. cbn [step].
    destruct (phase_of w u); try (by destruct r; rewrite app_nil_r).
    unfold cacheImage_body, try_body, try_put, put_effects.
    destruct r as [msg|b]; [|destruct s as [m|m| |]];
      cbn [catch_log]; intros Hthen _; rewrite (Hthen _ _ _ eq_refl); fields;
      by rewrite <- ?app_assoc.
  - unfold claimed_by. revert Hnb. cbn [step].
    destruct (callbacks w !! i) as [cb|];
      [|by rewrite drop_all, app_nil_r].
    destruct (callback_ready (now w) cb); [|by rewrite drop_all, app_nil_r].
    destruct (loadNextImages_emits (set_callbacks (delete i (callbacks w)) w))
      as (new & Hu & Ht).
    intros Hnb. rewrite Hu. fields. rewrite drop_app_length.
    by apply no_batch_tail.
Qed.

End Emitted.

(** ** Loads only move forward *)

Section Progress.

Lemma progress_refl (l : load) : progress l l.
Proof. unfold progress. split_and!; auto. Qed.

Lemma progress_trans (l1 l2 l3 : load) :
  progress l1 l2 → progress l2 l3 → progress l1 l3.
Proof.
  intros (S1 & O1 & I1 & T1 & R1) (S2 & O2 & I2 & T2 & R2).
  unfold progress. split_and!; [congruence | eauto | eauto | eauto | lia].
Qed.

Lemma settle_progress (t : N) (l : load) :
  progress l (settle t l) ∧ img_fired (settle t l) = img_fired l
  ∧ caching (settle t l) = caching l.
Proof.
  unfold settle, progress.
  destruct (outcome l) eqn:E; simpl; rewrite ?E; split_and!; auto; done.
Qed.

Lemma finish_progress (st : stretch) (t : N) (l : load) :
  phase_rank (caching l)
  ≤ phase_rank (match st with Suspend p => p | _ => CacheDone end) →
  progress l (finish st t l) ∧ img_fired (finish st t l) = img_fired l.
Proof.
  intros Hr. unfold finish, settle, progress.
  destruct st; simpl; [split_and!; auto | | split_and!; auto].
  destruct (outcome l) eqn:E; simpl; rewrite ?E; split_and!; auto; done.
Qed.

Lemma alter_load (m : gmap string load) (u v : string) (f : load → load)
    (l : load) :
  m !! v = Some l →
  alter f u m !! v = Some (if decide (u = v) then f l else l).
Proof. intros H. rewrite lookup_alter. case_decide; subst; by rewrite H. Qed.

Lemma alter_none (m : gmap string load) (u v : string) (f : load → load) :
  m !! v = None → alter f u m !! v = None.
Proof. intros H. by apply lookup_alter_None. Qed.

Lemma fire_timer_progress (u : url) (w : preloader) (v : url) (l : load) :
  loads w !! v = Some l →
  ∃ l', loads (fire_timer u w) !! v = Some l' ∧ progress l l'
        ∧ img_fired l' = img_fired l.
Proof.
  intros Hv. unfold fire_timer. destruct (loads w !! u) as [lu|] eqn:El.
  2:{ exists l. split_and!; [done | apply progress_refl | done]. }
  destruct (timer_fired lu).
  { exists l. split_and!; [done | apply progress_refl | done]. }
  pose proof (resolve_fields u
    (update_load u set_timer_fired (set_now (started lu + timeout_ms)%N w))) as F.
  cbv zeta in F. destruct F as (_ & _ & _ & _ & _ & _ & Fl & _). fields.
  rewrite Fl, alter_alter_eq, (alter_load _ _ _ _ _ Hv).
  eexists. split; [done|]. case_decide; [|split; [apply progress_refl | done]].
  cbn [compose].
  destruct (settle_progress (started lu + timeout_ms) (set_timer_fired l))
    as (P & I & _).
  split; [|by rewrite I].
  apply (progress_trans _ (set_timer_fired l)); [|done].
  unfold progress. simpl. split_and!; auto.
Qed.

Lemma fire_timer_none (u : url) (w : preloader) (v : url) :
  loads w !! v = None → loads (fire_timer u w) !! v = None.
Proof.
  intros Hv. pose proof (fire_timer_fields u w) as F. cbv zeta in F.
  destruct F as (_ & _ & _ & _ & f & -> & _). by apply alter_none.
Qed.

Lemma advance_progress (ms : N) (w : preloader) (v : url) (l : load) :
  loads w !! v = Some l →
  ∃ l', loads (advance ms w) !! v = Some l' ∧ progress l l'
        ∧ img_fired l' = img_fired l.
Proof.
  unfold advance. fields.
  generalize (now w + ms)%N as target. intros target.
  generalize (preloadedUrls w) as us. intros us. revert w l.
  induction us as [|u us IH]; intros w l Hv.
  { exists l. split_and!; [done | apply progress_refl | done]. }
  simpl. destruct (timer_due target u w); [|by apply IH].
  destruct (fire_timer_progress u w v l Hv) as (l1 & H1 & P1 & I1).
  destruct (IH _ _ H1) as (l2 & H2 & P2 & I2).
  exists l2. split_and!; [done | by apply (progress_trans _ l1) | congruence].
Qed.

Lemma advance_none (ms : N) (w : preloader) (v : url) :
  loads w !! v = None → loads (advance ms w) !! v = None.
Proof.
  unfold advance. fields.
  generalize (now w + ms)%N as target. intros target.
  generalize (preloadedUrls w) as us. intros us. revert w.
  induction us as [|u us IH]; intros w Hv; [done|].
  simpl. destruct (timer_due target u w); [|by apply IH].
  by apply IH, fire_timer_none.
Qed.

Lemma then_resolve_progress (u : url) (st : stretch) (w1 : preloader)
    (g : load → load) (m : gmap string load) (v : url) (l : load) :
  loads w1 = alter g u m → m !! v = Some l →
  progress l (g l) →
  (u = v →
   phase_rank (caching (g l))
   ≤ phase_rank (match st with Suspend p => p | _ => CacheDone end)) →
  ∃ l', loads (then_resolve u (st, w1)) !! v = Some l' ∧ progress l l'
        ∧ (u ≠ v → l' = l) ∧ (u = v → img_fired l' = img_fired (g l)).
Proof.
  intros Hm Hv Pg Hr.
  pose proof (then_resolve_fields u st w1) as F. cbv zeta in F.
  destruct F as (_ & _ & _ & _ & _ & ->).
  rewrite Hm, alter_alter_eq, (alter_load _ _ _ _ _ Hv).
  eexists. split; [done|]. case_decide as E.
  - cbn [compose]. destruct (finish_progress st (now w1) (g l) (Hr E)) as [P I].
    split_and!; [by apply (progress_trans _ (g l)) | done | done].
  - split_and!; [apply progress_refl | done | done].
Qed.

Lemma then_resolve_none (u : url) (st : stretch) (w1 : preloader) (v : url) :
  loads w1 !! v = None → loads (then_resolve u (st, w1)) !! v = None.
Proof.
  intros Hv. pose proof (then_resolve_fields u st w1) as F. cbv zeta in F.
  destruct F as (_ & _ & _ & _ & _ & ->). by apply alter_none.
Qed.

Lemma loadNextImages_loads (w : preloader) (v : url) :
  sound w →
  match loads w !! v with
  | Some l => loads (loadNextImages w) !! v = Some l
  | None => loads (loadNextImages w) !! v = None
            ∨ loads (loadNextImages w) !! v = Some (new_load (now w))
  end.
Proof.
  intros (Hw & _ & _). unfold loadNextImages.
  destruct (isPreloading w || (length (preloadingQueue w) =? 0)).
  { destruct (loads w !! v) eqn:E; [done | by left]. }
  set (batch := take batchSize _).
  set (w2 := set_preloadingQueue _ _).
  pose proof (map_preloadImage_loads batch w2 (o_dom w Hw)) as L.
  destruct (map_preloadImage batch w2) as [ps w3]. cbn [fst snd] in *.
  destruct L as [Ll _].
  pose proof (resumeBatch_fields (set_awaiting (Some ps) w3)) as R.
  cbv zeta in R. destruct R as (_ & _ & _ & _ & _ & _ & -> & _).
  unfold w2 in *. fields. rewrite Ll.
  destruct (loads w !! v); [done|]. case_decide; [by right | by left].
Qed.

Lemma step_loads (e : event) (w : preloader) (v : url) (l : load) :
  healthy w → loads w !! v = Some l →
  ∃ l', loads (step e w) !! v = Some l' ∧ progress l l'
        ∧ img_fired l' = img_fired l || on_image v e.
Proof.
  intros [Hs Hc] Hv.
  assert (Hsame : on_image v e = false →
            ∃ l', loads w !! v = Some l' ∧ progress l l'
                  ∧ img_fired l' = img_fired l || on_image v e).
  { intros ->. exists l. rewrite orb_false_r.
    split_and!; [done | apply progress_refl | done]. }
  assert (Himg : ∀ u, on_image v e = String.eqb u v →
            ∃ l', loads (image_event
                    (λ u w, then_resolve u (cacheImage u w)) u w) !! v = Some l'
                  ∧ progress l l'
                  ∧ img_fired l' = img_fired l || on_image v e).
  { intros u ->. unfold image_event.
    destruct (String.eqb_spec u v) as [->|Hne].
    - rewrite Hv. destruct (img_fired l) eqn:Ef.
      { exists l. split_and!; [done | apply progress_refl | by rewrite Ef]. }
      assert (Pg : progress l (set_img_fired l)).
      { unfold progress. simpl. split_and!; auto. }
      assert (Hr : ∀ st, v = v →
                phase_rank (caching (set_img_fired l))
                ≤ phase_rank (match st with Suspend p => p | _ => CacheDone end)).
      { intros st _. simpl. rewrite (ca_idle w Hc v l Hv Ef). simpl. lia. }
      unfold cacheImage. fields.
      destruct (db w); cbn [negb]; unfold try_fetch, catch_log.
      + destruct (then_resolve_progress v (Suspend AwaitResponse)
          (emit (FetchRequest v) (update_load v set_img_fired w))
          set_img_fired (loads w) v l eq_refl Hv Pg (Hr (Suspend AwaitResponse)))
          as (l' & H1 & H2 & H3 & H4).
        exists l'. split_and!; [done | done |]. by rewrite H4.
      + destruct (then_resolve_progress v Return
          (update_load v set_img_fired w)
          set_img_fired (loads w) v l eq_refl Hv Pg (Hr Return))
          as (l' & H1 & H2 & H3 & H4).
        exists l'. split_and!; [done | done |]. by rewrite H4.
    - rewrite orb_false_r.
      destruct (loads w !! u) as [lu|] eqn:Eu;
        [|exists l; split_and!; [done | apply progress_refl | done]].
      destruct (img_fired lu) eqn:Ef;
        [exists l; split_and!; [done | apply progress_refl | done]|].
      assert (Pg : progress l (set_img_fired l)).
      { unfold progress. simpl. split_and!; auto. }
      unfold cacheImage. fields.
      destruct (db w); cbn [negb]; unfold try_fetch, catch_log.
      + destruct (then_resolve_progress u (Suspend AwaitResponse)
          (emit (FetchRequest u) (update_load u set_img_fired w))
          set_img_fired (loads w) v l eq_refl Hv Pg)
          as (l' & H1 & H2 & H3 & H4); [done|].
        exists l'. split_and!; [done | done |]. by rewrite H3.
      + destruct (then_resolve_progress u Return
          (update_load u set_img_fired w)
          set_img_fired (loads w) v l eq_refl Hv Pg)
          as (l' & H1 & H2 & H3 & H4); [done|].
        exists l'. split_and!; [done | done |]. by rewrite H3. }
  assert (Hid : ∀ (m : gmap string load) x, m = alter id x m).
  { intros m x. symmetry. by apply alter_id. }
  assert (Hquiet : ∀ u st w1, on_image v e = false → loads w1 = loads w →
            (u = v → phase_rank (caching l)
                     ≤ phase_rank (match st with Suspend p => p | _ => CacheDone end)) →
            ∃ l', loads (then_resolve u (st, w1)) !! v = Some l' ∧ progress l l'
                  ∧ img_fired l' = img_fired l || on_image v e).
  { intros u st w1 -> Hl Hr. rewrite orb_false_r.
    destruct (then_resolve_progress u st w1 id (loads w) v l)
      as (l' & H1 & H2 & H3 & H4);
      [rewrite Hl; apply Hid | done | apply progress_refl | done |].
    exists l'. split_and!; [done | done |].
    destruct (decide (u = v)) as [E|E]; [by rewrite (H4 E) | by rewrite (H3 E)]. }
  destruct e as [ms|u|u|u r|u r s|i]; cbn [step].
  - destruct (advance_progress ms w v l Hv) as (l' & ? & ? & ?).
    exists l'. cbn [on_image]. rewrite orb_false_r. done.
  - by apply Himg.
  - by apply Himg.
  - destruct (phase_of w u) eqn:Ep; try by apply Hsame.
    assert (Hr : u = v → caching l = AwaitResponse).
    { intros ->. unfold phase_of in Ep. by rewrite Hv in Ep. }
    unfold cacheImage_response, try_response.
    destruct r as [msg|s]; [|destruct (response_ok s)]; cbn [catch_log];
      apply Hquiet; try done; intros E; rewrite (Hr E); simpl; lia.
  - destruct (phase_of w u) eqn:Ep; try by apply Hsame.
    assert (Hr : phase_rank (caching l) ≤ 3) by (destruct (caching l); simpl; lia).
    unfold cacheImage_body, try_body, try_put.
    destruct r as [msg|b]; [|destruct s as [m|m| |]]; cbn [catch_log];
      by apply Hquiet.
  - destruct (callbacks w !! i) as [cb|]; [|by apply Hsame].
    destruct (callback_ready (now w) cb); [|by apply Hsame].
    assert (Hs2 : sound (set_callbacks (delete i (callbacks w)) w)).
    { destruct Hs as (H1 & H2 & H3). split_and!; [|done|done].
      by destruct H1. }
    pose proof (loadNextImages_loads _ v Hs2) as L. fields. rewrite Hv in L.
    exists l. cbn [on_image]. rewrite orb_false_r.
    split_and!; [done | apply progress_refl | done].
Qed.

Lemma step_new_load (e : event) (w : preloader) (v : url) :
  healthy w → loads w !! v = None →
  loads (step e w) !! v = None
  ∨ loads (step e w) !! v = Some (new_load (now w)).
Proof.
  intros [Hs Hc] Hv.
  assert (Himg : ∀ u, loads
            (then_resolve u (cacheImage u (update_load u set_img_fired w))) !! v
            = None).
  { intros u.
    pose proof (then_resolve_none u
      (fst (cacheImage u (update_load u set_img_fired w)))
      (snd (cacheImage u (update_load u set_img_fired w))) v) as F.
    rewrite <- surjective_pairing in F. apply F.
    unfold cacheImage. fields. destruct (db w); fields; by apply alter_none. }
  destruct e as [ms|u|u|u r|u r s|i]; cbn [step].
  - left. by apply advance_none.
  - left. unfold image_event, onload. destruct (loads w !! u) as [lu|]; [|done].
    destruct (img_fired lu); [done|]. apply Himg.
  - left. unfold image_event, onerror. destruct (loads w !! u) as [lu|]; [|done].
    destruct (img_fired lu); [done|]. apply Himg.
  - left. destruct (phase_of w u); try done.
    pose proof (then_resolve_none u (fst (cacheImage_response u r w))
      (snd (cacheImage_response u r w)) v) as F.
    rewrite <- surjective_pairing in F. apply F.
    unfold cacheImage_response, try_response.
    destruct r as [msg|s]; [done|]. by destruct (response_ok s).
  - left. destruct (phase_of w u); try done.
    pose proof (then_resolve_none u (fst (cacheImage_body u r s w))
      (snd (cacheImage_body u r s w)) v) as F.
    rewrite <- surjective_pairing in F. apply F.
    unfold cacheImage_body, try_body, try_put. by destruct r, s.
  - destruct (callbacks w !! i) as [cb|]; [|by left].
    destruct (callback_ready (now w) cb); [|by left].
    assert (Hs2 : sound (set_callbacks (delete i (callbacks w)) w)).
    { destruct Hs as (H1 & H2 & H3). split_and!; [|done|done].
      by destruct H1. }
    pose proof (loadNextImages_loads _ v Hs2) as L. fields. by rewrite Hv in L.
Qed.

End Progress.

(** ** No request is made twice *)

Section Economy.

Lemma count_app (p : effect → bool) (tr1 tr2 : list effect) :
  count p (tr1 ++ tr2) = count p tr1 + count p tr2.
Proof. unfold count. by rewrite filter_app, length_app. Qed.

Lemma count_cons (p : effect → bool) (x : effect) (tr : list effect) :
  count p (x :: tr) = (if p x then 1 else 0) + count p tr.
Proof.
  unfold count. rewrite filter_cons. destruct (p x); case_decide; done.
Qed.

Lemma count_zero (p : effect → bool) (tr : list effect) :
  (∀ x, x ∈ tr → p x = false) → count p tr = 0.
Proof.
  induction tr as [|x tr IH]; intros H; [done|].
  rewrite count_cons, (H x), IH; [done | | left].
  intros y Hy. apply H. by right.
Qed.

Lemma count_requests (u : url) (new : list string) :
  NoDup new →
  count (is_request u) (ImageRequest <$> new) = if decide (u ∈ new) then 1 else 0.
Proof.
  induction new as [|v new IH]; intros Hn.
  { by rewrite decide_False by apply not_elem_of_nil. }
  apply NoDup_cons in Hn as [Hv Hn]. rewrite fmap_cons, count_cons, IH by done.
  cbn [is_request]. destruct (String.eqb_spec u v) as [->|Hne].
  - rewrite (decide_False (P := v ∈ new)) by done.
    by rewrite decide_True by left.
  - destruct (decide (u ∈ new)) as [Hin|Hin].
    + rewrite decide_True by (by right). done.
    + rewrite decide_False; [done|]. by intros [?|?]%elem_of_cons.
Qed.

Lemma step_urls_same (e : event) (w : preloader) :
  orderly w → waiting w → (∀ i, e ≠ CallbackRun i) →
  preloadedUrls (step e w) = preloadedUrls w.
Proof.
  intros Hw Hwait Hne.
  assert (Himg : ∀ u, preloadedUrls
    (then_resolve u (cacheImage u (update_load u set_img_fired w)))
    = preloadedUrls w).
  { intros u.
    pose proof (then_resolve_fields u
      (fst (cacheImage u (update_load u set_img_fired w)))
      (snd (cacheImage u (update_load u set_img_fired w)))) as F.
    cbv zeta in F. rewrite <- surjective_pairing in F.
    destruct F as (_ & _ & _ & -> & _).
    unfold cacheImage. fields. by destruct (db w). }
  destruct e as [ms|u|u|u r|u r s|i]; cbn [step].
  - unfold advance. fields.
    by destruct (advance_fold (now w + ms)%N (preloadedUrls w) w Hw Hwait)
      as (_ & _ & -> & _).
  - unfold image_event, onload. destruct (loads w !! u) as [l|]; [|done].
    destruct (img_fired l); [done|]. apply Himg.
  - unfold image_event, onerror. destruct (loads w !! u) as [l|]; [|done].
    destruct (img_fired l); [done|]. apply Himg.
  - destruct (phase_of w u); try done.
    pose proof (then_resolve_fields u (fst (cacheImage_response u r w))
      (snd (cacheImage_response u r w))) as F.
    cbv zeta in F. rewrite <- surjective_pairing in F.
    destruct F as (_ & _ & _ & -> & _).
    unfold cacheImage_response, try_response.
    destruct r as [msg|status]; [done|]. by destruct (response_ok status).
  - destruct (phase_of w u); try done.
    pose proof (then_resolve_fields u (fst (cacheImage_body u r s w))
      (snd (cacheImage_body u r s w))) as F.
    cbv zeta in F. rewrite <- surjective_pairing in F.
    destruct F as (_ & _ & _ & -> & _).
    unfold cacheImage_body, try_body, try_put. by destruct r, s.
  - by destruct (Hne i).
Qed.

Lemma step_claims (e : event) (w : preloader) :
  orderly w → waiting w →
  preloadedUrls (step e w) = preloadedUrls w ++ claimed_by e w.
Proof.
  intros Hw Hwait. unfold claimed_by.
  assert (Hother : (∀ i, e ≠ CallbackRun i) →
            preloadedUrls (step e w)
            = preloadedUrls w
              ++ drop (length (preloadedUrls w)) (preloadedUrls (step e w))).
  { intros Hne. rewrite (step_urls_same e w Hw Hwait Hne).
    by rewrite drop_all, app_nil_r. }
  destruct e as [ms|u|u|u r|u r s|i]; try (by apply Hother).
  cbn [step]. destruct (callbacks w !! i) as [cb|];
    [|by rewrite drop_all, app_nil_r].
  destruct (callback_ready (now w) cb); [|by rewrite drop_all, app_nil_r].
  destruct (loadNextImages_emits (set_callbacks (delete i (callbacks w)) w))
    as (new & -> & _).
  fields. by rewrite drop_app_length.
Qed.

Lemma emitted_requests (e : event) (w : preloader) (u : url) :
  (∀ i, e ≠ CallbackRun i) → count (is_request u) (emitted e w) = 0.
Proof.
  intros Hne. apply count_zero. intros x.
  destruct e as [ms|v|v|v r|v r s|i]; cbn [emitted].
  - by intros ?%elem_of_nil.
  - destruct (loads w !! v) as [l|]; [|by intros ?%elem_of_nil].
    destruct (img_fired l || negb (db w)); [by intros ?%elem_of_nil|].
    by intros ->%list_elem_of_singleton.
  - destruct (loads w !! v) as [l|]; [|by intros ?%elem_of_nil].
    destruct (img_fired l || negb (db w)); [by intros ?%elem_of_nil|].
    by intros ->%list_elem_of_singleton.
  - destruct (phase_of w v); try by intros ?%elem_of_nil.
    destruct (failed_response r); [|by intros ?%elem_of_nil].
    by intros ->%list_elem_of_singleton.
  - destruct (phase_of w v); try (by destruct r; intros ?%elem_of_nil).
    destruct r as [msg|b]; [by intros ->%list_elem_of_singleton|].
    by intros [->|[m ->]]%put_effects_elem.
  - by destruct (Hne i).
Qed.

Lemma emitted_fetches (e : event) (w : preloader) (u : url) :
  count (is_fetch u) (emitted e w)
  = match loads w !! u with
    | Some l => if on_image u e && negb (img_fired l) && db w then 1 else 0
    | None => 0
    end.
Proof.
  assert (Hz : ∀ tr, (∀ x, x ∈ tr → is_fetch u x = false) →
            on_image u e = false →
            count (is_fetch u) tr
            = match loads w !! u with
              | Some l => if on_image u e && negb (img_fired l) && db w
                          then 1 else 0
              | None => 0
              end).
  { intros tr Htr ->. rewrite (count_zero _ _ Htr).
    by destruct (loads w !! u). }
  assert (Himg : ∀ v, on_image u e = String.eqb v u →
    count (is_fetch u)
      match loads w !! v with
      | Some l => if img_fired l || negb (db w) then [] else [FetchRequest v]
      | None => []
      end
    = match loads w !! u with
      | Some l => if on_image u e && negb (img_fired l) && db w then 1 else 0
      | None => 0
      end).
  { intros v ->. destruct (String.eqb_spec v u) as [->|Hne].
    - destruct (loads w !! u) as [l|]; [|done].
      destruct (img_fired l), (db w); cbn [orb negb andb]; try done.
      rewrite count_cons. cbn [is_fetch]. by rewrite String.eqb_refl.
    - cbn [andb]. transitivity 0; [|by destruct (loads w !! u)].
      apply count_zero. intros x.
      destruct (loads w !! v) as [l|]; [|by intros ?%elem_of_nil].
      destruct (img_fired l || negb (db w)); [by intros ?%elem_of_nil|].
      intros ->%list_elem_of_singleton. cbn [is_fetch].
      apply String.eqb_neq. congruence. }
  destruct e as [ms|v|v|v r|v r s|i]; cbn [emitted].
  - apply Hz; [by intros x ?%elem_of_nil | done].
  - by apply Himg.
  - by apply Himg.
  - apply Hz; [|done]. intros x.
    destruct (phase_of w v); try by intros ?%elem_of_nil.
    destruct (failed_response r); [|by intros ?%elem_of_nil].
    by intros ->%list_elem_of_singleton.
  - apply Hz; [|done]. intros x.
    destruct (phase_of w v); try (by destruct r; intros ?%elem_of_nil).
    destruct r as [msg|b]; [by intros ->%list_elem_of_singleton|].
    by intros [->|[m ->]]%put_effects_elem.
  - apply Hz; [|done]. intros x (y & -> & _)%list_elem_of_fmap. done.
Qed.

Lemma step_frugal (e : event) (w : preloader) :
  healthy w → frugal w → frugal (step e w).
Proof.
  intros Hh [Fr Ff]. pose proof (step_healthy e w Hh) as [(Ho' & _) _].
  destruct Hh as [(Ho & Hwait & Ht) Hc].
  assert (Hs : sound w) by done.
  pose proof (step_claims e w Ho Hwait) as Hu.
  constructor; intros u.
  - unfold requests_of. rewrite (step_emits e w Hs), count_app.
    fold (requests_of u w). rewrite Fr, Hu.
    assert (Hcase : (∃ i, e = CallbackRun i) ∨ (∀ i, e ≠ CallbackRun i)).
    { destruct e; try (by right); left; eauto. }
    destruct Hcase as [[i ->]|Hne'].
    + cbn [emitted]. pose proof (o_nodup _ Ho') as Hn. rewrite Hu in Hn.
      apply NoDup_app in Hn as (_ & Hdis & Hn). rewrite count_requests by done.
      destruct (decide (u ∈ preloadedUrls w)) as [Hin|Hin].
      * rewrite decide_False by (by apply Hdis).
        rewrite decide_True; [done|]. apply elem_of_app. by left.
      * destruct (decide (u ∈ claimed_by (CallbackRun i) w)) as [Hin2|Hin2].
        -- rewrite decide_True; [done|]. apply elem_of_app. by right.
        -- rewrite decide_False; [done|]. by intros [?|?]%elem_of_app.
    + rewrite emitted_requests by done.
      pose proof (step_urls_same e w Ho Hwait Hne') as Hsame.
      rewrite Hu in Hsame. rewrite Hsame.
      destruct (decide (u ∈ preloadedUrls w)); done.
  - unfold fetches_of. rewrite (step_emits e w Hs), count_app.
    fold (fetches_of u w). rewrite Ff, emitted_fetches.
    destruct (step_frame e w) as (-> & _).
    destruct (loads w !! u) as [l|] eqn:El.
    + destruct (step_loads e w u l) as (l' & -> & _ & ->); [done | done |].
      by destruct (img_fired l), (on_image u e), (db w).
    + destruct (step_new_load e w u) as [-> | ->]; done.
Qed.

Lemma loadNextImages_frugal (w : preloader) :
  sound w → frugal w → frugal (loadNextImages w).
Proof.
  intros Hs [Fr Ff]. pose proof (loadNextImages_sound w Hs) as (Ho' & _).
  destruct (loadNextImages_emits w) as (new & Hu & Htr).
  apply no_batch_tail in Htr; [|apply (o_no_batch_error _ Ho')].
  pose proof (o_nodup _ Ho') as Hn. rewrite Hu in Hn.
  apply NoDup_app in Hn as (_ & Hdis & Hn).
  constructor; intros u.
  - unfold requests_of. rewrite Htr, count_app. fold (requests_of u w).
    rewrite Fr, Hu, count_requests by done.
    destruct (decide (u ∈ preloadedUrls w)) as [Hin|Hin].
    + rewrite decide_False by (by apply Hdis).
      rewrite decide_True; [done|]. apply elem_of_app. by left.
    + destruct (decide (u ∈ new)) as [Hin2|Hin2].
      * rewrite decide_True; [done|]. apply elem_of_app. by right.
      * rewrite decide_False; [done|]. by intros [?|?]%elem_of_app.
  - unfold fetches_of. rewrite Htr, count_app. fold (fetches_of u w).
    rewrite Ff. rewrite (count_zero _ (ImageRequest <$> new)).
    2:{ intros x (y & -> & _)%list_elem_of_fmap. done. }
    pose proof (loadNextImages_frame w) as F. cbv zeta in F.
    destruct F as (_ & -> & _).
    pose proof (loadNextImages_loads w u Hs) as L.
    destruct (loads w !! u) as [l|]; [by rewrite L|].
    destruct L as [-> | ->]; done.
Qed.

Lemma page_load_frugal (idle : bool) (t0 : N)
    (store : gmap string (list Byte.byte)) (d : document) (opened : bool)
    (es : list event) :
  frugal (page_load idle t0 store d opened es).
Proof.
  unfold page_load.
  assert (H0 : healthy (init d opened (constructed idle t0 store))
               ∧ frugal (init d opened (constructed idle t0 store))).
  { split; [apply init_healthy|]. unfold init, startPreloading.
    pose proof (constructed_sound idle t0 store) as (H1 & H2 & H3).
    apply loadNextImages_frugal.
    - apply (cosmetic_orderly (constructed idle t0 store)); try done.
      apply cosmetic_queue. destruct opened.
      + apply cosmetic_db, cosmetic_refl.
      + apply cosmetic_emit; [apply cosmetic_refl | done].
    - constructor; intros u; fields.
      + rewrite decide_False by (destruct opened; apply not_elem_of_nil).
        apply count_zero. intros x. destruct opened; fields.
        * by intros ?%elem_of_nil.
        * by intros ->%list_elem_of_singleton.
      + replace (loads (if opened then set_db true (constructed idle t0 store)
                  else emit (ConsoleLog IndexedDBUnavailable)
                         (constructed idle t0 store)) !! u)
          with (@None load) by (destruct opened; done).
        apply count_zero. intros x. destruct opened; fields.
        * by intros ?%elem_of_nil.
        * by intros ->%list_elem_of_singleton. }
  revert H0. generalize (init d opened (constructed idle t0 store)) as w.
  induction es as [|e es IH]; intros w [Hh Hf]; [done|].
  simpl. apply IH. split; [by apply step_healthy | by apply step_frugal].
Qed.

End Economy.

(** ** The store and the console over a page load *)

Section Store.

Lemma page_load_snoc (idle : bool) (t0 : N)
    (store : gmap string (list Byte.byte)) (d : document) (opened : bool)
    (es : list event) (e : event) :
  page_load idle t0 store d opened (es ++ [e])
  = step e (page_load idle t0 store d opened es).
Proof. apply run_snoc. Qed.

Lemma emitted_no_unavailable (e : event) (w : preloader) :
  ConsoleLog IndexedDBUnavailable ∉ emitted e w.
Proof.
  destruct e as [ms|v|v|v r|v r s|i]; cbn [emitted].
  - apply not_elem_of_nil.
  - destruct (loads w !! v) as [l|]; [|apply not_elem_of_nil].
    destruct (img_fired l || negb (db w)); [apply not_elem_of_nil|].
    by intros ?%list_elem_of_singleton.
  - destruct (loads w !! v) as [l|]; [|apply not_elem_of_nil].
    destruct (img_fired l || negb (db w)); [apply not_elem_of_nil|].
    by intros ?%list_elem_of_singleton.
  - destruct (phase_of w v); try apply not_elem_of_nil.
    destruct (failed_response r); [|apply not_elem_of_nil].
    by intros ?%list_elem_of_singleton.
  - destruct (phase_of w v); try (destruct r; apply not_elem_of_nil).
    destruct r as [msg|b]; [by intros ?%list_elem_of_singleton|].
    by intros [?|[m ?]]%put_effects_elem.
  - by intros (y & ? & _)%list_elem_of_fmap.
Qed.

Lemma run_progress (es : list event) (w : preloader) (u : url) (l : load) :
  healthy w → loads w !! u = Some l →
  ∃ l', loads (run es w) !! u = Some l' ∧ progress l l'.
Proof.
  revert w l. induction es as [|e es IH]; intros w l Hw Hl.
  { exists l. split; [done | apply progress_refl]. }
  simpl. destruct (step_loads e w u l Hw Hl) as (l1 & H1 & P1 & _).
  destruct (IH (step e w) l1 (step_healthy e w Hw) H1) as (l2 & H2 & P2).
  exists l2. split; [done | by apply (progress_trans _ l1)].
Qed.

End Store.

(** ** Requests, loads and the store over a page load *)

(** X4.  No request is made twice.  At every moment of a page load, for
    every URL: [img.src = url] has run once if the URL has been handed to
    [preloadImage] and never otherwise; [fetch(url)] has run once if the
    database is open and the [Image] has had its load or error event, and
    never otherwise; and there are no more [store.put] calls than fetches,
    and no more fetches than image requests. *)
Theorem requests_are_not_repeated (idle : bool) (t0 : N)
    (store : gmap string (list Byte.byte)) (d : document) (opened : bool)
    (es : list event) (u : url) :
  let w := page_load idle t0 store d opened es in
  requests_of u w = (if decide (u ∈ preloadedUrls w) then 1 else 0)
  ∧ fetches_of u w
    = match loads w !! u with
      | Some l => if img_fired l && opened then 1 else 0
      | None => 0
      end
  ∧ puts_of u w ≤ fetches_of u w
  ∧ fetches_of u w ≤ requests_of u w
  ∧ requests_of u w ≤ 1.
Proof.
  intros w.
  destruct (page_load_frugal idle t0 store d opened es) as [Fr Ff].
  destruct (page_load_healthy idle t0 store d opened es) as [(Ho & _) Hc].
  destruct (page_load_db idle t0 store d opened es) as [Hdb _].
  fold w in Fr, Ff, Ho, Hc, Hdb.
  split_and!.
  - apply Fr.
  - rewrite Ff, Hdb. done.
  - rewrite Ff. pose proof (ca_puts w Hc u) as P1.
    destruct (decide (puts_of u w = 0)) as [->|Hpos]; [lia|].
    destruct (ca_put_done w Hc u) as [Hp _]; [lia|].
    unfold phase_of in Hp. destruct (loads w !! u) as [l|] eqn:El; [|done].
    assert (Hf : img_fired l = true).
    { destruct (img_fired l) eqn:Ef; [done|].
      rewrite (ca_idle w Hc u l El Ef) in Hp. done. }
    assert (Hd : db w = true).
    { destruct (db w) eqn:Ed; [done|].
      destruct (ca_no_db w Hc Ed) as (_ & _ & Hno).
      assert (0 < puts_of u w) as Hpos' by lia.
      apply count_puts_pos in Hpos' as [b Hb]. by destruct (Hno u b). }
    rewrite Hf, Hd. simpl. lia.
  - rewrite Ff, Fr. destruct (loads w !! u) as [l|] eqn:El; [|lia].
    rewrite decide_True; [destruct (img_fired l && db w); lia|].
    apply (o_dom w Ho). eauto.
  - rewrite Fr. case_decide; lia.
Qed.

(** X5.  The record of a load only moves forward.  Once a URL has a load,
    it keeps it through whatever happens later: the start time stays, a
    fulfilled promise stays fulfilled at the same time, an [Image] event
    or a timer that has been delivered stays delivered, and [cacheImage]
    never goes back to an earlier [await]. *)
Theorem loads_only_move_forward (idle : bool) (t0 : N)
    (store : gmap string (list Byte.byte)) (d : document) (opened : bool)
    (es es' : list event) (u : url) (l : load) :
  loads (page_load idle t0 store d opened es) !! u = Some l →
  ∃ l', loads (page_load idle t0 store d opened (es ++ es')) !! u = Some l'
        ∧ started l' = started l
        ∧ (∀ t, outcome l = Fulfilled t → outcome l' = Fulfilled t)
        ∧ (img_fired l = true → img_fired l' = true)
        ∧ (timer_fired l = true → timer_fired l' = true)
        ∧ phase_rank (caching l) ≤ phase_rank (caching l').
Proof.
  intros Hl. unfold page_load in *. rewrite run_app.
  apply run_progress; [|done]. apply page_load_healthy.
Qed.

Lemma loads_only_move_forward_witness :
  ∃ l', loads (page_load false 0 ∅ gallery_page true
                 ([] ++ [ImageLoaded "1.jpg"; Advance 40000])) !! "1.jpg"
        = Some l'
        ∧ started l' = started (new_load 0)
        ∧ (∀ t, outcome (new_load 0) = Fulfilled t → outcome l' = Fulfilled t)
        ∧ (img_fired (new_load 0) = true → img_fired l' = true)
        ∧ (timer_fired (new_load 0) = true → timer_fired l' = true)
        ∧ phase_rank (caching (new_load 0)) ≤ phase_rank (caching l').
Proof.
  assert (H : loads (page_load false 0 ∅ gallery_page true []) !! "1.jpg"
              = Some (new_load 0)) by (vm_compute; reflexivity).
  exact (loads_only_move_forward false 0%N ∅ gallery_page true []
           [ImageLoaded "1.jpg"; Advance 40000] "1.jpg" (new_load 0) H).
Defined.


(** ** Pages without images, and the viewport test *)

Section Rest.

Lemma step_at_rest (e : event) (w : preloader) :
  at_rest w →
  at_rest (step e w) ∧ trace (step e w) = trace w ∧ idb (step e w) = idb w.
Proof.
  intros (Hu & Hq & Hl & Hcb & Hp).
  assert (Hw : at_rest w ∧ trace w = trace w ∧ idb w = idb w) by done.
  destruct e as [ms|u|u|u r|u r s|i]; cbn [step].
  - unfold advance. rewrite Hu. by cbn.
  - unfold image_event. by rewrite Hl, lookup_empty.
  - unfold image_event. by rewrite Hl, lookup_empty.
  - unfold phase_of. by rewrite Hl, lookup_empty.
  - unfold phase_of. by rewrite Hl, lookup_empty.
  - by rewrite Hcb, lookup_nil.
Qed.

Lemma build_queue_nil (d : document) :
  getAllImageUrls d = [] → build_queue d = [].
Proof.
  intros H. destruct (build_queue d) as [|u q] eqn:E; [done|].
  assert (Hin : u ∈ build_queue d) by (rewrite E; left).
  apply build_queue_elem in Hin. rewrite H in Hin. by apply elem_of_nil in Hin.
Qed.

End Rest.

(** X8.  On a page where no image URL is found the preloader does
    nothing at all, whatever the browser delivers: no image is requested,
    nothing is fetched or stored, no callback is scheduled, and the only
    line ever logged is the one about a database that did not open. *)
Theorem page_without_images (idle : bool) (t0 : N)
    (store : gmap string (list Byte.byte)) (d : document) (opened : bool)
    (es : list event) :
  getAllImageUrls d = [] →
  let w := page_load idle t0 store d opened es in
  trace w = (if opened then [] else [ConsoleLog IndexedDBUnavailable])
  ∧ idb w = store
  ∧ preloadedUrls w = [] ∧ preloadingQueue w = [] ∧ loads w = ∅
  ∧ callbacks w = [] ∧ isPreloading w = false.
Proof.
  intros Hd w. apply build_queue_nil in Hd.
  assert (H : at_rest w
              ∧ trace w = (if opened then [] else [ConsoleLog IndexedDBUnavailable])
              ∧ idb w = store).
  { unfold w, page_load.
    assert (H0 : ∀ w0, at_rest w0 →
              at_rest (run es w0) ∧ trace (run es w0) = trace w0
              ∧ idb (run es w0) = idb w0).
    { induction es as [|e es' IH]; intros w0 H0; [done|]. simpl.
      destruct (step_at_rest e w0 H0) as (H1 & <- & <-). by apply IH. }
    assert (Hi : init d opened (constructed idle t0 store)
                 = set_preloadingQueue []
                     (if opened then set_db true (constructed idle t0 store)
                      else emit (ConsoleLog IndexedDBUnavailable)
                             (constructed idle t0 store))).
    { unfold init, startPreloading. rewrite Hd. unfold loadNextImages. fields.
      by rewrite orb_true_r. }
    rewrite Hi. set (w0 := set_preloadingQueue _ _).
    destruct (H0 w0) as (H1 & -> & ->).
    - unfold w0, at_rest. by destruct opened.
    - split; [done|]. unfold w0. by destruct opened. }
  destruct H as ((? & ? & ? & ? & ?) & ? & ?). done.
Qed.

Lemma page_without_images_witness :
  let w := page_load true 0 ∅ plain_page false
             [ImageLoaded ""; Advance 40000; CallbackRun 0] in
  trace w = [ConsoleLog IndexedDBUnavailable]
  ∧ idb w = ∅
  ∧ preloadedUrls w = [] ∧ preloadingQueue w = [] ∧ loads w = ∅
  ∧ callbacks w = [] ∧ isPreloading w = false.
Proof.
  assert (H : getAllImageUrls plain_page = []) by (vm_compute; reflexivity).
  exact (page_without_images true 0%N ∅ plain_page false
           [ImageLoaded ""; Advance 40000; CallbackRun 0] H).
Defined.

(** X9.  [isElementInViewport] tests overlap, not containment.  For a box
    of positive width and height and a viewport of positive size it holds
    exactly when the box and the viewport have a pixel in common; an image
    that is only partly on screen counts as visible. *)
Theorem in_viewport_iff_overlap (d : document) (el : img_element) :
  (top (img_rect el) < bottom (img_rect el))%Z →
  (left (img_rect el) < right (img_rect el))%Z →
  (0 < innerHeight d)%Z → (0 < innerWidth d)%Z →
  isElementInViewport d el = true
  ↔ ∃ x y : Z,
      (left (img_rect el) ≤ x < right (img_rect el))%Z
      ∧ (top (img_rect el) ≤ y < bottom (img_rect el))%Z
      ∧ (0 ≤ x < innerWidth d)%Z ∧ (0 ≤ y < innerHeight d)%Z.
Proof.
  intros Hh Hw HH HW. unfold isElementInViewport. cbv zeta.
  rewrite !andb_true_iff, !Z.ltb_lt. split.
  - intros (((H1 & H2) & H3) & H4).
    exists (Z.max (left (img_rect el)) 0), (Z.max (top (img_rect el)) 0). lia.
  - intros (x & y & ? & ? & ? & ?). lia.
Qed.

Lemma in_viewport_iff_overlap_witness :
  isElementInViewport scenario
    {| img_src := "a.jpg"; img_rect := box (-50) (-20) 110 210 |} = true
  ↔ ∃ x y : Z,
      (-20 ≤ x < 210)%Z ∧ (-50 ≤ y < 110)%Z
      ∧ (0 ≤ x < 1200)%Z ∧ (0 ≤ y < 800)%Z.
Proof.
  assert (H1 : (-50 < 110)%Z) by lia.
  assert (H2 : (-20 < 210)%Z) by lia.
  assert (H3 : (0 < 800)%Z) by lia.
  assert (H4 : (0 < 1200)%Z) by lia.
  exact (in_viewport_iff_overlap scenario
           {| img_src := "a.jpg"; img_rect := box (-50) (-20) 110 210 |}
           H1 H2 H3 H4).
Defined.

(** ** Batches are 100 ms apart without [requestIdleCallback] *)

Section Pacing.

Lemma rescheduled_timeout (idle : bool) (t : N) (q : list string) (due : N) :
  TimeoutCallback due ∈ rescheduled idle t q →
  idle = false ∧ due = (t + 100)%N.
Proof.
  unfold rescheduled. destruct q; [by intros ?%elem_of_nil|].
  destruct idle; intros H%list_elem_of_singleton; [done|].
  by injection H as ->.
Qed.

Lemma resumeBatch_timeouts (w : preloader) (due : N) :
  TimeoutCallback due ∈ callbacks (resumeBatch w) →
  TimeoutCallback due ∈ callbacks w ∨ due = (now w + 100)%N.
Proof.
  unfold resumeBatch. destruct (awaiting w) as [ps|]; [|auto].
  destruct (promise_all w ps); [auto | |];
    rewrite finishBatch_callbacks; fields;
    intros [?|H]%elem_of_app; auto; right;
    by apply rescheduled_timeout in H as [_ ?].
Qed.

Lemma resolve_timeouts (u : url) (w : preloader) (due : N) :
  TimeoutCallback due ∈ callbacks (resolve u w) →
  TimeoutCallback due ∈ callbacks w
  ∨ (due = (now w + 100)%N ∧ ∃ l, loads w !! u = Some l ∧ outcome l = Pending).
Proof.
  unfold resolve. destruct (loads w !! u) as [l|] eqn:El; [|auto].
  destruct (outcome l) eqn:Eo; auto.
  intros [?|?]%resumeBatch_timeouts; fields; eauto.
Qed.

Lemma then_resolve_timeouts (u : url) (st : stretch) (w1 : preloader) (due : N) :
  TimeoutCallback due ∈ callbacks (then_resolve u (st, w1)) →
  TimeoutCallback due ∈ callbacks w1
  ∨ (due = (now w1 + 100)%N
     ∧ ∃ l, loads w1 !! u = Some l ∧ outcome l = Pending).
Proof.
  destruct st; cbn [then_resolve]; unfold set_phase; fields; auto.
  intros [?|(? & l' & Hl & Ho)]%resolve_timeouts; fields; auto.
  right. split; [done|]. rewrite lookup_alter_eq in Hl.
  destruct (loads w1 !! u) as [l|]; [|done]. injection Hl as <-. eauto.
Qed.

Lemma loadNextImages_timeouts (w : preloader) (due : N) :
  TimeoutCallback due ∈ callbacks (loadNextImages w) →
  TimeoutCallback due ∈ callbacks w ∨ due = (now w + 100)%N.
Proof.
  unfold loadNextImages.
  destruct (isPreloading w || (length (preloadingQueue w) =? 0)); [auto|].
  set (batch := take batchSize _).
  set (w2 := set_preloadingQueue _ _).
  pose proof (map_preloadImage_frame batch w2) as F.
  destruct (map_preloadImage batch w2) as [ps w3]. cbn [fst snd] in *.
  cbv zeta in F. destruct F as (_ & Fn & _ & _ & _ & _ & _ & _ & Fc & _).
  unfold w2 in *. fields.
  intros [?|?]%resumeBatch_timeouts; fields; [left | right]; congruence.
Qed.

Lemma scheduled_hushed (bound : N) (w : preloader) :
  scheduled bound w → hushed w.
Proof. unfold scheduled, hushed. intros H ps E. by rewrite E in H. Qed.

Lemma resumeBatch_hushed (w : preloader) : hushed w → hushed (resumeBatch w).
Proof.
  intros H. unfold resumeBatch. destruct (awaiting w) as [ps|] eqn:E; [|done].
  destruct (promise_all w ps); [done | |]; intros ps' E'.
  - pose proof (finishBatch_fields (set_awaiting None w)) as F. cbv zeta in F.
    destruct F as (_ & _ & _ & _ & _ & _ & _ & _ & _ & Fa).
    rewrite Fa in E'. done.
  - pose proof (finishBatch_fields
      (emit (ConsoleLog BatchPreloadError) (set_awaiting None w))) as F.
    cbv zeta in F.
    destruct F as (_ & _ & _ & _ & _ & _ & _ & _ & _ & Fa).
    rewrite Fa in E'. done.
Qed.

Lemma resolve_hushed (u : url) (w : preloader) : hushed w → hushed (resolve u w).
Proof.
  intros H. unfold resolve. destruct (loads w !! u) as [l|]; [|done].
  destruct (outcome l); try done. by apply resumeBatch_hushed.
Qed.

Lemma fire_timer_hushed (u : url) (w : preloader) :
  hushed w → hushed (fire_timer u w).
Proof.
  intros H. unfold fire_timer. destruct (loads w !! u) as [l|]; [|done].
  destruct (timer_fired l); [done|]. by apply resolve_hushed.
Qed.

Lemma settling_paced (w w' : preloader) (u : url) (T : N) (f : load → load) :
  paced w →
  loads w' = alter f u (loads w) →
  (∀ l, started (f l) = started l
        ∧ (outcome (f l) = outcome l
           ∨ (outcome l = Pending ∧ outcome (f l) = Fulfilled T))) →
  (∀ due, TimeoutCallback due ∈ callbacks w' →
     TimeoutCallback due ∈ callbacks w
     ∨ (due = (T + 100)%N ∧ ∃ l, loads w !! u = Some l ∧ outcome l = Pending)) →
  (∀ l, loads w !! u = Some l → outcome l = Pending →
     callbacks w = [] ∧ settled_by T w) →
  paced w' ∧ (∀ B, settled_by B w → (T ≤ B)%N → settled_by B w').
Proof.
  intros [P1 P4] Hl Hf Hcb Hp.
  assert (Hback : ∀ v l', loads w' !! v = Some l' →
     ∃ l, loads w !! v = Some l ∧ started l' = started l
          ∧ (outcome l' = outcome l
             ∨ (v = u ∧ outcome l = Pending ∧ outcome l' = Fulfilled T))).
  { intros v l'. rewrite Hl, lookup_alter. case_decide as E.
    - subst v. destruct (loads w !! u) as [l|]; [|done]. intros [= <-].
      exists l. destruct (Hf l) as (S & [O | [O1 O2]]); split_and!; auto.
    - intros Hv. exists l'. split_and!; auto. }
  split; [constructor|].
  - intros v l' t due Hv Ho Hd.
    destruct (Hback v l' Hv) as (l & Hv0 & S & O).
    destruct (Hcb due Hd) as [Hd0 | (-> & lu & Hu & Opu)].
    + destruct O as [O | (-> & O1 & O2)].
      * apply (P1 v l t due); congruence.
      * destruct (Hp l Hv0 O1) as [Hnil _]. rewrite Hnil in Hd0.
        by apply elem_of_nil in Hd0.
    + destruct (Hp lu Hu Opu) as [_ HT].
      destruct O as [O | (-> & O1 & O2)].
      * assert (t ≤ T)%N; [|lia]. apply (HT v l t); congruence.
      * rewrite O2 in Ho. injection Ho as <-. lia.
  - intros x y lx' ly' Hx Hy Hlt.
    destruct (Hback x lx' Hx) as (lx & Hx0 & Sx & Ox).
    destruct (Hback y ly' Hy) as (ly & Hy0 & Sy & _).
    destruct (P4 x y lx ly Hx0 Hy0) as (t & Ot & Ht); [lia|].
    exists t. split; [|lia].
    destruct Ox as [-> | (_ & O1 & _)]; [done | congruence].
  - intros B HB HTB v l' t Hv Ho.
    destruct (Hback v l' Hv) as (l & Hv0 & S & [O | (_ & O1 & O2)]).
    + apply (HB v l t); congruence.
    + rewrite O2 in Ho. injection Ho as <-. done.
Qed.

Lemma cache_stretch_paced (u : url) (st : stretch) (w w1 : preloader)
    (g : load → load) :
  orderly w → hushed w → paced w → settled_by (now w) w →
  now w1 = now w → callbacks w1 = callbacks w →
  loads w1 = alter g u (loads w) →
  (∀ l, started (g l) = started l ∧ outcome (g l) = outcome l) →
  paced (then_resolve u (st, w1))
  ∧ settled_by (now (then_resolve u (st, w1))) (then_resolve u (st, w1)).
Proof.
  intros Ho Hh Hp Hs Hn Hc Hl Hg.
  pose proof (then_resolve_fields u st w1) as F. cbv zeta in F.
  destruct F as (Fn & _ & _ & _ & _ & Fl). rewrite Fn, Hn.
  destruct (settling_paced w (then_resolve u (st, w1)) u (now w)
              (finish st (now w) ∘ g)) as [H1 H2]; try done.
  - by rewrite Fl, Hl, alter_alter_eq, Hn.
  - intros l. cbn [compose]. destruct (Hg l) as [S O].
    unfold finish, settle. destruct st; simpl; rewrite ?S, ?O; auto.
    destruct (outcome l) eqn:E; simpl; rewrite ?S, ?O; auto.
  - intros due [Hd | (-> & l1 & Hl1 & Ho1)]%then_resolve_timeouts.
    + left. by rewrite <- Hc.
    + right. rewrite Hn. split; [done|].
      rewrite Hl, lookup_alter_eq in Hl1.
      destruct (loads w !! u) as [l|]; [|done]. injection Hl1 as <-.
      exists l. split; [done|]. destruct (Hg l) as [_ <-]. done.
  - intros l El Hpend. split; [|done].
    destruct (o_pending w Ho u l El Hpend) as (ps & Ha & _). by apply (Hh ps).
  - split; [done|]. apply H2; [done | lia].
Qed.

Lemma fire_timer_paced (target : N) (u : url) (w : preloader) :
  orderly w → hushed w → paced w → settled_by target w →
  timer_due target u w = true →
  paced (fire_timer u w) ∧ settled_by target (fire_timer u w).
Proof.
  intros Ho Hh Hp Hs Hd. unfold timer_due in Hd.
  destruct (loads w !! u) as [l|] eqn:El; [|done].
  apply andb_true_iff in Hd as [Ht Hdue]. apply negb_true_iff in Ht.
  apply N.leb_le in Hdue.
  set (T := (started l + timeout_ms)%N) in *.
  assert (Hw' : fire_timer u w
                = resolve u (update_load u set_timer_fired (set_now T w))).
  { unfold fire_timer. by rewrite El, Ht. }
  pose proof (resolve_fields u (update_load u set_timer_fired (set_now T w))) as F.
  cbv zeta in F. destruct F as (_ & _ & _ & _ & _ & _ & Fl & _). fields.
  destruct (settling_paced w (fire_timer u w) u T (settle T ∘ set_timer_fired))
    as [H1 H2]; try done.
  - rewrite Hw', Fl. by rewrite alter_alter_eq.
  - intros l0. cbn [compose]. unfold settle. simpl.
    destruct (outcome l0) eqn:E; simpl; auto.
  - intros due. rewrite Hw'.
    intros [Hd | (-> & l1 & Hl1 & Ho1)]%resolve_timeouts; fields; [auto|].
    right. split; [done|]. rewrite lookup_alter_eq, El in Hl1.
    injection Hl1 as <-. eauto.
  - intros l0 Hl0 Hpend. assert (l0 = l) as -> by congruence. split.
    + destruct (o_pending w Ho u l El Hpend) as (ps & Ha & _). by apply (Hh ps).
    + intros v lv t Hv Hf. pose proof (o_loads w Ho v lv Hv) as Hst.
      unfold settled_in_time in Hst. rewrite Hf in Hst.
      assert (started lv ≤ started l)%N.
      { destruct (N.le_gt_cases (started lv) (started l)) as [|Hlt]; [done|].
        destruct (pa_batches w Hp u v l lv El Hv Hlt) as (t' & Ot & _).
        congruence. }
      unfold T. lia.
  - split; [done|]. by apply H2.
Qed.

Lemma advance_fold_paced (target : N) (us : list string) (w : preloader) :
  orderly w → waiting w → hushed w → paced w → settled_by target w →
  let wf := foldl (λ w' u, if timer_due target u w' then fire_timer u w' else w')
              w us in
  paced wf ∧ settled_by target wf.
Proof.
  revert w. induction us as [|u us IH]; intros w Ho Hw Hh Hp Hs; [done|].
  simpl. destruct (timer_due target u w) eqn:Ed; [|by apply IH].
  destruct (fire_timer_orderly w u Ho Hw) as [Ho' Hw'].
  destruct (fire_timer_paced target u w Ho Hh Hp Hs Ed) as [Hp' Hs'].
  apply IH; try done. by apply fire_timer_hushed.
Qed.

Lemma advance_paced (ms : N) (w : preloader) :
  orderly w → waiting w → hushed w → paced w → settled_by (now w) w →
  paced (advance ms w) ∧ settled_by (now (advance ms w)) (advance ms w).
Proof.
  intros Ho Hw Hh Hp Hs. unfold advance. fields.
  destruct (advance_fold_paced (now w + ms)%N (preloadedUrls w) w)
    as [[P1 P4] Hs']; try done.
  intros v l t Hv Hf. specialize (Hs v l t Hv Hf). lia.
Qed.

Lemma loadNextImages_paced (w : preloader) :
  sound w → callbacks w = [] →
  (∀ v l, loads w !! v = Some l →
     ∃ t, outcome l = Fulfilled t ∧ (t + 100 ≤ now w)%N) →
  (∀ u v lu lv, loads w !! u = Some lu → loads w !! v = Some lv →
     (started lu < started lv)%N →
     ∃ t, outcome lu = Fulfilled t ∧ (t + 100 ≤ started lv)%N) →
  paced (loadNextImages w)
  ∧ settled_by (now (loadNextImages w)) (loadNextImages w).
Proof.
  intros Hs Hcb Hall P4.
  pose proof (loadNextImages_frame w) as F. cbv zeta in F.
  destruct F as (-> & _).
  assert (Hback : ∀ v l', loads (loadNextImages w) !! v = Some l' →
            loads w !! v = Some l'
            ∨ (loads w !! v = None ∧ l' = new_load (now w))).
  { intros v l' Hv. pose proof (loadNextImages_loads w v Hs) as L.
    destruct (loads w !! v) as [l|]; [left; congruence|]. right.
    destruct L as [L|L]; rewrite L in Hv; [done|]. by injection Hv as <-. }
  assert (Hto : ∀ due, TimeoutCallback due ∈ callbacks (loadNextImages w) →
            due = (now w + 100)%N).
  { intros due [H|H]%loadNextImages_timeouts; [|done].
    rewrite Hcb in H. by apply elem_of_nil in H. }
  split; [constructor|].
  - intros v l' t due Hv Ho Hd. rewrite (Hto due Hd).
    destruct (Hback v l' Hv) as [H|[_ ->]]; [|done].
    destruct (Hall v l' H) as (t' & Ot & ?).
    assert (t = t') by congruence. lia.
  - intros x y lx' ly' Hx Hy Hlt.
    destruct (Hback x lx' Hx) as [Hx0|[_ ->]];
      destruct (Hback y ly' Hy) as [Hy0|[_ ->]].
    + by apply (P4 x y).
    + destruct (Hall x lx' Hx0) as (t & Ot & ?). exists t. done.
    + simpl in Hlt. destruct Hs as (_ & _ & Ht).
      destruct (Ht y ly' Hy0) as [? _]. lia.
    + simpl in Hlt. lia.
  - intros v l' t Hv Ho.
    destruct (Hback v l' Hv) as [H|[_ ->]]; [|done].
    destruct (Hall v l' H) as (t' & Ot & ?).
    assert (t = t') by congruence. lia.
Qed.

Lemma step_paced (e : event) (w : preloader) :
  robust w → hasIdle w = false →
  paced w ∧ settled_by (now w) w →
  paced (step e w) ∧ settled_by (now (step e w)) (step e w).
Proof.
  intros [[(Ho & Hw & Ht) Hc] Hsch] Hidle [Hp Hs].
  pose proof (scheduled_hushed _ w Hsch) as Hh.
  assert (Hid : ∀ (m : gmap string load) x, m = alter id x m).
  { intros m x. symmetry. by apply alter_id. }
  assert (Himg : ∀ u,
    paced (then_resolve u (cacheImage u (update_load u set_img_fired w)))
    ∧ settled_by
        (now (then_resolve u (cacheImage u (update_load u set_img_fired w))))
        (then_resolve u (cacheImage u (update_load u set_img_fired w)))).
  { intros u. unfold cacheImage. fields.
    destruct (db w); cbn [negb]; unfold try_fetch, catch_log;
      by apply (cache_stretch_paced u _ w _ set_img_fired). }
  destruct e as [ms|u|u|u r|u r s|i]; cbn [step].
  - by apply advance_paced.
  - unfold image_event, onload. destruct (loads w !! u) as [l|]; [|done].
    destruct (img_fired l); [done|]. apply Himg.
  - unfold image_event, onerror. destruct (loads w !! u) as [l|]; [|done].
    destruct (img_fired l); [done|]. apply Himg.
  - destruct (phase_of w u); try done.
    unfold cacheImage_response, try_response.
    destruct r as [msg|s]; [|destruct (response_ok s)]; cbn [catch_log];
      by apply (cache_stretch_paced u _ w _ id).
  - destruct (phase_of w u); try done.
    unfold cacheImage_body, try_body, try_put.
    destruct r as [msg|b]; [|destruct s as [m|m| |]]; cbn [catch_log];
      by apply (cache_stretch_paced u _ w _ id).
  - destruct (callbacks w !! i) as [cb|] eqn:Ecb; [|done].
    destruct (callback_ready (now w) cb) eqn:Er; [|done].
    unfold scheduled in Hsch. destruct (awaiting w) as [ps|] eqn:Ea.
    { rewrite Hsch in Ecb. done. }
    destruct Hsch as [[Hcb _] | (cb' & Hcb & Hq & Hok)].
    { rewrite Hcb in Ecb. done. }
    rewrite Hcb in Ecb. destruct i as [|i]; [|by destruct i].
    injection Ecb as ->. rewrite Hidle in Hok.
    destruct cb as [tmo|due]; cbn [callback_ok] in Hok; [by destruct Hok|].
    cbn [callback_ready] in Er. apply N.leb_le in Er.
    apply loadNextImages_paced; fields.
    + split_and!; [by destruct Ho | done | done].
    + by rewrite Hcb.
    + intros v l Hv.
      destruct (idle_not_awaiting w Ho (o_idle w Ho Ea)) as [_ Hnp].
      pose proof (o_loads w Ho v l Hv) as Hst. unfold settled_in_time in Hst.
      destruct (outcome l) as [|t|] eqn:Eo; [by destruct (Hnp v l Hv) | | done].
      exists t. split; [done|].
      assert (t + 100 ≤ due)%N; [|lia].
      apply (pa_callbacks w Hp v l t due Hv Eo). rewrite Hcb. left.
    + apply (pa_batches w Hp).
Qed.

Lemma page_load_paced (t0 : N) (store : gmap string (list Byte.byte))
    (d : document) (opened : bool) (es : list event) :
  paced (page_load false t0 store d opened es).
Proof.
  unfold page_load.
  set (w0 := init d opened (constructed false t0 store)).
  assert (H0 : robust w0 ∧ hasIdle w0 = false
               ∧ paced w0 ∧ settled_by (now w0) w0).
  { split; [apply (page_load_robust false t0 store d opened [])|].
    split.
    { unfold w0.
      by destruct (init_healthy false t0 store d opened) as (_ & _ & -> & _). }
    unfold w0, init, startPreloading.
    pose proof (constructed_sound false t0 store) as (H1 & H2 & H3).
    apply loadNextImages_paced.
    - apply (cosmetic_orderly (constructed false t0 store)); try done.
      apply cosmetic_queue. destruct opened.
      + apply cosmetic_db, cosmetic_refl.
      + apply cosmetic_emit; [apply cosmetic_refl | done].
    - by destruct opened.
    - intros v l. by destruct opened.
    - intros u v lu lv. by destruct opened. }
  clearbody w0. revert w0 H0.
  induction es as [|e es IH]; intros w0 (Hr & Hi & Hp & Hs); [done|].
  simpl. apply IH.
  destruct (step_paced e w0 Hr Hi (conj Hp Hs)) as [Hp' Hs'].
  split_and!; [by apply step_robust | | done | done].
  destruct (step_frame e w0) as (_ & -> & _). done.
Qed.

End Pacing.

(** X10.  Without [requestIdleCallback] the batches are at least 100 ms
    apart: whenever one load has started later than another, the other's
    promise had settled at least 100 ms before the later load started. *)
Theorem batches_are_spaced (t0 : N) (store : gmap string (list Byte.byte))
    (d : document) (opened : bool) (es : list event) (u v : url)
    (lu lv : load) :
  let w := page_load false t0 store d opened es in
  loads w !! u = Some lu → loads w !! v = Some lv →
  (started lu < started lv)%N →
  ∃ t, outcome lu = Fulfilled t
       ∧ (started lu ≤ t)%N ∧ (t + 100 ≤ started lv)%N.
Proof.
  intros w Hu Hv Hlt.
  destruct (pa_batches w (page_load_paced t0 store d opened es) u v lu lv
              Hu Hv Hlt) as (t & Ot & Ht).
  exists t. split_and!; [done | | done].
  destruct (page_load_healthy false t0 store d opened es) as [(Ho & _) _].
  pose proof (o_loads _ Ho u lu Hu) as Hst. unfold settled_in_time in Hst.
  rewrite Ot in Hst. lia.
Qed.

Lemma batches_are_spaced_witness :
  ∃ t, outcome (set_timer_fired (set_outcome (Fulfilled 30000) (new_load 0)))
       = Fulfilled t
       ∧ (started (set_timer_fired (set_outcome (Fulfilled 30000) (new_load 0)))
          ≤ t)%N
       ∧ (t + 100 ≤ started (new_load 30100))%N.
Proof.
  assert (H1 : loads (page_load false 0 ∅ gallery_page true
                        [Advance 30000; Advance 100; CallbackRun 0]) !! "1.jpg"
               = Some (set_timer_fired (set_outcome (Fulfilled 30000) (new_load 0))))
    by (vm_compute; reflexivity).
  assert (H2 : loads (page_load false 0 ∅ gallery_page true
                        [Advance 30000; Advance 100; CallbackRun 0]) !! "5.jpg"
               = Some (new_load 30100))
    by (vm_compute; reflexivity).
  assert (H3 : (started (set_timer_fired (set_outcome (Fulfilled 30000) (new_load 0)))
                < started (new_load 30100))%N)
    by (vm_compute; reflexivity).
  exact (batches_are_spaced 0%N ∅ gallery_page true
           [Advance 30000; Advance 100; CallbackRun 0] "1.jpg" "5.jpg"
           (set_timer_fired (set_outcome (Fulfilled 30000) (new_load 0)))
           (new_load 30100) H1 H2 H3).
Defined.

(** ** Images are requested in the order of the queue *)

Section Order.

Lemma omap_requests (new : list string) :
  omap request_of (ImageRequest <$> new) = new.
Proof. induction new as [|u new IH]; [done|]. cbn. by rewrite IH. Qed.

Lemma emitted_requested (e : event) (w : preloader) :
  orderly w → waiting w →
  omap request_of (emitted e w) = claimed_by e w.
Proof.
  intros Ho Hw.
  assert (Hother : (∀ i, e ≠ CallbackRun i) → claimed_by e w = []).
  { intros Hne. unfold claimed_by.
    by rewrite (step_urls_same e w Ho Hw Hne), drop_all. }
  destruct e as [ms|v|v|v r|v r s|i]; cbn [emitted];
    try (rewrite Hother by done).
  - done.
  - destruct (loads w !! v) as [l|]; [|done].
    by destruct (img_fired l || negb (db w)).
  - destruct (loads w !! v) as [l|]; [|done].
    by destruct (img_fired l || negb (db w)).
  - by destruct (phase_of w v), (failed_response r).
  - by destruct (phase_of w v), r, s.
  - apply omap_requests.
Qed.

Lemma page_load_requested (idle : bool) (t0 : N)
    (store : gmap string (list Byte.byte)) (d : document) (opened : bool)
    (es : list event) :
  requested (page_load idle t0 store d opened es)
  = preloadedUrls (page_load idle t0 store d opened es).
Proof.
  induction es as [|e es IH] using rev_ind.
  - unfold page_load, init, startPreloading. simpl.
    set (w1 := set_preloadingQueue _ _).
    destruct (loadNextImages_emits w1) as (new & Hu & Htr).
    apply no_batch_tail in Htr.
    2:{ destruct (init_healthy idle t0 store d opened) as ([(Ho & _) _] & _).
        apply (o_no_batch_error _ Ho). }
    unfold requested. rewrite Htr, Hu, omap_app, omap_requests.
    unfold w1. by destruct opened.
  - rewrite page_load_snoc.
    destruct (page_load_healthy idle t0 store d opened es) as [Hs _].
    pose proof Hs as (Ho & Hw & _).
    unfold requested in *. rewrite (step_emits e _ Hs), omap_app, IH.
    rewrite (emitted_requested e _ Ho Hw). symmetry. by apply step_claims.
Qed.

End Order.

(** X11.  Images are requested in the order of the queue.  The image
    requests made so far are, in this order and each once, the URLs of a
    front part of the queue; so no off-screen image is requested before a
    visible one that has not been requested yet. *)
Theorem images_requested_in_queue_order (idle : bool) (t0 : N)
    (store : gmap string (list Byte.byte)) (d : document) (opened : bool)
    (es : list event) :
  let w := page_load idle t0 store d opened es in
  requested w = preloadedUrls w
  ∧ NoDup (requested w)
  ∧ (∃ k, requested w = new_Set (take k (build_queue d))
          ∧ preloadingQueue w = drop k (build_queue d))
  ∧ (∀ u v, u ∈ getVisibleImageUrls d → v ∈ offScreenImages d →
       v ∈ requested w → u ∈ requested w).
Proof.
  intros w.
  pose proof (page_load_requested idle t0 store d opened es) as Hr. fold w in Hr.
  destruct (page_load_drained idle t0 store d opened es) as [k [Hq Hp]].
  fold w in Hq, Hp.
  destruct (page_load_healthy idle t0 store d opened es) as [(Ho & _) _].
  fold w in Ho.
  split_and!; [done | rewrite Hr; apply (o_nodup w Ho) | exists k; by rewrite Hr |].
  intros u v Hu Hv. rewrite Hr, Hp, !new_Set_elem. intros Hin.
  unfold build_queue in *.
  destruct (decide (k ≤ length (getVisibleImageUrls d))) as [Hk|Hk].
  - rewrite take_app_le in Hin by done.
    apply offscreen_elem in Hv as [_ Hnv]. destruct Hnv.
    by apply (subseteq_take k (getVisibleImageUrls d)).
  - rewrite take_app_ge by lia. apply elem_of_app. by left.
Qed.

(** ** Opening the database *)

(** X12.  The upgrade handler of [initIndexedDB] never throws and never
    loses data: afterwards the store [imageCache] exists, every store that
    existed before is there with the content it had, a store that had to
    be created is empty, and running the handler again changes nothing. *)
Theorem upgrade_keeps_the_cache
    (db : gmap string (gmap string (list Byte.byte))) :
  ∃ db', onupgradeneeded db = Some db'
    ∧ is_Some (db' !! storeName)
    ∧ (∀ name s, db !! name = Some s → db' !! name = Some s)
    ∧ (∀ name, name ≠ storeName → db' !! name = db !! name)
    ∧ (db !! storeName = None → db' !! storeName = Some ∅)
    ∧ onupgradeneeded db' = Some db'.
Proof.
  unfold onupgradeneeded, createObjectStore, objectStoreNames_contains.
  destruct (db !! storeName) as [s|] eqn:E.
  - exists db. rewrite E, !bool_decide_eq_true_2 by eauto. cbn [negb].
    split_and!; eauto. done.
  - exists (<[storeName := ∅]> db).
    rewrite bool_decide_eq_false_2 by (by intros [? ?]). cbn [negb].
    rewrite lookup_insert_eq, bool_decide_eq_true_2 by eauto. cbn [negb].
    split_and!; eauto.
    + intros name s Hn. rewrite lookup_insert_ne; [done | congruence].
    + intros name Hn. by rewrite lookup_insert_ne.
Qed.

(** ** Once [cacheImage] is through with a URL *)

Section Settled.

Lemma emitted_puts (e : event) (w : preloader) (u : url) (b : list Byte.byte) :
  phase_of w u ≠ AwaitBody → StorePut u b ∉ emitted e w.
Proof.
  intros Hp. destruct e as [ms|v|v|v r|v r s|i]; cbn [emitted].
  - apply not_elem_of_nil.
  - destruct (loads w !! v) as [l|]; [|apply not_elem_of_nil].
    destruct (img_fired l || negb (db w)); [apply not_elem_of_nil|].
    by intros ?%list_elem_of_singleton.
  - destruct (loads w !! v) as [l|]; [|apply not_elem_of_nil].
    destruct (img_fired l || negb (db w)); [apply not_elem_of_nil|].
    by intros ?%list_elem_of_singleton.
  - destruct (phase_of w v); try apply not_elem_of_nil.
    destruct (failed_response r); [|apply not_elem_of_nil].
    by intros ?%list_elem_of_singleton.
  - destruct (phase_of w v) eqn:Ep; try (destruct r; apply not_elem_of_nil).
    destruct r as [msg|b0]; [by intros ?%list_elem_of_singleton|].
    intros [H|[m H]]%put_effects_elem; [|done].
    injection H as -> _. done.
  - by intros (y & ? & _)%list_elem_of_fmap.
Qed.

Lemma step_puts (e : event) (w : preloader) (u : url) :
  healthy w → phase_of w u ≠ AwaitBody →
  puts_of u (step e w) = puts_of u w ∧ idb (step e w) !! u = idb w !! u.
Proof.
  intros [Hs Hc] Hp. split.
  - unfold puts_of. rewrite (step_emits e w Hs).
    fold (count_puts u (trace w ++ emitted e w)). rewrite count_puts_app.
    fold (count_puts u (trace w)).
    assert (count_puts u (emitted e w) = 0) as ->; [|lia].
    apply count_puts_zero. intros b. by apply emitted_puts.
  - destruct (step_frame e w) as (_ & _ & [-> | (v & b & -> & Hv & ->)]); [done|].
    rewrite lookup_insert_ne; [done|]. intros ->. done.
Qed.

Lemma step_settled (e : event) (w : preloader) (u : url) :
  healthy w → phase_of w u = CacheDone →
  phase_of (step e w) u = CacheDone
  ∧ puts_of u (step e w) = puts_of u w
  ∧ idb (step e w) !! u = idb w !! u.
Proof.
  intros Hh Hp. split; [|apply step_puts; [done | congruence]].
  unfold phase_of in *. destruct (loads w !! u) as [l|] eqn:El; [|done].
  destruct (step_loads e w u l Hh El) as (l' & -> & (_ & _ & _ & _ & Hr) & _).
  rewrite Hp in Hr. destruct (caching l'); simpl in Hr; done || lia.
Qed.

Lemma run_settled (es : list event) (w : preloader) (u : url) :
  healthy w → phase_of w u = CacheDone →
  phase_of (run es w) u = CacheDone
  ∧ puts_of u (run es w) = puts_of u w
  ∧ idb (run es w) !! u = idb w !! u.
Proof.
  revert w. induction es as [|e es IH]; intros w Hh Hp; [done|]. simpl.
  destruct (step_settled e w u Hh Hp) as (Hp' & <- & <-).
  apply IH; [by apply step_healthy | done].
Qed.

Lemma returns_done (u : url) (st : stretch) (w1 : preloader) (l : load) :
  loads w1 !! u = Some l → (∀ p, st ≠ Suspend p) →
  phase_of (then_resolve u (st, w1)) u = CacheDone
  ∧ (st = Return →
     is_pending (promise_state_of (then_resolve u (st, w1)) (LoadPromise u))
     = false).
Proof.
  intros Hl Hst.
  pose proof (then_resolve_fields u st w1) as F. cbv zeta in F.
  destruct F as (_ & _ & _ & _ & _ & Fl).
  pose proof (finish_fields st (now w1) l) as (_ & _ & Qc & Qr & _).
  unfold phase_of. cbn [promise_state_of].
  rewrite Fl, lookup_alter_eq, Hl. cbn [fmap option_fmap option_map].
  split.
  - rewrite Qc. destruct st as [p| |f]; [by destruct (Hst p) | done | done].
  - intros E. specialize (Qr E). by destruct (outcome (finish st (now w1) l)).
Qed.

Lemma count_put_effects (u : url) (b : list Byte.byte) (s : store_answer) :
  count_puts u (put_effects u b s) = puts_made s.
Proof.
  destruct s as [m|m| |]; cbn [put_effects puts_made].
  - apply count_puts_zero. by intros c ?%list_elem_of_singleton.
  - change [StorePut u b; ConsoleLog (FailedToCache u (StoreFailed m))]
      with ([StorePut u b] ++ [ConsoleLog (FailedToCache u (StoreFailed m))]).
    rewrite count_puts_app, count_puts_single, decide_True by done.
    assert (count_puts u [ConsoleLog (FailedToCache u (StoreFailed m))] = 0)
      as ->; [|done].
    apply count_puts_zero. by intros c ?%list_elem_of_singleton.
  - by rewrite count_puts_single, decide_True.
  - by rewrite count_puts_single, decide_True.
Qed.

(** The blob has arrived: lines 57-61 run, and [cacheImage] is through
    with the URL whatever the store answers. *)
Lemma body_arrives (w : preloader) (u : url) (b : list Byte.byte)
    (s : store_answer) :
  healthy w → phase_of w u = AwaitBody →
  let w' := step (BodySettled u (Body b) s) w in
  trace w' = trace w ++ put_effects u b s
  ∧ idb w' = written u b s (idb w)
  ∧ phase_of w' u = CacheDone
  ∧ is_pending (promise_state_of w' (LoadPromise u)) = false
  ∧ puts_of u w = 0
  ∧ puts_of u w' = puts_made s.
Proof.
  intros [Hs Hc] Hp w'.
  assert (Ht : trace w' = trace w ++ put_effects u b s).
  { unfold w'. rewrite (step_emits _ w Hs). cbn [emitted]. by rewrite Hp. }
  assert (Hl : ∃ l, loads w !! u = Some l ∧ caching l = AwaitBody).
  { unfold phase_of in Hp. destruct (loads w !! u) as [l|]; [eauto | done]. }
  destruct Hl as (l & Hl & Hcl).
  assert (P0 : puts_of u w = 0).
  { apply (puts_of_zero w u l); [done | done | congruence]. }
  assert (E : ∃ w1, w' = then_resolve u (Return, w1) ∧ loads w1 = loads w
                    ∧ idb w1 = written u b s (idb w)).
  { unfold w'. cbn [step]. rewrite Hp.
    unfold cacheImage_body, try_body, try_put.
    destruct s as [m|m| |]; cbn [catch_log]; eexists; split_and!; done. }
  destruct E as (w1 & E & El & Ei).
  destruct (returns_done u Return w1 l) as [Hd Hn]; [by rewrite El | done |].
  rewrite <- E in Hd, Hn.
  split_and!; try done.
  - rewrite E. pose proof (then_resolve_frame u (Return, w1)) as F.
    cbv zeta in F. destruct F as (_ & _ & _ & ->). done.
  - by apply Hn.
  - unfold puts_of. rewrite Ht.
    fold (count_puts u (trace w ++ put_effects u b s)).
    rewrite count_puts_app, count_put_effects.
    unfold puts_of in P0. fold (count_puts u (trace w)) in P0. by rewrite P0.
Qed.

(** A fetch that fails and a body that cannot be read end the caching of
    the URL without a [put]. *)
Lemma fetch_fails_done (w : preloader) (u : url) (r : fetch_result)
    (f : failure) :
  healthy w → phase_of w u = AwaitResponse → failed_response r = Some f →
  phase_of (step (FetchSettled u r) w) u = CacheDone
  ∧ puts_of u (step (FetchSettled u r) w) = 0.
Proof.
  intros Hh Hp Hf.
  destruct (step_puts (FetchSettled u r) w u Hh) as [-> _]; [congruence|].
  assert (Hl : ∃ l, loads w !! u = Some l ∧ caching l = AwaitResponse).
  { unfold phase_of in Hp. destruct (loads w !! u) as [l|]; [eauto | done]. }
  destruct Hl as (l & Hl & Hcl). destruct Hh as [_ Hc].
  split; [|apply (puts_of_zero w u l); [done | done | congruence]].
  cbn [step]. rewrite Hp. unfold cacheImage_response, try_response.
  destruct r as [msg|st]; cbn [failed_response] in Hf.
  - cbn [catch_log]. by apply (returns_done u Return _ l).
  - destruct (response_ok st); [done|]. cbn [catch_log].
    by apply (returns_done u Return _ l).
Qed.

Lemma body_fails_done (w : preloader) (u : url) (msg : string)
    (s : store_answer) :
  healthy w → phase_of w u = AwaitBody →
  phase_of (step (BodySettled u (BodyRejected msg) s) w) u = CacheDone
  ∧ puts_of u (step (BodySettled u (BodyRejected msg) s) w) = 0.
Proof.
  intros [Hs Hc] Hp.
  assert (Hl : ∃ l, loads w !! u = Some l ∧ caching l = AwaitBody).
  { unfold phase_of in Hp. destruct (loads w !! u) as [l|]; [eauto | done]. }
  destruct Hl as (l & Hl & Hcl). split.
  - cbn [step]. rewrite Hp. unfold cacheImage_body, try_body.
    cbn [catch_log]. by apply (returns_done u Return _ l).
  - unfold puts_of. rewrite (step_emits _ w Hs). cbn [emitted]. rewrite Hp.
    fold (count_puts u (trace w
            ++ [ConsoleLog (FailedToCache u (BodyFailed msg))])).
    rewrite count_puts_app.
    assert (puts_of u w = 0) as P0.
    { apply (puts_of_zero w u l); [done | done | congruence]. }
    unfold puts_of in P0. fold (count_puts u (trace w)) in P0. rewrite P0.
    apply count_puts_zero. by intros c ?%list_elem_of_singleton.
Qed.

End Settled.

(** ** The round trip through the store, and how often it is written *)

(** C9.  When the fetch of [u] answers with a 2xx status, [cacheImage]
    goes on to read the body, and when the body [b] arrives it opens a
    transaction and calls [store.put(b, u)].  What the store holds
    afterwards depends on the database: if the write succeeds the store
    holds [b] under [u] from then on; if the request fails later the put
    has been made but the store stays as it was, and nothing is reported;
    if [put] throws the same holds and the failure is logged; if the
    transaction cannot be opened no put is made at all, the failure is
    logged and the store stays as it was. *)
Theorem cacheImage_round_trip (idle : bool) (t0 : N)
    (store : gmap string (list Byte.byte)) (d : document) (opened : bool)
    (es : list event) (u : url) (b : list Byte.byte) :
  let w := page_load idle t0 store d opened es in
  (∀ st, phase_of w u = AwaitResponse → response_ok st = true →
     let w1 := step (FetchSettled u (Response st)) w in
     phase_of w1 u = AwaitBody ∧ trace w1 = trace w ∧ idb w1 = idb w)
  ∧ (phase_of w u = AwaitBody →
     (let w' := step (BodySettled u (Body b) PutSucceeds) w in
      trace w' = trace w ++ [StorePut u b]
      ∧ idb w' !! u = Some b
      ∧ ∀ es', idb (run es' w') !! u = Some b)
     ∧ (let w' := step (BodySettled u (Body b) PutFails) w in
        trace w' = trace w ++ [StorePut u b]
        ∧ ∀ es', idb (run es' w') !! u = idb w !! u)
     ∧ (∀ msg,
          let w' := step (BodySettled u (Body b) (PutThrows msg)) w in
          trace w'
          = trace w ++ [StorePut u b;
                        ConsoleLog (FailedToCache u (StoreFailed msg))]
          ∧ ∀ es', idb (run es' w') !! u = idb w !! u)
     ∧ (∀ msg,
          let w' := step (BodySettled u (Body b) (TransactionThrows msg)) w in
          trace w'
          = trace w ++ [ConsoleLog (FailedToCache u (StoreFailed msg))]
          ∧ ∀ es', idb (run es' w') !! u = idb w !! u
                   ∧ puts_of u (run es' w') = 0)).
Proof.
  intros w. split.
  - intros st. apply response_ok_awaits_body.
  - intros Hp.
    pose proof (page_load_healthy idle t0 store d opened es) as Hh. fold w in Hh.
    assert (Hrun : ∀ s es',
      let w' := step (BodySettled u (Body b) s) w in
      trace w' = trace w ++ put_effects u b s
      ∧ idb (run es' w') !! u = written u b s (idb w) !! u
      ∧ puts_of u (run es' w') = puts_made s).
    { intros s es' w'.
      destruct (body_arrives w u b s Hh Hp) as (Ht & Hi & Hd & _ & _ & Hn).
      fold w' in Ht, Hi, Hd, Hn.
      destruct (run_settled es' w' u) as (_ & -> & ->);
        [by apply step_healthy | done |].
      by rewrite Hi. }
    split_and!.
    + destruct (Hrun PutSucceeds []) as (Ht & Hi & _).
      split_and!; [done | |].
      * cbn [run foldl] in Hi. rewrite Hi. apply lookup_insert_eq.
      * intros es'. destruct (Hrun PutSucceeds es') as (_ & -> & _).
        apply lookup_insert_eq.
    + destruct (Hrun PutFails []) as (Ht & _).
      split; [done|]. intros es'. by destruct (Hrun PutFails es') as (_ & -> & _).
    + intros msg. destruct (Hrun (PutThrows msg) []) as (Ht & _).
      split; [done|]. intros es'.
      by destruct (Hrun (PutThrows msg) es') as (_ & -> & _).
    + intros msg. destruct (Hrun (TransactionThrows msg) []) as (Ht & _).
      split; [done|]. intros es'.
      by destruct (Hrun (TransactionThrows msg) es') as (_ & -> & ->).
Qed.

Lemma cacheImage_round_trip_witness :
  let w := page_load true 0 ∅ scenario true
             [ImageLoaded "a.jpg"; FetchSettled "a.jpg" (Response 200)] in
  let w' := step (BodySettled "a.jpg" (Body [Byte.x2a]) PutSucceeds) w in
  trace w' = trace w ++ [StorePut "a.jpg" [Byte.x2a]]
  ∧ idb w' !! "a.jpg" = Some [Byte.x2a]
  ∧ ∀ es', idb (run es' w') !! "a.jpg" = Some [Byte.x2a].
Proof.
  intros w.
  assert (H : phase_of w "a.jpg" = AwaitBody) by (vm_compute; reflexivity).
  exact (proj1 (proj2 (cacheImage_round_trip true 0%N ∅ scenario true
           [ImageLoaded "a.jpg"; FetchSettled "a.jpg" (Response 200)]
           "a.jpg" [Byte.x2a]) H)).
Defined.

(** The fetch of [a.jpg] answers 200 and the body arrives.  In the first
    run the put request fails afterwards (the quota is used up, say):
    [store.put] has been called, the promise is fulfilled, nothing is
    logged, and the store does not hold the entry.  In the second run the
    transaction cannot be opened: [store.put] is never called. *)
Lemma failed_write_stores_nothing :
  let w1 := page_load true 0 ∅ scenario true
              [ImageLoaded "a.jpg"; FetchSettled "a.jpg" (Response 200);
               BodySettled "a.jpg" (Body [Byte.x2a]) PutFails] in
  let w2 := page_load true 0 ∅ scenario true
              [ImageLoaded "a.jpg"; FetchSettled "a.jpg" (Response 200);
               BodySettled "a.jpg" (Body [Byte.x2a])
                 (TransactionThrows "InvalidStateError")] in
  trace w1 = [ImageRequest "a.jpg"; ImageRequest "b.png"; ImageRequest "c.webp";
              FetchRequest "a.jpg"; StorePut "a.jpg" [Byte.x2a]]
  ∧ idb w1 !! "a.jpg" = None
  ∧ promise_state_of w1 (LoadPromise "a.jpg") = Fulfilled 0
  ∧ trace w2 = [ImageRequest "a.jpg"; ImageRequest "b.png"; ImageRequest "c.webp";
                FetchRequest "a.jpg";
                ConsoleLog (FailedToCache "a.jpg"
                              (StoreFailed "InvalidStateError"))]
  ∧ puts_of "a.jpg" w2 = 0
  ∧ idb w2 !! "a.jpg" = None.
Proof. vm_compute. repeat split. Qed.

(** C4.  A call of [preloadImage] for a URL that is in [preloadedUrls]
    returns a resolved promise and changes nothing; a call puts the URL
    into [preloadedUrls] in the same synchronous stretch in which it
    starts the load, so a second call right after the first takes the
    fast path.  Whatever the number of calls, a page load makes at most
    one [store.put] for the URL: exactly one from the moment the body of
    a successful fetch has arrived and the transaction has been opened,
    and none, ever, when the store did not open, the fetch failed, the
    body could not be read or the transaction could not be opened. *)
Theorem preloadImage_idempotent (idle : bool) (t0 : N)
    (store : gmap string (list Byte.byte)) (d : document) (opened : bool)
    (es : list event) (u : url) (w0 : preloader) :
  let w := page_load idle t0 store d opened es in
  (u ∈ preloadedUrls w0 → preloadImage u w0 = (AlreadyResolved, w0))
  ∧ (u ∉ preloadedUrls w0 →
       preloadImage u w0
       = (LoadPromise u,
          emit (ImageRequest u)
            (set_loads (<[u := new_load (now w0)]> (loads w0))
               (set_preloadedUrls (preloadedUrls w0 ++ [u]) w0))))
  ∧ u ∈ preloadedUrls (snd (preloadImage u w0))
  ∧ preloadImage u (snd (preloadImage u w0))
    = (AlreadyResolved, snd (preloadImage u w0))
  ∧ puts_of u w ≤ 1
  ∧ (∀ b s es', phase_of w u = AwaitBody →
       puts_of u (run es' (step (BodySettled u (Body b) s) w))
       = match s with TransactionThrows _ => 0 | _ => 1 end)
  ∧ (opened = false → ∀ es', puts_of u (run es' w) = 0)
  ∧ (∀ r f es', phase_of w u = AwaitResponse → failed_response r = Some f →
       puts_of u (run es' (step (FetchSettled u r) w)) = 0)
  ∧ (∀ msg s es', phase_of w u = AwaitBody →
       puts_of u (run es' (step (BodySettled u (BodyRejected msg) s) w)) = 0).
Proof.
  intros w.
  pose proof (page_load_healthy idle t0 store d opened es) as Hh. fold w in Hh.
  assert (Hin : u ∈ preloadedUrls (snd (preloadImage u w0))).
  { destruct (decide (u ∈ preloadedUrls w0)) as [H|H].
    - by rewrite (preloadImage_seen u w0 H).
    - rewrite (preloadImage_fresh u w0 H). simpl.
      apply elem_of_app. right. left. }
  split_and!.
  - apply preloadImage_seen.
  - apply preloadImage_fresh.
  - exact Hin.
  - by apply preloadImage_seen.
  - destruct Hh as [_ Hc]. apply (ca_puts _ Hc).
  - intros b s es' Hp.
    destruct (body_arrives w u b s Hh Hp) as (_ & _ & Hd & _ & _ & Hn).
    destruct (run_settled es' (step (BodySettled u (Body b) s) w) u)
      as (_ & -> & _); [by apply step_healthy | done |].
    rewrite Hn. by destruct s.
  - intros Ho es'.
    assert (E : run es' w = page_load idle t0 store d opened (es ++ es')).
    { unfold w, page_load. by rewrite run_app. }
    rewrite E.
    destruct (no_store_no_caching idle t0 store d opened (es ++ es') Ho)
      as (_ & _ & _ & _ & Hz).
    apply Hz.
  - intros r f es' Hp Hf.
    destruct (fetch_fails_done w u r f Hh Hp Hf) as [Hd Hz].
    destruct (run_settled es' (step (FetchSettled u r) w) u)
      as (_ & -> & _); [by apply step_healthy | done | done].
  - intros msg s es' Hp.
    destruct (body_fails_done w u msg s Hh Hp) as [Hd Hz].
    destruct (run_settled es' (step (BodySettled u (BodyRejected msg) s) w) u)
      as (_ & -> & _); [by apply step_healthy | done | done].
Qed.

(** On [twin_page] the URL is twice in the queue, so [preloadImage] is
    called twice for it in the first batch. *)
Lemma preloadImage_idempotent_witness :
  let w := page_load true 0 ∅ twin_page true
             [ImageLoaded "a.jpg"; FetchSettled "a.jpg" (Response 200)] in
  puts_of "a.jpg"
    (run [Advance 30100; CallbackRun 0]
       (step (BodySettled "a.jpg" (Body [Byte.x2a]) PutSucceeds) w))
  = 1.
Proof.
  intros w.
  assert (H : phase_of w "a.jpg" = AwaitBody) by (vm_compute; reflexivity).
  exact (proj1 (proj2 (proj2 (proj2 (proj2 (proj2
           (preloadImage_idempotent true 0%N ∅ twin_page true
              [ImageLoaded "a.jpg"; FetchSettled "a.jpg" (Response 200)]
              "a.jpg" (constructed true 0 ∅)))))))
           [Byte.x2a] PutSucceeds [Advance 30100; CallbackRun 0] H).
Defined.

(** The URL is twice in the queue and [preloadImage] is called twice in
    the first batch; the fetch fails, the promise settles, and no
    [store.put] has been made. *)
Lemma two_calls_no_put :
  let w0 := page_load true 0 ∅ twin_page true [] in
  let w := page_load true 0 ∅ twin_page true
             [ImageLoaded "a.jpg"; FetchSettled "a.jpg" (FetchRejected "offline")] in
  build_queue twin_page = ["a.jpg"; "a.jpg"]
  ∧ awaiting w0 = Some [LoadPromise "a.jpg"; AlreadyResolved]
  ∧ promise_state_of w (LoadPromise "a.jpg") = Fulfilled 0
  ∧ phase_of w "a.jpg" = CacheDone
  ∧ puts_of "a.jpg" w = 0.
Proof. vm_compute. repeat split. Qed.

(** ** A store write that fails *)

(** X6.  A store write that fails stays local and is not retried.  When
    the body has arrived and the write does not succeed, the promise of
    the URL is settled all the same, nothing reaches the batch level and
    the store is left as it was.  A transaction or a [put] that throws is
    logged by [cacheImage]; a put request that fails later is not
    reported at all.  Whatever happens afterwards, there is no second
    fetch and no further [put] for the URL, and the store keeps what it
    held under it. *)
Theorem store_failures_stay_local (idle : bool) (t0 : N)
    (store : gmap string (list Byte.byte)) (d : document) (opened : bool)
    (es : list event) (u : url) (b : list Byte.byte) (s : store_answer) :
  let w := page_load idle t0 store d opened es in
  phase_of w u = AwaitBody → s ≠ PutSucceeds →
  let w' := step (BodySettled u (Body b) s) w in
  is_pending (promise_state_of w' (LoadPromise u)) = false
  ∧ (ConsoleLog BatchPreloadError ∉ trace w')
  ∧ idb w' = idb w
  ∧ (s = PutFails → trace w' = trace w ++ [StorePut u b])
  ∧ (∀ msg, s = PutThrows msg →
       trace w' = trace w ++ [StorePut u b;
                              ConsoleLog (FailedToCache u (StoreFailed msg))])
  ∧ (∀ msg, s = TransactionThrows msg →
       trace w' = trace w ++ [ConsoleLog (FailedToCache u (StoreFailed msg))])
  ∧ (∀ es', let w2 := run es' w' in
       phase_of w2 u = CacheDone
       ∧ is_pending (promise_state_of w2 (LoadPromise u)) = false
       ∧ idb w2 !! u = idb w !! u
       ∧ puts_of u w2 = puts_of u w'
       ∧ fetches_of u w2 = 1).
Proof.
  intros w Hp Hs w'.
  pose proof (page_load_healthy idle t0 store d opened es) as Hh. fold w in Hh.
  destruct (body_arrives w u b s Hh Hp) as (Ht & Hi & Hd & Hn & _ & _).
  fold w' in Ht, Hi, Hd, Hn.
  assert (Hh' : healthy w') by (by apply step_healthy).
  assert (Hi' : idb w' = idb w) by (rewrite Hi; by destruct s).
  split_and!; [done | | done | | | |].
  - destruct Hh' as [(Ho & _) _]. apply (o_no_batch_error _ Ho).
  - intros ->. done.
  - intros msg ->. done.
  - intros msg ->. done.
  - intros es' w2.
    destruct (run_settled es' w' u Hh' Hd) as (Hd2 & Hp2 & Hi2).
    fold w2 in Hd2, Hp2, Hi2.
    assert (Hl : ∃ l, loads w' !! u = Some l ∧ caching l = CacheDone).
    { unfold phase_of in Hd. destruct (loads w' !! u) as [l|]; [eauto | done]. }
    destruct Hl as (l & Hl & Hcl).
    destruct (run_progress es' w' u l Hh' Hl) as (l2 & Hl2 & (_ & Po & Pi & _)).
    fold w2 in Hl2.
    assert (Hf : ∃ t, outcome l = Fulfilled t).
    { destruct Hh' as [(Ho & _) _]. pose proof (o_loads _ Ho u l Hl) as Hst.
      unfold settled_in_time in Hst. cbn [promise_state_of] in Hn.
      rewrite Hl in Hn. destruct (outcome l); [done | eauto | done]. }
    destruct Hf as (t & Hf).
    assert (Himg : img_fired l = true).
    { destruct (img_fired l) eqn:E; [done|]. destruct Hh' as [_ Hc].
      rewrite (ca_idle _ Hc u l Hl E) in Hcl. done. }
    split_and!; [done | | by rewrite Hi2, Hi' | done |].
    + cbn [promise_state_of]. by rewrite Hl2, (Po t Hf).
    + assert (E : w2 = page_load idle t0 store d opened
                         (es ++ BodySettled u (Body b) s :: es')).
      { unfold w2, w', w, page_load. by rewrite run_app. }
      destruct (page_load_frugal idle t0 store d opened
                  (es ++ BodySettled u (Body b) s :: es')) as [_ Ff].
      rewrite <- E in Ff. rewrite Ff, Hl2, (Pi Himg).
      assert (Hdb : db w2 = true); [|by rewrite Hdb].
      unfold w2. destruct (run_db es' w') as [-> _]. unfold w'.
      destruct (step_frame (BodySettled u (Body b) s) w) as (-> & _).
      destruct (db w) eqn:Ed; [done|]. destruct Hh as [_ Hc].
      destruct (ca_no_db w Hc Ed) as (N1 & _). destruct (N1 u); congruence.
Qed.

Lemma store_failures_stay_local_witness :
  let w := page_load true 0 ∅ scenario true
             [ImageLoaded "a.jpg"; FetchSettled "a.jpg" (Response 200)] in
  let w' := step (BodySettled "a.jpg" (Body [Byte.x2a]) PutFails) w in
  is_pending (promise_state_of w' (LoadPromise "a.jpg")) = false
  ∧ (ConsoleLog BatchPreloadError ∉ trace w')
  ∧ idb w' = idb w
  ∧ (PutFails = PutFails → trace w' = trace w ++ [StorePut "a.jpg" [Byte.x2a]])
  ∧ (∀ msg, PutFails = PutThrows msg →
       trace w' = trace w ++ [StorePut "a.jpg" [Byte.x2a];
                              ConsoleLog (FailedToCache "a.jpg" (StoreFailed msg))])
  ∧ (∀ msg, PutFails = TransactionThrows msg →
       trace w' = trace w ++ [ConsoleLog (FailedToCache "a.jpg" (StoreFailed msg))])
  ∧ (∀ es', let w2 := run es' w' in
       phase_of w2 "a.jpg" = CacheDone
       ∧ is_pending (promise_state_of w2 (LoadPromise "a.jpg")) = false
       ∧ idb w2 !! "a.jpg" = idb w !! "a.jpg"
       ∧ puts_of "a.jpg" w2 = puts_of "a.jpg" w'
       ∧ fetches_of "a.jpg" w2 = 1).
Proof.
  intros w.
  assert (H1 : phase_of w "a.jpg" = AwaitBody) by (vm_compute; reflexivity).
  assert (H2 : PutFails ≠ PutSucceeds) by discriminate.
  exact (store_failures_stay_local true 0%N ∅ scenario true
           [ImageLoaded "a.jpg"; FetchSettled "a.jpg" (Response 200)]
           "a.jpg" [Byte.x2a] PutFails H1 H2).
Defined.

Lemma init_trace (idle : bool) (t0 : N)
    (store : gmap string (list Byte.byte)) (d : document) (opened : bool) :
  trace (page_load idle t0 store d opened [])
  = (if opened then [] else [ConsoleLog IndexedDBUnavailable])
    ++ (ImageRequest <$> new_Set (take 4 (build_queue d))).
Proof.
  destruct (init_first_batch idle t0 store d opened) as (Hu & _).
  revert Hu. unfold page_load, init, startPreloading. cbn [run foldl].
  set (w1 := set_preloadingQueue _ _).
  destruct (loadNextImages_emits w1) as (new & Hn & Htr).
  apply no_batch_tail in Htr.
  2:{ destruct (init_healthy idle t0 store d opened) as ([(Ho & _) _] & _).
      apply (o_no_batch_error _ Ho). }
  rewrite Htr, Hn. intros Hu.
  assert (Hp : preloadedUrls w1 = []) by (unfold w1; by destruct opened).
  rewrite Hp in Hu. cbn [app] in Hu. rewrite Hu.
  unfold w1. by destruct opened.
Qed.

(** X7.  [init] goes on when the database cannot be opened.  It reports
    the failure once, before anything else, and then starts preloading as
    it does when the database opens: the first effects after the report
    are the image requests for the first 4 URLs of the queue.  When the
    database opens, nothing of the kind is ever reported. *)
Theorem store_failure_reported_once (idle : bool) (t0 : N)
    (store : gmap string (list Byte.byte)) (d : document) (opened : bool)
    (es : list event) :
  let w := page_load idle t0 store d opened es in
  ∃ tr, trace w
        = (if opened then [] else [ConsoleLog IndexedDBUnavailable])
          ++ (ImageRequest <$> new_Set (take 4 (build_queue d))) ++ tr
        ∧ ConsoleLog IndexedDBUnavailable ∉ tr.
Proof.
  induction es as [|e es IH] using rev_ind; intros w.
  - exists []. unfold w. rewrite init_trace, app_nil_r.
    split; [done | apply not_elem_of_nil].
  - cbv zeta in IH. destruct IH as (tr & Htr & Hn).
    unfold w. rewrite page_load_snoc.
    destruct (page_load_healthy idle t0 store d opened es) as [Hs _].
    rewrite (step_emits e _ Hs), Htr, <- !app_assoc.
    eexists. split; [done|].
    intros [?|?]%elem_of_app; [done|].
    by eapply emitted_no_unavailable.
Qed.
